(** * Vercel CLI: repository link resolver and deployment event consumer

    A shallow embedding of two pieces of the command-line client:

    - the repo-to-projects resolver ([findRepoRoot], [traverseUpDirectories],
      [getRepoLink], [ensureRepoLink], [sortByDirectory],
      [findProjectsFromPath]) of the CLI's link utilities, and
    - the deployment event consumer [printEvents] with its retry wrapper.

    JavaScript values are modelled as the code uses them: strings as
    [string], arrays as [list], [undefined] as [None], a thrown exception
    as the [Throw] branch of [result].  Callbacks of the environment
    (file system, prompts, HTTP) are parameters or scripted inputs. *)

From Stdlib Require Import String Ascii List Bool Arith ZArith Lia Sorted
  Permutation.
Import ListNotations.

Local Open Scope string_scope.
Local Open Scope list_scope.

(** ** JavaScript helpers *)

Module Js.

(** What a [throw] carries. *)
Inductive exn : Type :=
| TypeError (what : string)
| Error (message : string)
| SystemError (code : string).

(** A computation that returns or throws. *)
Inductive result (A : Type) : Type :=
| Ok (a : A)
| Throw (e : exn).

Arguments Ok {A} a.
Arguments Throw {A} e.

Definition bind {A B : Type} (m : result A) (k : A -> result B) : result B :=
  match m with
  | Ok a => k a
  | Throw e => Throw e
  end.

Notation "x <- m ;; k" := (bind m (fun x => k))
  (at level 61, m at next level, right associativity).

(** [s.split(sep)] for a one-character separator: never empty,
    [''.split('/')] is [['']]. *)
Fixpoint split (sep : ascii) (s : string) : list string :=
  match s with
  | EmptyString => [EmptyString]
  | String c r =>
      if Ascii.eqb c sep then EmptyString :: split sep r
      else match split sep r with
           | [] => [String c EmptyString]
           | h :: t => String c h :: t
           end
  end.

(** [s.startsWith(p)]. *)
Definition startsWith (s p : string) : bool := String.prefix p s.

(** [s.endsWith("/")]-style test on the last character. *)
Fixpoint lastChar (s : string) : option ascii :=
  match s with
  | EmptyString => None
  | String c EmptyString => Some c
  | String _ r => lastChar r
  end.

(** [Array.prototype.filter] with a callback that may throw: the callback
    runs once per element, left to right, and never on an empty array. *)
Fixpoint filterM {A : Type} (f : A -> result bool) (l : list A)
  : result (list A) :=
  match l with
  | [] => Ok []
  | x :: r =>
      keep <- f x ;;
      rest <- filterM f r ;;
      Ok (if keep then x :: rest else rest)
  end.

(** [Array.prototype.sort(cmp)]: the sort is stable (ECMAScript 2019), so for
    a consistent comparator the result is the input's elements by
    non-decreasing [cmp], elements that compare equal keeping their input
    order.  Insertion from the right computes exactly that list. *)
Fixpoint insert {A : Type} (cmp : A -> A -> Z) (x : A) (l : list A) : list A :=
  match l with
  | [] => [x]
  | y :: r => if (cmp x y <=? 0)%Z then x :: y :: r else y :: insert cmp x r
  end.

Fixpoint sort {A : Type} (cmp : A -> A -> Z) (l : list A) : list A :=
  match l with
  | [] => []
  | x :: r => insert cmp x (sort cmp r)
  end.

(** Property access [v.directory] on a value that may be [undefined]. *)
Definition getProp {A B : Type} (name : string) (proj : A -> B)
  (v : option A) : result B :=
  match v with
  | Some a => Ok (proj a)
  | None => Throw (TypeError name)
  end.

End Js.

Import Js.

(** ** Reference instance of Node's [path.posix]

    [normalize], [join] and [basename] belong to Node, not to the CLI; the
    resolver takes them as parameters.  This instance follows Node's POSIX
    algorithm and is used to run the resolver on concrete trees. *)

Module Posix.

Definition slash : ascii := "/"%char.

Fixpoint joinWith (sep : string) (l : list string) : string :=
  match l with
  | [] => ""
  | [x] => x
  | x :: r => (x ++ sep ++ joinWith sep r)%string
  end.

(** Resolution of [.] and [..] segments; [acc] is the stack of kept
    segments, innermost first. *)
Fixpoint resolveSegments (allowAbove : bool) (segs acc : list string)
  : list string :=
  match segs with
  | [] => rev acc
  | s :: r =>
      if (s =? "") || (s =? ".") then resolveSegments allowAbove r acc
      else if s =? ".." then
        match acc with
        | top :: below =>
            if top =? ".." then resolveSegments allowAbove r (s :: acc)
            else resolveSegments allowAbove r below
        | [] =>
            if allowAbove then resolveSegments allowAbove r [s]
            else resolveSegments allowAbove r []
        end
      else resolveSegments allowAbove r (s :: acc)
  end.

Definition isAbsolute (p : string) : bool := startsWith p "/".

Definition normalize (p : string) : string :=
  if p =? "" then "."
  else
    let abs := isAbsolute p in
    let trailing := match lastChar p with
                    | Some c => Ascii.eqb c slash
                    | None => false
                    end in
    let body := joinWith "/" (resolveSegments (negb abs) (split slash p) []) in
    let body := if (body =? "") && negb abs then "." else body in
    let body := if negb (body =? "") && trailing then (body ++ "/")%string else body in
    if abs then ("/" ++ body)%string else body.

Definition join (paths : list string) : string :=
  let parts := filter (fun s => negb (s =? "")) paths in
  match parts with
  | [] => "."
  | _ => normalize (joinWith "/" parts)
  end.

Definition basename (p : string) : string :=
  last (filter (fun s => negb (s =? "")) (split slash p)) "".

(** Modelled from the spec: [normalizePath] of the build utilities is not
    under the sources read here.  It brings a path to the relative-path
    convention of the [directory] fields, [/]-separated; a POSIX path is in
    that convention already. *)
Definition normalizePath (p : string) : string := p.

End Posix.

(** ** The repo link resolver *)

Module RepoLink.

Record RepoProjectConfig : Type := {
  id : string;
  name : string;
  directory : string
}.

Record RepoProjectsConfig : Type := {
  orgId : string;
  remoteName : string;
  projects : list RepoProjectConfig
}.

Record RepoLink : Type := {
  rootPath : string;
  repoConfigPath : string;
  repoConfig : option RepoProjectsConfig
}.

Record EnsureRepoLinkOptions : Type := {
  yes : bool;
  overwrite : bool
}.

(** A remote project as the API returns it ([Project] of the internal
    types): only the fields the resolver reads. *)
Record Project : Type := {
  p_id : string;
  p_name : string;
  rootDirectory : option string
}.

Record Org : Type := {
  org_id : string;
  org_slug : string;
  org_type : string
}.

(** A value of the project checkbox: an existing [Project], or the literal
    [{ newProject: true, rootDirectory, name, framework }]. *)
Inductive Selection : Type :=
| Existing (project : Project)
| NewProject (newRootDirectory newName framework : string).

(** What [lstat(p).catch(err => { if (err.code !== 'ENOENT') throw err })]
    can do: yield stats, yield [undefined], or rethrow. *)
Inductive lstat_outcome : Type :=
| Stats
| Enoent
| LstatFails (code : string).

(** Same for [readJSON(p).catch(...)]. *)
Inductive read_outcome : Type :=
| Parsed (config : RepoProjectsConfig)
| ReadEnoent
| ReadFails (e : exn).

(** File-system and API writes of [ensureRepoLink], in program order: the
    calls made, a call that fails included. *)
Inductive link_effect : Type :=
| CreateProject (projectName : string)
| OutputJSON (path : string) (config : RepoProjectsConfig)
| WriteReadme (root : string)
| AddToGitIgnore (root : string).

(** The collaborators of [ensureRepoLink]: prompts, Git, the API and the
    writers.  Each is awaited without a [catch] (local detection apart), so
    each may reject: [Throw] is the rejection.  [selectOrg] is given [yes];
    [fetchPaginated] is given [remoteUrls[remoteName]] and yields the chunks
    of the iteration; [addToGitIgnore] tells whether it changed the file. *)
Record LinkEnv : Type := {
  detectProjects : string -> result (list (string * string));
  confirm : string -> result bool;
  selectOrg : bool -> result Org;
  getRemoteUrls : string -> result (option (list (string * string)));
  promptRemote : list string -> option string -> result string;
  fetchPaginated : option string -> result (list (list Project));
  promptSelected : list Selection -> result (list Selection);
  createProject : string -> result Project;
  outputJSON : string -> RepoProjectsConfig -> result unit;
  writeReadme : string -> result unit;
  addToGitIgnore : string -> result bool
}.

Section Resolver.

(** [normalizePath] of the build utilities. *)
Variable normalizePath : string -> string.
(** Node's [path.normalize], [path.join] and [path.basename]. *)
Variable normalize : string -> string.
Variable join : list string -> string.
Variable basename : string -> string.
(** [os.homedir()]. *)
Variable home : string.
(** Constants of the project link utilities. *)
Variable VERCEL_DIR : string.
Variable VERCEL_DIR_REPO : string.
(** The file system. *)
Variable lstat : string -> lstat_outcome.
Variable readJSON : string -> read_outcome.

(** *** [traverseUpDirectories]

    The generator as a state machine: its state is the local [current]
    ([None] for [undefined]); a step yields [current] and computes the next
    state, or finishes when [current] is falsy. *)

Definition traverseUpDirectories_init (start : string) : option string :=
  Some (normalize start).

Definition traverseUpDirectories_next (current : option string)
  : option (string * option string) :=
  match current with
  | None => None
  | Some c =>
      if c =? "" then None
      else
        let next := join [c; ".."] in
        Some (c, if next =? c then None else Some next)
  end.

(** *** [findRepoRoot]

    The [for ... of] loop over the generator.  The result carries the paths
    given to [lstat], in order; [None] means the fuel ran out before the
    loop ended. *)

Definition REPO_JSON_PATH : string := join [VERCEL_DIR; VERCEL_DIR_REPO].
Definition GIT_CONFIG_PATH : string := normalize ".git/config".

Fixpoint findRepoRoot_loop (fuel : nat) (gen : option string)
  (probed : list string) : option (list string * result (option string)) :=
  match fuel with
  | O => None
  | S fuel' =>
      match traverseUpDirectories_next gen with
      | None => Some (probed, Ok None)
      | Some (current, gen') =>
          if current =? home then Some (probed, Ok None)
          else
            let repoConfigPath := join [current; REPO_JSON_PATH] in
            match lstat repoConfigPath with
            | LstatFails code =>
                Some (probed ++ [repoConfigPath], Throw (SystemError code))
            | Stats => Some (probed ++ [repoConfigPath], Ok (Some current))
            | Enoent =>
                let gitConfigPath := join [current; GIT_CONFIG_PATH] in
                match lstat gitConfigPath with
                | LstatFails code =>
                    Some (probed ++ [repoConfigPath; gitConfigPath],
                          Throw (SystemError code))
                | Stats =>
                    Some (probed ++ [repoConfigPath; gitConfigPath],
                          Ok (Some current))
                | Enoent =>
                    findRepoRoot_loop fuel' gen'
                      (probed ++ [repoConfigPath; gitConfigPath])
                end
            end
      end
  end.

Definition findRepoRoot (fuel : nat) (start : string)
  : option (list string * result (option string)) :=
  findRepoRoot_loop fuel (traverseUpDirectories_init start) [].

(** The walk, named for the statements about it: the [k]-th directory
    above [c], the two marker paths of a directory, what it means that the
    loop goes past a directory, and the paths probed on the way. *)

Definition parentOf (c : string) : string := join [c; ".."].

Fixpoint ancestorFrom (k : nat) (c : string) : string :=
  match k with
  | O => c
  | S k' => ancestorFrom k' (parentOf c)
  end.

Definition ancestor (k : nat) (start : string) : string :=
  ancestorFrom k (normalize start).

Definition manifestOf (c : string) : string := join [c; REPO_JSON_PATH].
Definition gitConfigOf (c : string) : string := join [c; GIT_CONFIG_PATH].

Definition passedOver (c : string) : Prop :=
  c <> "" /\ c <> home /\
  lstat (manifestOf c) = Enoent /\ lstat (gitConfigOf c) = Enoent /\
  parentOf c <> c.

Fixpoint probesFrom (k : nat) (c : string) : list string :=
  match k with
  | O => []
  | S k' => manifestOf c :: gitConfigOf c :: probesFrom k' (parentOf c)
  end.

Definition probesBelow (k : nat) (start : string) : list string :=
  probesFrom k (normalize start).

(** *** [getRepoLink] *)

Definition getRepoLink (fuel : nat) (cwd : string)
  : option (result (option RepoLink)) :=
  match findRepoRoot fuel cwd with
  | None => None
  | Some (_, Throw e) => Some (Throw e)
  | Some (_, Ok None) => Some (Ok None)
  | Some (_, Ok (Some root)) =>
      let path := join [root; VERCEL_DIR; VERCEL_DIR_REPO] in
      match readJSON path with
      | ReadFails e => Some (Throw e)
      | ReadEnoent =>
          Some (Ok (Some {| rootPath := root; repoConfigPath := path;
                            repoConfig := None |}))
      | Parsed config =>
          Some (Ok (Some {| rootPath := root; repoConfigPath := path;
                            repoConfig := Some config |}))
      end
  end.

(** *** [sortByDirectory] and [findProjectsFromPath] *)

Definition sortByDirectory (a b : RepoProjectConfig) : Z :=
  let aParts := split "/" (directory a) in
  let bParts := split "/" (directory b) in
  (Z.of_nat (length bParts) - Z.of_nat (length aParts))%Z.

(** The callback of the first [filter]. *)
Definition matchesPath (normalizedPath : string) (project : RepoProjectConfig)
  : bool :=
  if directory project =? "." then true
  else (normalizedPath =? directory project)
       || startsWith normalizedPath (directory project ++ "/")%string.

Definition findProjectsFromPath (projects : list RepoProjectConfig)
  (path : string) : result (list RepoProjectConfig) :=
  let normalizedPath := normalizePath path in
  let matches :=
    filter (matchesPath normalizedPath) (sort sortByDirectory projects) in
  let firstMatch := nth_error matches 0 in
  filterM (fun match_ =>
             d <- getProp "directory" directory firstMatch ;;
             Ok (directory match_ =? d))
          matches.

(** Number of segments of a project's directory: the key of the sort. *)
Definition depth (q : RepoProjectConfig) : nat :=
  length (split "/" (directory q)).

(** The order the sorted copy is in. *)
Definition deeperOrEqual (a b : RepoProjectConfig) : Prop :=
  depth b <= depth a.

(** The local [matches]: the result of the first filter. *)
Definition matchesOf (projects : list RepoProjectConfig) (path : string)
  : list RepoProjectConfig :=
  filter (matchesPath (normalizePath path)) (sort sortByDirectory projects).

(** *** [ensureRepoLink] *)

(** Default comparator of [Array.prototype.sort()] on strings. *)
Definition compareStrings (a b : string) : Z :=
  match String.compare a b with
  | Lt => (-1)%Z
  | Eq => 0%Z
  | Gt => 1%Z
  end.

(** [remoteUrls[remoteName]]. *)
Fixpoint lookupKey (k : string) (m : list (string * string)) : option string :=
  match m with
  | [] => None
  | (k', v) :: r => if k' =? k then Some v else lookupKey k r
  end.

(** [Map.prototype.delete]. *)
Definition deleteKey (k : string) (m : list (string * string))
  : list (string * string) :=
  filter (fun kv => negb (fst kv =? k)) m.

Definition orEmpty (s : option string) : string :=
  match s with
  | Some d => d
  | None => ""
  end.

(** The loop that replaces every selected new entry by the project created
    for it. *)
Fixpoint createSelected (env : LinkEnv) (selected : list Selection)
  : list link_effect * result (list Selection) :=
  match selected with
  | [] => ([], Ok [])
  | Existing p :: r =>
      let '(eff, res) := createSelected env r in
      (eff, rest <- res ;; Ok (Existing p :: rest))
  | NewProject _ newName _ :: r =>
      match createProject env newName with
      | Throw e => ([CreateProject newName], Throw e)
      | Ok created =>
          let '(eff, res) := createSelected env r in
          (CreateProject newName :: eff,
           rest <- res ;; Ok (Existing created :: rest))
      end
  end.

(** The name of the remote to link: the only one, or the one the user
    picks from the sorted names. *)
Definition chooseRemote (env : LinkEnv) (remoteUrls : list (string * string))
  : result string :=
  let remoteNames := map fst remoteUrls in
  match remoteNames with
  | [only] => Ok only
  | _ =>
      promptRemote env (sort compareStrings remoteNames)
        (if existsb (String.eqb "origin") remoteNames
         then Some "origin" else None)
  end.

(** The detected directories left once those of the fetched projects are
    deleted. *)
Definition unclaimed (fetched : list Project)
  (detectedProjects : list (string * string)) : list (string * string) :=
  fold_left (fun m project => deleteKey (orEmpty (rootDirectory project)) m)
            fetched detectedProjects.

(** The [repoConfig] built after the creation loop. *)
Definition newRepoConfig (org : Org) (remote : string) (fetched : list Project)
  : RepoProjectsConfig := {|
  orgId := org_id org;
  remoteName := remote;
  projects :=
    map (fun project => {|
           id := p_id project;
           name := p_name project;
           directory := normalize (orEmpty (rootDirectory project))
         |})
        fetched
|}.

(** An awaited call that writes nothing: its rejection ends the run with
    nothing done so far. *)
Definition awaiting {A B : Type} (r : result A)
  (k : A -> list link_effect * result B) : list link_effect * result B :=
  match r with
  | Throw e => ([], Throw e)
  | Ok a => k a
  end.

(** An awaited write: the call is made, and its rejection ends the run. *)
Definition writing {A B : Type} (call : link_effect) (r : result A)
  (k : A -> list link_effect * result B) : list link_effect * result B :=
  match r with
  | Throw e => ([call], Throw e)
  | Ok a => let '(eff, res) := k a in (call :: eff, res)
  end.

(** The three writes that follow the creation loop. *)
Definition persist (env : LinkEnv) (root configPath : string)
  (config : RepoProjectsConfig) : list link_effect * result (option RepoLink) :=
  writing (OutputJSON configPath config) (outputJSON env configPath config)
    (fun _ =>
  writing (WriteReadme root) (writeReadme env root) (fun _ =>
  writing (AddToGitIgnore root) (addToGitIgnore env root) (fun _ =>
  ([], Ok (Some {| rootPath := root; repoConfigPath := configPath;
                   repoConfig := Some config |}))))).

(** The linking branch, entered when [overwrite || !repoConfig].  Console
    output (spinner, log lines) and the assignment to
    [client.config.currentTeam] are left out. *)
Definition linkRepo (env : LinkEnv) (opts : EnsureRepoLinkOptions)
  (root configPath : string) : list link_effect * result (option RepoLink) :=
  let detectedProjects :=
    match detectProjects env root with
    | Ok m => m
    | Throw _ => []
    end in
  awaiting (if yes opts then Ok true else confirm env root)
    (fun shouldLink =>
  if negb shouldLink then ([], Ok None)
  else
  awaiting (selectOrg env (yes opts)) (fun org =>
  awaiting (getRemoteUrls env (join [root; ".git/config"]))
    (fun remoteUrls =>
  match remoteUrls with
  | None => ([], Throw (Error "Could not determine Git remote URLs"))
  | Some remoteUrls =>
  awaiting (chooseRemote env remoteUrls) (fun remote =>
  let repoUrl := lookupKey remote remoteUrls in
  awaiting (fetchPaginated env repoUrl) (fun chunks =>
  let fetched := concat chunks in
  let detectedProjects := unclaimed fetched detectedProjects in
  let choices :=
    map Existing fetched
    ++ map (fun entry =>
              NewProject (fst entry) (basename (fst entry)) (snd entry))
           detectedProjects in
  awaiting (promptSelected env choices) (fun selected =>
  if (length selected =? 0)%nat then ([], Ok None)
  else
    match createSelected env selected with
    | (eff, Throw e) => (eff, Throw e)
    | (eff, Ok _) =>
        let '(written, res) :=
          persist env root configPath (newRepoConfig org remote fetched) in
        (eff ++ written, res)
    end)))
  end))).

Definition ensureRepoLink (env : LinkEnv) (fuel : nat) (cwd : string)
  (opts : EnsureRepoLinkOptions)
  : option (list link_effect * result (option RepoLink)) :=
  match getRepoLink fuel cwd with
  | None => None
  | Some (Throw e) => Some ([], Throw e)
  | Some (Ok None) =>
      Some ([], Throw (Error
                  "Could not determine Git repository root directory"))
  | Some (Ok (Some repoLink)) =>
      match overwrite opts, repoConfig repoLink with
      | false, Some _ => Some ([], Ok (Some repoLink))
      | _, _ =>
          Some (linkRepo env opts (rootPath repoLink)
                  (repoConfigPath repoLink))
      end
  end.

End Resolver.

End RepoLink.

(** ** The deployment event consumer *)

Module PrintEvents.

(** The [Error] values the consumer creates or passes on. *)
Inductive error : Type :=
| EventsStatus (status : nat)
| PollStatus (status : nat)
| Raised (message : string).

(** A decoded record of the feed: the [event] discriminator and the rest. *)
Record StreamEvent : Type := {
  event : string;
  payload : string
}.

Inductive message : Type :=
| BuildComplete
| StreamErrorMessage (text : string)
| PollingErrorMessage (e : error).

(** Everything the consumer does to the outside, one constructor per call. *)
Inductive effect : Type :=
| OnOpen
| PrintEvent (data : StreamEvent)
| Log (m : message)
| Debug (text : string)
| EraseLines (count : nat)
| FetchEvents
| FetchPoll
| SetTimeout (ms : nat)
| ClearTimeout
| StreamEnd
| Resolve
| Reject (e : error)
| Bail (e : error).

(** What one call of the caller's [printEvent(data, callOnOpenOnce)] does:
    the number it returns and how often it calls the callback it is given. *)
Record PrintResult : Type := {
  units : nat;
  opens : nat
}.

Record Options : Type := {
  mode : string;
  printEvent : StreamEvent -> PrintResult;
  quiet : bool;
  findOpts_limit : option nat
}.

Inductive settlement : Type :=
| Fulfilled
| RejectedWith (e : error).

Record State : Type := {
  (* locals of printEvents, shared by all attempts *)
  onOpenCalled : bool;
  counter : nat;
  o : nat;
  (* locals of one attempt's promise executor *)
  finishCalled : bool;
  poller : bool;
  polling : nat;
  settled : option settlement;
  (* effects so far, oldest first *)
  trace : list effect
}.

Definition initial : State := {|
  onOpenCalled := false; counter := 0; o := 0;
  finishCalled := false; poller := false; polling := 0; settled := None;
  trace := []
|}.

Definition emit (e : effect) (st : State) : State := {|
  onOpenCalled := onOpenCalled st; counter := counter st; o := o st;
  finishCalled := finishCalled st; poller := poller st;
  polling := polling st; settled := settled st;
  trace := trace st ++ [e]
|}.

Definition set_onOpenCalled (b : bool) (st : State) : State := {|
  onOpenCalled := b; counter := counter st; o := o st;
  finishCalled := finishCalled st; poller := poller st;
  polling := polling st; settled := settled st; trace := trace st
|}.

Definition set_counter (n : nat) (st : State) : State := {|
  onOpenCalled := onOpenCalled st; counter := n; o := o st;
  finishCalled := finishCalled st; poller := poller st;
  polling := polling st; settled := settled st; trace := trace st
|}.

Definition set_o (n : nat) (st : State) : State := {|
  onOpenCalled := onOpenCalled st; counter := counter st; o := n;
  finishCalled := finishCalled st; poller := poller st;
  polling := polling st; settled := settled st; trace := trace st
|}.

Definition set_finishCalled (b : bool) (st : State) : State := {|
  onOpenCalled := onOpenCalled st; counter := counter st; o := o st;
  finishCalled := b; poller := poller st;
  polling := polling st; settled := settled st; trace := trace st
|}.

Definition set_poller (b : bool) (st : State) : State := {|
  onOpenCalled := onOpenCalled st; counter := counter st; o := o st;
  finishCalled := finishCalled st; poller := b;
  polling := polling st; settled := settled st; trace := trace st
|}.

Definition set_polling (n : nat) (st : State) : State := {|
  onOpenCalled := onOpenCalled st; counter := counter st; o := o st;
  finishCalled := finishCalled st; poller := poller st;
  polling := n; settled := settled st; trace := trace st
|}.

Definition set_settled (s : option settlement) (st : State) : State := {|
  onOpenCalled := onOpenCalled st; counter := counter st; o := o st;
  finishCalled := finishCalled st; poller := poller st;
  polling := polling st; settled := s; trace := trace st
|}.

(** A promise keeps its first settlement; later [resolve]/[reject] calls
    are accepted and ignored. *)
Definition settle (s : settlement) (st : State) : State :=
  match settled st with
  | None => set_settled (Some s) st
  | Some _ => st
  end.

Definition resolve (st : State) : State := settle Fulfilled (emit Resolve st).

Definition reject (e : error) (st : State) : State :=
  settle (RejectedWith e) (emit (Reject e) st).

(** [stream.end()]. *)
Definition streamEnd (st : State) : State := emit StreamEnd st.

Definition POLL_INTERVAL : nat := 5000.

(** The body of [startPoller]: arm the timeout; the handle goes to
    [poller]. *)
Definition startPoller (st : State) : State :=
  set_poller true (emit (SetTimeout POLL_INTERVAL) st).

(** [clearTimeout(poller)]. *)
Definition clearTimeout (st : State) : State :=
  set_poller false (emit ClearTimeout st).

Section Consumer.

Variable opts : Options.

Definition limit : option nat :=
  match findOpts_limit opts with
  | Some (S n) => Some (S n)
  | _ => None
  end.

Definition reachesLimit (n : nat) : bool :=
  match limit with
  | Some l => (n =? l)%nat
  | None => false
  end.

Definition deployMode : bool := mode opts =? "deploy".

Definition callOnOpenOnce (st : State) : State :=
  if onOpenCalled st then st
  else emit OnOpen (set_onOpenCalled true st).

Definition finish (err : option error) (st : State) : State :=
  if finishCalled st then st
  else
    let st := set_finishCalled true st in
    let st := callOnOpenOnce st in
    let st :=
      if deployMode then
        match err with
        | None => emit (Log BuildComplete) st
        | Some _ => st
        end
      else st in
    let st := clearTimeout st in
    match err with
    | Some e => reject e st
    | None => resolve st
    end.

Definition onData (data : StreamEvent) (st : State) : State :=
  let st := set_counter (counter st + 1) st in
  if reachesLimit (counter st) then finish None (streamEnd st)
  else if event data =? "build-complete" then
    if deployMode then finish None (streamEnd st) else st
  else
    let st := emit (PrintEvent data) st in
    let r := printEvent opts data in
    let st := Nat.iter (opens r) callOnOpenOnce st in
    set_o (o st + units r) st.

Definition onError (text : string) (st : State) : State :=
  if finishCalled st then st
  else
    let st := set_o (o st + 1) st in
    let st := callOnOpenOnce st in
    emit (Log (StreamErrorMessage text)) st.

(** What the poll request of one timer callback comes back with: the
    request fails, or a response arrives whose body parses to a [state] or
    fails to parse. *)
Inductive poll_body : Type :=
| JsonRaises (text : string)
| Json (state : string).

Inductive poll_outcome : Type :=
| PollRaises (text : string)
| PollResponse (status : nat) (body : poll_body).

Definition pollOk (status : nat) : bool :=
  (200 <=? status)%nat && (status <? 300)%nat.

(** The error the [try] block of the timer callback throws, if any. *)
Definition pollError (r : poll_outcome) : option error :=
  match r with
  | PollRaises text => Some (Raised text)
  | PollResponse status body =>
      if pollOk status then
        match body with
        | JsonRaises text => Some (Raised text)
        | Json _ => None
        end
      else Some (PollStatus status)
  end.

Definition pollReady (r : poll_outcome) : bool :=
  match r with
  | PollResponse _ (Json state) => state =? "READY"
  | _ => false
  end.

(** The timer callback after its [await]s. *)
Definition onPolled (r : poll_outcome) (st : State) : State :=
  match pollError r with
  | Some e => finish (Some e) (streamEnd st)
  | None =>
      if pollReady r then finish None (streamEnd st)
      else startPoller st
  end.

(** What reaches one attempt from outside. *)
Inductive signal : Type :=
| StreamData (data : StreamEvent)
| StreamEnded
| StreamFailed (text : string)
| TimerFired
| Polled (r : poll_outcome).

Definition step (s : signal) (st : State) : State :=
  match s with
  | StreamData data => onData data st
  | StreamEnded => finish None st
  | StreamFailed text => onError text st
  | TimerFired =>
      if poller st
      then emit FetchPoll (set_polling (polling st + 1) (set_poller false st))
      else st
  | Polled r =>
      match polling st with
      | O => st
      | S n => onPolled r (set_polling n st)
      end
  end.

(** All signals handled in order, whatever the promise's state. *)
Definition runSignals (sigs : list signal) (st : State) : State :=
  fold_left (fun acc s => step s acc) sigs st.

(** Signals handled up to the moment the attempt's promise settles: that is
    when the retry wrapper takes over.  The handlers stay attached to the
    stream after that; what they do with signals that still arrive is
    [runSignals], and is not part of the trace of [printEvents]. *)
Fixpoint deliver (sigs : list signal) (st : State) : State :=
  match sigs with
  | [] => st
  | s :: rest =>
      match settled st with
      | Some _ => st
      | None => deliver rest (step s st)
      end
  end.

(** One attempt as the environment scripts it: the answer to the events
    request and the signals that follow. *)
Inductive fetch_outcome : Type :=
| FetchRaises (text : string)
| Response (status : nat) (readableError : option string).

Record Attempt : Type := {
  fetched : fetch_outcome;
  signals : list signal
}.

Inductive attempt_result : Type :=
| Returned
| Threw (e : error)
| Bailed (e : error)
| Hanging.

Definition responseOk (status : nat) : bool :=
  (200 <=? status)%nat && (status <? 300)%nat.

(** A fresh promise executor: its locals start over. *)
Definition newExecutor (st : State) : State :=
  set_settled None (set_polling 0 (set_poller false
    (set_finishCalled false st))).

(** The async function given to [retry]. *)
Definition attempt (attemptNumber : nat) (a : Attempt) (st : State)
  : State * attempt_result :=
  let st := if (1 <? attemptNumber)%nat
            then emit (Debug "Retrying events") st else st in
  let st := emit FetchEvents st in
  match fetched a with
  | FetchRaises text => (st, Threw (Raised text))
  | Response status readableError =>
      if responseOk status then
        match readableError with
        | Some text => (st, Threw (Raised text))
        | None =>
            let st := newExecutor st in
            let st := if deployMode then startPoller st else st in
            let st := deliver (signals a) st in
            (st, match settled st with
                 | None => Hanging
                 | Some Fulfilled => Returned
                 | Some (RejectedWith e) => Threw e
                 end)
        end
      else
        let st := callOnOpenOnce st in
        let err := EventsStatus status in
        if (status <? 500)%nat then (emit (Bail err) st, Bailed err)
        else (st, Threw err)
  end.

Definition onRetry (err : error) (st : State) : State :=
  let st :=
    if negb (quiet opts) && negb (o st =? 0)%nat
    then set_o 0 (emit (EraseLines (o st + 1)) st)
    else st in
  emit (Log (PollingErrorMessage err)) st.

Definition retries : nat := 4.

Inductive outcome : Type :=
| Resolved
| Failed (e : error)
| Pending.

(** Modelled from the spec: the retry wrapper ([async-retry]) is a package
    outside the repository.  It runs the function; a normal return resolves
    the call; [bail] rejects it at once and nothing is retried; a throw is
    retried after [onRetry] while retries are left, and once they are used
    up the last error rejects the call.  Delays between attempts are not
    modelled.  [Pending] is a call whose script ended before it settled. *)
Fixpoint retry (retriesLeft attemptNumber : nat) (script : list Attempt)
  (st : State) {struct script} : State * outcome :=
  match script with
  | [] => (st, Pending)
  | a :: rest =>
      match attempt attemptNumber a st with
      | (st', Returned) => (st', Resolved)
      | (st', Bailed e) => (st', Failed e)
      | (st', Hanging) => (st', Pending)
      | (st', Threw e) =>
          match retriesLeft with
          | O => (st', Failed e)
          | S n => retry n (S attemptNumber) rest (onRetry e st')
          end
      end
  end.

Definition printEvents (script : list Attempt) : State * outcome :=
  retry retries 1 script initial.

(** The state of an attempt once its events request is out. *)
Definition requested (attemptNumber : nat) (st : State) : State :=
  emit FetchEvents
    (if (1 <? attemptNumber)%nat then emit (Debug "Retrying events") st
     else st).

(** The state in which the signals of an attempt with an ok response are
    handled. *)
Definition listening (attemptNumber : nat) (st : State) : State :=
  let st := newExecutor (requested attemptNumber st) in
  if deployMode then startPoller st else st.

(** An attempt answered with a status of 500 or more. *)
Definition serverError (a : Attempt) : bool :=
  match fetched a with
  | Response status _ => (500 <=? status)%nat
  | FetchRaises _ => false
  end.

Definition statusOf (a : Attempt) : nat :=
  match fetched a with
  | Response status _ => status
  | FetchRaises _ => 0
  end.

End Consumer.

(** Observations on a trace. *)
Definition isOnOpen (e : effect) : bool :=
  match e with OnOpen => true | _ => false end.

Definition isSettle (e : effect) : bool :=
  match e with Resolve | Reject _ => true | _ => false end.

Definition isStreamEnd (e : effect) : bool :=
  match e with StreamEnd => true | _ => false end.

Definition isFetchPoll (e : effect) : bool :=
  match e with FetchPoll => true | _ => false end.

Definition isClearTimeout (e : effect) : bool :=
  match e with ClearTimeout => true | _ => false end.

Definition isFetchEvents (e : effect) : bool :=
  match e with FetchEvents => true | _ => false end.

Definition count (p : effect -> bool) (t : list effect) : nat :=
  length (filter p t).

(** The records handed to [printEvent], in order. *)
Fixpoint forwarded (t : list effect) : list StreamEvent :=
  match t with
  | [] => []
  | PrintEvent data :: r => data :: forwarded r
  | _ :: r => forwarded r
  end.

(** The arguments of [eraseLines], in order. *)
Fixpoint erased (t : list effect) : list nat :=
  match t with
  | [] => []
  | EraseLines n :: r => n :: erased r
  | _ :: r => erased r
  end.

End PrintEvents.

(** ** Hashing the files of a deployment *)

Module Hashes.

Record DeploymentFile : Type := {
  names : list string;
  data : string;
  mode : nat
}.

(** [Map<string, DeploymentFile>]: the entries in insertion order. *)
Definition FileMap : Type := list (string * DeploymentFile).

(** [map.get(key)]. *)
Fixpoint get (key : string) (map : FileMap) : option DeploymentFile :=
  match map with
  | [] => None
  | (k, v) :: r => if k =? key then Some v else get key r
  end.

(** [map.set(key, value)]: a key that is present keeps its place, a new key
    goes to the end.  Assigning to a field of an entry got from the map is
    a [set] at its key. *)
Fixpoint set (key : string) (value : DeploymentFile) (map : FileMap)
  : FileMap :=
  match map with
  | [] => [(key, value)]
  | (k, v) :: r =>
      if k =? key then (k, value) :: r else (k, v) :: set key value r
  end.

(** [set.add(name)] on the elements of a [Set], in insertion order. *)
Definition addName (name : string) (elements : list string) : list string :=
  if existsb (String.eqb name) elements then elements
  else elements ++ [name].

(** [[...new Set(names)]]. *)
Definition setOf (l : list string) : list string :=
  fold_left (fun elements name => addName name elements) l [].

Section Hashes.

(** [createHash('sha1').update(buf).digest('hex')]. *)
Variable hash : string -> string.
(** [fs.readFile(name)] and the [mode] of [fs.stat(name)]. *)
Variable readFile : string -> result string.
Variable stat : string -> result nat.

(** The order in which the callbacks of [files.map] settle: all of them
    are started under [Promise.all], and the file system and the event loop
    decide which gets past its reads first.  The answer is some arrangement
    of the files given; a callback still waiting for the semaphore when
    the call is rejected comes behind the one that rejected it. *)
Variable schedule : list string -> list string.

(** The callback of [files.map], run for one file.  Between its last
    [await] and its end nothing else runs, so the callbacks take effect one
    after the other. *)
Definition hashFile (map : FileMap) (name : string) : result FileMap :=
  content <- readFile name ;;
  fileMode <- stat name ;;
  let h := hash content in
  match get h map with
  | Some entry =>
      Ok (set h {| names := addName name (setOf (names entry));
                   data := data entry;
                   mode := mode entry |} map)
  | None =>
      Ok (set h {| names := [name]; data := content; mode := fileMode |} map)
  end.

(** [Promise.all] over callbacks that settle in the order [settling]: the
    first one that rejects rejects the whole, and when none does the map
    has been updated by each in turn. *)
Fixpoint settleAll (settling : list string) (map : FileMap)
  : result FileMap :=
  match settling with
  | [] => Ok map
  | name :: rest =>
      map' <- hashFile map name ;;
      settleAll rest map'
  end.

(** [hashes(files, map)].  The semaphore bounds how many callbacks are under
    way (it rules some orders out, it adds none) and is not modelled.  The
    result is the map when every callback succeeds and the rejection that
    comes first otherwise; what the callbacks still running then do to the
    caller's map is not modelled. *)
Definition hashes (files : list string) (map : FileMap) : result FileMap :=
  settleAll (schedule files) map.

End Hashes.

End Hashes.

(** ** Loading the user's function *)

Module Serverless.

(** What [import(id)] yields, as far as [compileUserCode] looks at it: a
    value and what its [default] property holds, [None] when the property
    is missing or falsy. *)
Inductive exported : Type :=
| Plain (label : string)
| WithDefault (label : string) (default : exported).

Definition defaultOf (fn : exported) : option exported :=
  match fn with
  | Plain _ => None
  | WithDefault _ inner => Some inner
  end.

(** One turn of the loop: [if (fn.default) fn = fn.default]. *)
Definition unwrapDefault (fn : exported) : exported :=
  match defaultOf fn with
  | Some inner => inner
  | None => fn
  end.

Section Compile.

(** Node's [path.isAbsolute] and [url.pathToFileURL(p).href], and the
    dynamic [import]. *)
Variable isAbsolute : string -> bool.
Variable pathToFileURL : string -> string.
Variable import : string -> result exported.

Definition compileUserCode (entrypointPath : string) : result exported :=
  let id := if isAbsolute entrypointPath
            then pathToFileURL entrypointPath
            else entrypointPath in
  fn <- import id ;;
  Ok (Nat.iter 5 unwrapDefault fn).

End Compile.

(** How many [default]s are nested in a value. *)
Fixpoint nesting (fn : exported) : nat :=
  match fn with
  | Plain _ => 0
  | WithDefault _ inner => S (nesting inner)
  end.

(** The value at the bottom of the [default] chain. *)
Fixpoint innermost (fn : exported) : exported :=
  match fn with
  | Plain _ => fn
  | WithDefault _ inner => innermost inner
  end.

End Serverless.

(** ** The [integration add] command *)

Module IntegrationAdd.

Record IntegrationProduct : Type := {
  product_id : string;
  product_slug : string;
  product_name : string;
  shortDescription : string;
  product_type : string
}.

Record Integration : Type := {
  integration_id : string;
  integration_slug : string;
  integration_name : string;
  products : option (list IntegrationProduct)
}.

(** The result of [getLinkedProject], as far as the command reads it. *)
Inductive LinkedProject : Type :=
| NotLinked
| LinkError (exitCode : nat)
| Linked (projectId : string).

(** What [getOptionalLinkedProject] returns: [undefined], the error, or
    the project. *)
Inductive ProjectLink : Type :=
| NoLink
| LinkFailed (exitCode : nat)
| LinkTo (projectId : string).

Inductive message : Type :=
| TooManyIntegrations
| TeamNotFound
| FetchFailed (text : string)
| NoProducts (integrationName : string).

(** Everything the command does to the outside, in order. *)
Inductive effect : Type :=
| OutputError (m : message)
| GetTeam (teamId : string)
| FetchIntegration (slug : option string) (teamSlug : string)
| Select (choices : list IntegrationProduct)
| GetLinkedProject
| Confirm
| Print
| Open (searchParams : list (string * string)).

(** The client: configuration, API and prompts. *)
Record Client : Type := {
  currentTeam : option string;
  getTeamById : string -> result string;
  fetchIntegrationApi : option string -> string -> result Integration;
  inputSelect : list IntegrationProduct -> IntegrationProduct;
  getLinkedProject : result LinkedProject;
  inputConfirm : bool
}.

Definition errorText (e : exn) : string :=
  match e with
  | TypeError t | Error t | SystemError t => t
  end.

(** [fetchIntegration]: the request, with a failure printed and turned
    into [undefined]. *)
Definition fetchIntegration (client : Client) (teamSlug : string)
  (slug : option string) : list effect * option Integration :=
  match fetchIntegrationApi client slug teamSlug with
  | Ok integration => ([FetchIntegration slug teamSlug], Some integration)
  | Throw e =>
      ([FetchIntegration slug teamSlug; OutputError (FetchFailed (errorText e))],
       None)
  end.

Definition selectProduct (client : Client) (integration : Integration)
  : list effect * option IntegrationProduct :=
  match products integration with
  | None | Some [] => ([], None)
  | Some [only] => ([], Some only)
  | Some choices => ([Select choices], Some (inputSelect client choices))
  end.

Definition getOptionalLinkedProject (client : Client)
  : list effect * result ProjectLink :=
  match getLinkedProject client with
  | Throw e => ([GetLinkedProject], Throw e)
  | Ok NotLinked => ([GetLinkedProject], Ok NoLink)
  | Ok linked =>
      if negb (inputConfirm client) then ([GetLinkedProject; Confirm], Ok NoLink)
      else
        ([GetLinkedProject; Confirm],
         Ok match linked with
            | LinkError exitCode => LinkFailed exitCode
            | Linked projectId => LinkTo projectId
            | NotLinked => NoLink
            end)
  end.

(** [privisionResourceViaWebUI]: the search parameters in the order they
    are set, the notice, the browser. *)
Definition privisionResourceViaWebUI (teamId integrationId productId : string)
  (projectId : option string) : list effect :=
  let params :=
    [("teamId", teamId); ("integrationId", integrationId);
     ("productId", productId)]
    ++ match projectId with
       | Some id => if id =? "" then [] else [("projectId", id)]
       | None => []
       end
    ++ [("cmd", "add")] in
  [Print; Open params].

(** [add]: the effects, and the exit code returned ([None] for a return
    without a value) or the exception thrown. *)
Definition add (client : Client) (args : list string)
  : list effect * result (option nat) :=
  if (1 <? length args)%nat
  then ([OutputError TooManyIntegrations], Ok (Some 1))
  else
    let integrationSlug := nth_error args 0 in
    match currentTeam client with
    | None => ([OutputError TeamNotFound], Ok (Some 1))
    | Some teamId =>
        if teamId =? "" then ([OutputError TeamNotFound], Ok (Some 1))
        else
          match getTeamById client teamId with
          | Throw e => ([GetTeam teamId], Throw e)
          | Ok teamSlug =>
              let '(eff1, integration) :=
                fetchIntegration client teamSlug integrationSlug in
              match integration with
              | None => (GetTeam teamId :: eff1, Ok (Some 1))
              | Some integration =>
                  let '(eff2, product) := selectProduct client integration in
                  match product with
                  | None =>
                      (GetTeam teamId :: eff1 ++ eff2
                       ++ [OutputError
                             (NoProducts (integration_name integration))],
                       Ok (Some 1))
                  | Some product =>
                      let '(eff3, projectLink) :=
                        getOptionalLinkedProject client in
                      let before := GetTeam teamId :: eff1 ++ eff2 ++ eff3 in
                      match projectLink with
                      | Throw e => (before, Throw e)
                      | Ok (LinkFailed exitCode) =>
                          (before, Ok (Some exitCode))
                      | Ok link =>
                          (before
                           ++ privisionResourceViaWebUI teamId
                                (integration_id integration)
                                (product_id product)
                                match link with
                                | LinkTo id => Some id
                                | _ => None
                                end,
                           Ok None)
                      end
                  end
              end
          end
    end.

Definition isOpen (e : effect) : bool :=
  match e with Open _ => true | _ => false end.

End IntegrationAdd.

(** ** Concrete inputs *)

Module Samples.

Import RepoLink.

Definition rootProject : RepoProjectConfig :=
  {| id := "prj_root"; name := "site"; directory := "." |}.

Definition appsProject : RepoProjectConfig :=
  {| id := "prj_apps"; name := "apps"; directory := "apps" |}.

Definition webProject : RepoProjectConfig :=
  {| id := "prj_web"; name := "web"; directory := "apps/web" |}.

Definition webAdminProject : RepoProjectConfig :=
  {| id := "prj_admin"; name := "web-admin"; directory := "apps/web-admin" |}.

(** The tree of the resolver's example: a Git checkout at
    [/home/u/proj], home at [/home/u], no manifest anywhere. *)
Definition sampleHome : string := "/home/u".

Definition sampleLstat (p : string) : lstat_outcome :=
  if p =? "/home/u/proj/.git/config" then Stats else Enoent.

(** A home directory that is itself a Git checkout. *)
Definition dotfilesLstat (p : string) : lstat_outcome :=
  if p =? "/home/u/.git/config" then Stats else Enoent.

Definition sampleFindRepoRoot (lstat : string -> lstat_outcome)
  : nat -> string -> option (list string * result (option string)) :=
  findRepoRoot Posix.normalize Posix.join sampleHome ".vercel" "repo.json"
    lstat.

(** A first-time link: the API knows two projects for the remote, a
    third directory is detected locally; the user unchecks the second
    existing project and checks the new one. *)
Definition siteProject : Project :=
  {| p_id := "prj_a"; p_name := "site"; rootDirectory := None |}.

Definition docsProject : Project :=
  {| p_id := "prj_b"; p_name := "docs"; rootDirectory := Some "docs" |}.

Definition createdProject (newName : string) : Project :=
  {| p_id := "prj_new"; p_name := newName; rootDirectory := None |}.

Definition sampleEnv : LinkEnv := {|
  detectProjects := fun _ => Ok [("apps/web", "nextjs")];
  confirm := fun _ => Ok true;
  selectOrg := fun _ =>
    Ok {| org_id := "team_1"; org_slug := "acme"; org_type := "team" |};
  getRemoteUrls := fun _ =>
    Ok (Some [("origin", "https://github.com/u/proj.git")]);
  promptRemote := fun _ _ => Ok "origin";
  fetchPaginated := fun _ => Ok [[siteProject]; [docsProject]];
  promptSelected := fun choices =>
    Ok (filter (fun choice =>
                  match choice with
                  | Existing project => p_id project =? "prj_a"
                  | NewProject _ _ _ => true
                  end)
               choices);
  createProject := fun newName => Ok (createdProject newName);
  outputJSON := fun _ _ => Ok tt;
  writeReadme := fun _ => Ok tt;
  addToGitIgnore := fun _ => Ok true
|}.

(** The same link on a checkout where the note file cannot be written. *)
Definition readOnlyNoteEnv : LinkEnv := {|
  detectProjects := detectProjects sampleEnv;
  confirm := confirm sampleEnv;
  selectOrg := selectOrg sampleEnv;
  getRemoteUrls := getRemoteUrls sampleEnv;
  promptRemote := promptRemote sampleEnv;
  fetchPaginated := fetchPaginated sampleEnv;
  promptSelected := promptSelected sampleEnv;
  createProject := createProject sampleEnv;
  outputJSON := outputJSON sampleEnv;
  writeReadme := fun _ => Throw (SystemError "EACCES");
  addToGitIgnore := addToGitIgnore sampleEnv
|}.

Definition sampleEnsureRepoLink (env : LinkEnv)
  : nat -> string -> EnsureRepoLinkOptions ->
    option (list link_effect * result (option RepoLink)) :=
  ensureRepoLink Posix.normalize Posix.join Posix.basename sampleHome
    ".vercel" "repo.json" sampleLstat (fun _ => ReadEnoent) env.

(** The manifest the sample link writes. *)
Definition writtenConfig : RepoProjectsConfig := {|
  orgId := "team_1";
  remoteName := "origin";
  projects := [
    {| id := "prj_a"; name := "site"; directory := "." |};
    {| id := "prj_b"; name := "docs"; directory := "docs" |}
  ]
|}.


Definition linkedLstat (p : string) : lstat_outcome :=
  if (p =? "/home/u/proj/.vercel/repo.json") || (p =? "/home/u/proj/.git/config")
  then Stats else Enoent.

Definition linkedReadJSON (p : string) : read_outcome :=
  if p =? "/home/u/proj/.vercel/repo.json" then Parsed writtenConfig
  else ReadEnoent.

(** Consumer inputs. *)
Import PrintEvents.

(** A record other than the completion marker. *)
Definition normal (data : StreamEvent) : Prop :=
  (event data =? "build-complete") = false.

Definition line (text : string) : StreamEvent :=
  {| event := "stdout"; payload := text |}.

Definition buildComplete : StreamEvent :=
  {| event := "build-complete"; payload := "" |}.

(** A [printEvent] that prints one line per record and reports the stream
    open. *)
Definition printLine (_ : StreamEvent) : PrintResult :=
  {| units := 1; opens := 1 |}.

Definition logsOptions (n : option nat) : Options :=
  {| mode := "logs"; printEvent := printLine; quiet := false;
     findOpts_limit := n |}.

Definition deployOptions : Options :=
  {| mode := "deploy"; printEvent := printLine; quiet := false;
     findOpts_limit := None |}.

Definition quietOptions : Options :=
  {| mode := "logs"; printEvent := printLine; quiet := true;
     findOpts_limit := None |}.

Definition fiveLines : list StreamEvent :=
  [line "1"; line "2"; line "3"; line "4"; line "5"].

Definition okAttempt (sigs : list signal) : Attempt :=
  {| fetched := Response 200 None; signals := sigs |}.

Definition statusAttempt (status : nat) : Attempt :=
  {| fetched := Response status None; signals := [] |}.

(** Three files, two of them with the same content. *)
Definition sampleDigest (content : string) : string :=
  ("sha1:" ++ content)%string.

Definition sampleRead (name : string) : result string :=
  if name =? "a.txt" then Ok "hello"
  else if name =? "b.txt" then Ok "hello"
  else if name =? "c.txt" then Ok "bye"
  else Throw (SystemError "ENOENT").

Definition sampleStat (name : string) : result nat :=
  if name =? "c.txt" then Ok 493 else Ok 420.

(** Callbacks that settle in the order of the list, and in the reverse
    order. *)
Definition inOrder (files : list string) : list string := files.

Definition lastFirst (files : list string) : list string := rev files.

Definition sampleHashes : list string -> Hashes.FileMap ->
                          result Hashes.FileMap :=
  Hashes.hashes sampleDigest sampleRead sampleStat inOrder.

(** The same files with a directory among them. *)
Definition mixedRead (name : string) : result string :=
  if name =? "d.dir" then Throw (SystemError "EISDIR") else sampleRead name.

Definition helloEntry (fileNames : list string) : Hashes.DeploymentFile :=
  {| Hashes.names := fileNames; Hashes.data := "hello"; Hashes.mode := 420 |}.

Definition byeEntry : Hashes.DeploymentFile :=
  {| Hashes.names := ["c.txt"]; Hashes.data := "bye"; Hashes.mode := 493 |}.

(** A compiled TypeScript module: the handler sits two [default]s deep. *)
Definition handler : Serverless.exported := Serverless.Plain "handler".

Definition wrapped (fn : Serverless.exported) : Serverless.exported :=
  Serverless.WithDefault "module" fn.

(** An integration with two products, and a client that picks the first
    product offered and links to the current project. *)
Definition postgres : IntegrationAdd.IntegrationProduct := {|
  IntegrationAdd.product_id := "iap_pg";
  IntegrationAdd.product_slug := "postgres";
  IntegrationAdd.product_name := "Postgres";
  IntegrationAdd.shortDescription := "Serverless Postgres";
  IntegrationAdd.product_type := "storage"
|}.

Definition redis : IntegrationAdd.IntegrationProduct := {|
  IntegrationAdd.product_id := "iap_kv";
  IntegrationAdd.product_slug := "redis";
  IntegrationAdd.product_name := "Redis";
  IntegrationAdd.shortDescription := "Serverless Redis";
  IntegrationAdd.product_type := "storage"
|}.

Definition acme : IntegrationAdd.Integration := {|
  IntegrationAdd.integration_id := "icfg_acme";
  IntegrationAdd.integration_slug := "acme";
  IntegrationAdd.integration_name := "Acme";
  IntegrationAdd.products := Some [postgres; redis]
|}.

Definition sampleClient : IntegrationAdd.Client := {|
  IntegrationAdd.currentTeam := Some "team_1";
  IntegrationAdd.getTeamById := fun _ => Ok "acme-team";
  IntegrationAdd.fetchIntegrationApi := fun _ _ => Ok acme;
  IntegrationAdd.inputSelect := fun choices => hd postgres choices;
  IntegrationAdd.getLinkedProject := Ok (IntegrationAdd.Linked "prj_a");
  IntegrationAdd.inputConfirm := true
|}.

End Samples.

(** * Properties *)

(** ** Facts on the JavaScript helpers *)

Module JsFacts.

Lemma insert_In {A : Type} (cmp : A -> A -> Z) (x y : A) (l : list A) :
  In y (insert cmp x l) <-> y = x \/ In y l.
Proof.
  induction l as [|z l IH]; simpl.
  - intuition congruence.
  - destruct (cmp x z <=? 0)%Z; simpl.
    + intuition congruence.
    + rewrite IH. intuition congruence.
Qed.

Lemma sort_In {A : Type} (cmp : A -> A -> Z) (y : A) (l : list A) :
  In y (sort cmp l) <-> In y l.
Proof.
  induction l as [|x l IH]; simpl.
  - tauto.
  - rewrite insert_In, IH. intuition congruence.
Qed.

(** An element that the predicate rejects leaves no mark in the filtered
    list, wherever it is inserted. *)
Lemma filter_insert_out {A : Type} (cmp : A -> A -> Z) (p : A -> bool)
  (x : A) (l : list A) :
  p x = false -> filter p (insert cmp x l) = filter p l.
Proof.
  intros Hx. induction l as [|z l IH]; simpl.
  - now rewrite Hx.
  - destruct (cmp x z <=? 0)%Z; simpl.
    + now rewrite Hx.
    + now rewrite IH.
Qed.

(** An element that the predicate accepts, and that compares at most equal
    to every other accepted element, stays in front of them: this is the
    stability of the sort. *)
Lemma filter_insert_in {A : Type} (cmp : A -> A -> Z) (p : A -> bool)
  (x : A) (l : list A) :
  p x = true ->
  (forall y, p y = true -> (cmp x y <= 0)%Z) ->
  filter p (insert cmp x l) = x :: filter p l.
Proof.
  intros Hx Hle. induction l as [|z l IH]; simpl.
  - now rewrite Hx.
  - destruct (cmp x z <=? 0)%Z eqn:E; simpl.
    + now rewrite Hx.
    + destruct (p z) eqn:Hz.
      * apply Hle in Hz. apply Z.leb_gt in E. lia.
      * exact IH.
Qed.

Lemma filter_sort_stable {A : Type} (cmp : A -> A -> Z) (p : A -> bool)
  (l : list A) :
  (forall x y, p x = true -> p y = true -> (cmp x y <= 0)%Z) ->
  filter p (sort cmp l) = filter p l.
Proof.
  intros Hle. induction l as [|x l IH]; simpl.
  - reflexivity.
  - destruct (p x) eqn:Hx.
    + rewrite filter_insert_in; auto. now rewrite IH.
    + rewrite filter_insert_out; auto.
Qed.

(** A callback that cannot throw makes [filterM] an ordinary filter. *)
Lemma filterM_pure {A : Type} (f : A -> bool) (l : list A) :
  filterM (fun x => Ok (f x)) l = Ok (filter f l).
Proof.
  induction l as [|x l IH]; simpl.
  - reflexivity.
  - rewrite IH. simpl. reflexivity.
Qed.

Lemma filter_filter {A : Type} (p q : A -> bool) (l : list A) :
  filter p (filter q l) = filter (fun x => q x && p x) l.
Proof.
  induction l as [|x l IH]; simpl.
  - reflexivity.
  - destruct (q x); simpl; [destruct (p x)|]; now rewrite IH.
Qed.

Lemma filter_nil_iff {A : Type} (p : A -> bool) (l : list A) :
  filter p l = [] <-> forall x, In x l -> p x = false.
Proof.
  induction l as [|x l IH]; simpl.
  - split; [intros _ y []|reflexivity].
  - destruct (p x) eqn:Hx.
    + split; [discriminate|].
      intros H. specialize (H x (or_introl eq_refl)). congruence.
    + rewrite IH. split.
      * intros H y [<-|Hy]; auto.
      * intros H y Hy. apply H. now right.
Qed.

(** Segments and separators.  [split] yields one segment more than the
    string has separators. *)
Fixpoint occurrences (sep : ascii) (s : string) : nat :=
  match s with
  | EmptyString => 0
  | String c r => (if Ascii.eqb c sep then 1 else 0) + occurrences sep r
  end.

Lemma split_length (sep : ascii) (s : string) :
  length (split sep s) = S (occurrences sep s).
Proof.
  induction s as [|c r IH]; cbn [split occurrences].
  - reflexivity.
  - destruct (Ascii.eqb c sep); cbn [length].
    + now rewrite IH.
    + destruct (split sep r) as [|h t]; [discriminate|].
      cbn [length] in *. lia.
Qed.

Lemma prefix_cons (c : ascii) (a : string) (s : string) :
  String.prefix (String c a) s = true ->
  exists r, s = String c r /\ String.prefix a r = true.
Proof.
  destruct s as [|b r]; cbn; [discriminate|].
  destruct (Ascii.ascii_dec c b) as [->|]; [|discriminate].
  intros H. now exists r.
Qed.

Lemma prefix_refl (a : string) : String.prefix a a = true.
Proof.
  induction a as [|c a IH]; cbn; [reflexivity|].
  destruct (Ascii.ascii_dec c c); [exact IH|congruence].
Qed.

Lemma prefix_append (a s t : string) :
  String.prefix a s = true -> String.prefix a (s ++ t)%string = true.
Proof.
  revert s. induction a as [|c a IH]; intros s H;
    [now destruct (s ++ t)%string|].
  apply prefix_cons in H. destruct H as (r & -> & H).
  cbn. destruct (Ascii.ascii_dec c c); [now apply IH|congruence].
Qed.

(** Two strings that, each followed by a separator, are prefixes of one
    string, and hold the same number of separators, are the same string. *)
Lemma prefixes_same_occurrences (sep : ascii) (a b s : string) :
  String.prefix (a ++ String sep "")%string s = true ->
  String.prefix (b ++ String sep "")%string s = true ->
  occurrences sep a = occurrences sep b ->
  a = b.
Proof.
  revert b s. induction a as [|c a IH]; intros b s Ha Hb Hn;
    destruct b as [|c' b]; cbn [append] in Ha, Hb;
    apply prefix_cons in Ha, Hb;
    destruct Ha as (r & -> & Ha), Hb as (r' & E & Hb).
  - reflexivity.
  - injection E as <- _. cbn in Hn. rewrite Ascii.eqb_refl in Hn.
    discriminate.
  - injection E as -> _. cbn in Hn. rewrite Ascii.eqb_refl in Hn.
    discriminate.
  - injection E as -> <-. cbn in Hn.
    f_equal. apply (IH b r); auto. lia.
Qed.

End JsFacts.

(** ** Facts on the repo link resolver *)

Module RepoLinkFacts.

Import RepoLink JsFacts.

Section FindProjects.

Variable normalizePath : string -> string.

Lemma sortByDirectory_depth_diff (a b : RepoProjectConfig) :
  sortByDirectory a b = (Z.of_nat (depth b) - Z.of_nat (depth a))%Z.
Proof. reflexivity. Qed.

(** The function written without the possibly-throwing property access:
    the access happens only inside the callback, so only when there is a
    first match. *)
Lemma findProjects_unfold (projects : list RepoProjectConfig) (path : string) :
  findProjectsFromPath normalizePath projects path =
  Ok (match matchesOf normalizePath projects path with
      | [] => []
      | first :: _ =>
          filter (fun m => directory m =? directory first)
                 (matchesOf normalizePath projects path)
      end).
Proof.
  unfold findProjectsFromPath. fold (matchesOf normalizePath projects path).
  destruct (matchesOf normalizePath projects path) as [|first rest] eqn:E.
  - reflexivity.
  - cbn [nth_error getProp bind].
    exact (filterM_pure (fun m => directory m =? directory first)
                        (first :: rest)).
Qed.

Lemma matchesOf_In (projects : list RepoProjectConfig) (path : string)
  (q : RepoProjectConfig) :
  In q (matchesOf normalizePath projects path) <->
  In q projects /\ matchesPath (normalizePath path) q = true.
Proof.
  unfold matchesOf. rewrite filter_In, sort_In. tauto.
Qed.

(** Whether a project matches depends on its directory only. *)
Lemma matchesPath_directory (np : string) (q q' : RepoProjectConfig) :
  directory q = directory q' -> matchesPath np q = matchesPath np q'.
Proof. unfold matchesPath. now intros ->. Qed.

Lemma depth_directory (q q' : RepoProjectConfig) :
  directory q = directory q' -> depth q = depth q'.
Proof. unfold depth. now intros ->. Qed.

Lemma insert_sorted (x : RepoProjectConfig) (l : list RepoProjectConfig) :
  StronglySorted deeperOrEqual l ->
  StronglySorted deeperOrEqual (insert sortByDirectory x l).
Proof.
  induction 1 as [|y l Hl IH Hy]; simpl.
  - constructor; [constructor | constructor].
  - rewrite sortByDirectory_depth_diff.
    destruct (Z.of_nat (depth y) - Z.of_nat (depth x) <=? 0)%Z eqn:E.
    + apply Z.leb_le in E.
      constructor; [constructor; assumption|].
      constructor; [unfold deeperOrEqual; lia|].
      rewrite Forall_forall in Hy |- *. intros z Hz.
      specialize (Hy z Hz). unfold deeperOrEqual in *. lia.
    + apply Z.leb_gt in E.
      constructor; [exact IH|].
      rewrite Forall_forall in Hy |- *. intros z Hz.
      apply insert_In in Hz. destruct Hz as [->|Hz]; auto.
      unfold deeperOrEqual. lia.
Qed.

Lemma sort_sorted (l : list RepoProjectConfig) :
  StronglySorted deeperOrEqual (sort sortByDirectory l).
Proof.
  induction l as [|x l IH]; simpl.
  - constructor.
  - now apply insert_sorted.
Qed.

Lemma filter_sorted (p : RepoProjectConfig -> bool)
  (l : list RepoProjectConfig) :
  StronglySorted deeperOrEqual l ->
  StronglySorted deeperOrEqual (filter p l).
Proof.
  induction 1 as [|y l Hl IH Hy]; simpl.
  - constructor.
  - destruct (p y); [|exact IH].
    constructor; [exact IH|].
    rewrite Forall_forall in Hy |- *. intros z Hz.
    apply filter_In in Hz. now apply Hy.
Qed.

(** The first match is a deepest one. *)
Lemma matchesOf_head_deepest (projects : list RepoProjectConfig)
  (path : string) (first : RepoProjectConfig)
  (rest : list RepoProjectConfig) :
  matchesOf normalizePath projects path = first :: rest ->
  forall q, In q projects -> matchesPath (normalizePath path) q = true ->
            depth q <= depth first.
Proof.
  intros E q Hq Hm.
  assert (Hin : In q (matchesOf normalizePath projects path)) by now apply matchesOf_In.
  assert (Hs : StronglySorted deeperOrEqual (matchesOf normalizePath projects path))
    by (apply filter_sorted, sort_sorted).
  rewrite E in Hin, Hs. inversion Hs as [|? ? _ Hall]; subst.
  destruct Hin as [<-|Hin]; [lia|].
  rewrite Forall_forall in Hall. now apply Hall.
Qed.

(** What the function returns, in terms of the input list: the matching
    projects whose directory is that of the first deepest match, in input
    order. *)
Lemma findProjects_result (projects : list RepoProjectConfig) (path : string) :
  findProjectsFromPath normalizePath projects path =
  Ok (match matchesOf normalizePath projects path with
      | [] => []
      | first :: _ =>
          filter (fun m => matchesPath (normalizePath path) m
                           && (directory m =? directory first))
                 projects
      end).
Proof.
  rewrite findProjects_unfold.
  destruct (matchesOf normalizePath projects path) as [|first rest] eqn:E; [reflexivity|].
  rewrite <- E. unfold matchesOf. rewrite filter_filter.
  rewrite filter_sort_stable; [reflexivity|].
  intros x y Hx Hy.
  apply andb_true_iff in Hx, Hy.
  destruct Hx as [_ Hx], Hy as [_ Hy].
  apply String.eqb_eq in Hx, Hy.
  rewrite sortByDirectory_depth_diff.
  rewrite (depth_directory x y) by congruence. lia.
Qed.

(** *** Ties at the deepest level

    Matches of the same depth have the same directory, except that a root
    project ([.]) has the depth of a one-segment directory.  Where no such
    pair matches, the function returns the matching projects of the
    greatest depth, all of them, in input order. *)

Lemma matchesPath_prefix (np : string) (q : RepoProjectConfig) :
  directory q <> "." -> matchesPath np q = true ->
  String.prefix (directory q ++ "/")%string (np ++ "/")%string = true.
Proof.
  intros Hd. unfold matchesPath, startsWith.
  apply String.eqb_neq in Hd. rewrite Hd.
  intros H. apply orb_true_iff in H. destruct H as [H|H].
  - apply String.eqb_eq in H. subst np. apply prefix_refl.
  - now apply prefix_append.
Qed.

Lemma depth_occurrences (q : RepoProjectConfig) :
  depth q = S (occurrences "/" (directory q)).
Proof. apply split_length. Qed.

Definition noRootTie (projects : list RepoProjectConfig) (np : string)
  : Prop :=
  forall q q',
    In q projects -> In q' projects ->
    matchesPath np q = true -> matchesPath np q' = true ->
    directory q = "." -> depth q' = 1 -> directory q' = ".".

Lemma same_depth_same_directory (projects : list RepoProjectConfig)
  (np : string) (q q' : RepoProjectConfig) :
  noRootTie projects np ->
  In q projects -> In q' projects ->
  matchesPath np q = true -> matchesPath np q' = true ->
  depth q = depth q' -> directory q = directory q'.
Proof.
  intros Htie Hq Hq' Hm Hm' Hd.
  destruct (string_dec (directory q) ".") as [E|E];
    destruct (string_dec (directory q') ".") as [E'|E'].
  - congruence.
  - rewrite (Htie q q'); auto.
    rewrite <- Hd. unfold depth. now rewrite E.
  - rewrite (Htie q' q); auto.
    rewrite Hd. unfold depth. now rewrite E'.
  - apply (prefixes_same_occurrences "/" _ _ (np ++ "/")%string).
    + now apply matchesPath_prefix.
    + now apply matchesPath_prefix.
    + rewrite !depth_occurrences in Hd. lia.
Qed.

(** The greatest depth among the projects that match. *)
Definition deepestMatch (projects : list RepoProjectConfig) (np : string)
  : nat :=
  list_max (map depth (filter (matchesPath np) projects)).

Lemma deepestMatch_head (projects : list RepoProjectConfig) (path : string)
  (first : RepoProjectConfig) (rest : list RepoProjectConfig) :
  matchesOf normalizePath projects path = first :: rest ->
  deepestMatch projects (normalizePath path) = depth first.
Proof.
  intros E. unfold deepestMatch.
  assert (Hin : In first (matchesOf normalizePath projects path))
    by (rewrite E; now left).
  apply matchesOf_In in Hin. destruct Hin as [Hin Hm].
  apply Nat.le_antisymm.
  - apply list_max_le. rewrite Forall_forall. intros n Hn.
    apply in_map_iff in Hn. destruct Hn as (q & <- & Hq).
    apply filter_In in Hq. destruct Hq as [Hq Hmq].
    now apply (matchesOf_head_deepest projects path first rest).
  - assert (H : Forall (fun k => k <= list_max
                          (map depth (filter (matchesPath (normalizePath path))
                                             projects)))
                       (map depth (filter (matchesPath (normalizePath path))
                                          projects)))
      by now apply list_max_le.
    rewrite Forall_forall in H. apply H.
    apply in_map. apply filter_In. auto.
Qed.

Lemma findProjects_deepest_ties (projects : list RepoProjectConfig)
  (path : string) :
  noRootTie projects (normalizePath path) ->
  findProjectsFromPath normalizePath projects path =
  Ok (filter (fun q =>
                matchesPath (normalizePath path) q
                && (depth q =? deepestMatch projects (normalizePath path))%nat)
             projects).
Proof.
  intros Htie. rewrite findProjects_result. f_equal.
  destruct (matchesOf normalizePath projects path) as [|first rest] eqn:E.
  - symmetry. apply filter_nil_iff. intros q Hq.
    destruct (matchesPath (normalizePath path) q) eqn:Hm; [|reflexivity].
    assert (Hin : In q (matchesOf normalizePath projects path))
      by now apply matchesOf_In.
    rewrite E in Hin. destruct Hin.
  - rewrite (deepestMatch_head projects path first rest E).
    assert (Hin : In first (matchesOf normalizePath projects path))
      by (rewrite E; now left).
    apply matchesOf_In in Hin. destruct Hin as [Hin Hmf].
    apply filter_ext_in. intros q Hq.
    destruct (matchesPath (normalizePath path) q) eqn:Hm; [|reflexivity].
    cbn [andb].
    destruct (directory q =? directory first) eqn:Hd.
    + apply String.eqb_eq in Hd. symmetry. apply Nat.eqb_eq.
      now apply depth_directory.
    + symmetry. apply Nat.eqb_neq. intros Hdepth.
      apply String.eqb_neq in Hd. apply Hd.
      now apply (same_depth_same_directory projects (normalizePath path)).
Qed.

(** C10: [findProjectsFromPath] never throws.  For every project list and
    path it returns a list; when no project matches the path the list is
    empty, and so it is for the empty project list: the access to the first
    match's directory sits in the callback of the second filter, which does
    not run on an empty array. *)
Theorem findProjectsFromPath_total (projects : list RepoProjectConfig)
  (path : string) :
  (exists r, findProjectsFromPath normalizePath projects path = Ok r) /\
  ((forall q, In q projects ->
              matchesPath (normalizePath path) q = false) ->
   findProjectsFromPath normalizePath projects path = Ok []) /\
  findProjectsFromPath normalizePath [] path = Ok [].
Proof.
  split; [|split].
  - rewrite findProjects_unfold. eexists. reflexivity.
  - intros Hnone. rewrite findProjects_unfold.
    assert (E : matchesOf normalizePath projects path = []).
    { apply filter_nil_iff. intros q Hq. apply Hnone.
      now apply sort_In in Hq. }
    now rewrite E.
  - reflexivity.
Qed.

End FindProjects.

Section FindRepoRoot.

Variable normalize : string -> string.
Variable join : list string -> string.
Variable home : string.
Variable VERCEL_DIR : string.
Variable VERCEL_DIR_REPO : string.
Variable lstat : string -> lstat_outcome.

Let loop := findRepoRoot_loop normalize join home VERCEL_DIR VERCEL_DIR_REPO
              lstat.
Let manifest := manifestOf join VERCEL_DIR VERCEL_DIR_REPO.
Let gitConfig := gitConfigOf normalize join.
Let passed := passedOver normalize join home VERCEL_DIR VERCEL_DIR_REPO lstat.
Let probes := probesFrom normalize join VERCEL_DIR VERCEL_DIR_REPO.

(** One turn of the loop at a directory that holds no marker and is
    neither home nor the top. *)
Lemma loop_passes (fuel : nat) (c : string) (probed : list string) :
  passed c ->
  loop (S fuel) (Some c) probed =
  loop fuel (Some (parentOf join c)) (probed ++ [manifest c; gitConfig c]).
Proof.
  intros (Hne & Hhome & Hm & Hg & Htop).
  unfold loop. cbn [findRepoRoot_loop traverseUpDirectories_next].
  apply String.eqb_neq in Hne, Hhome, Htop.
  unfold parentOf in Htop. rewrite Hne, Htop, Hhome.
  unfold manifestOf in Hm. unfold gitConfigOf in Hg. rewrite Hm, Hg.
  reflexivity.
Qed.

Lemma loop_climbs (k fuel : nat) (c : string) (probed : list string) :
  (forall i, i < k -> passed (ancestorFrom join i c)) ->
  loop (k + fuel) (Some c) probed =
  loop fuel (Some (ancestorFrom join k c)) (probed ++ probes k c).
Proof.
  revert c probed. induction k as [|k IH]; intros c probed Hall.
  - simpl. now rewrite app_nil_r.
  - cbn [Nat.add]. rewrite loop_passes by exact (Hall 0 (Nat.lt_0_succ k)).
    rewrite IH.
    + cbn [ancestorFrom]. unfold probes. cbn [probesFrom].
      now rewrite <- app_assoc.
    + intros i Hi. apply (Hall (S i)). lia.
Qed.

(** The walk where it goes as intended.  Walking up from [start], let the
    first [k] paths hold no marker (and be neither the string [home] nor
    the top), and let [d] be the next one.  With fuel for [k + 2] turns
    [findRepoRoot] ends, and: if [d] is the string [home] the answer is
    "not found" and no marker of [d] is looked at; otherwise if the
    manifest exists at [d] the answer is [d], found by the manifest probe
    alone; otherwise if the Git config exists at [d] the answer is [d],
    after the manifest probe; otherwise, if [d] is the top (its parent is
    itself), the answer is "not found".  Whether the walk gets to the
    string [home], or to a top, is a matter of how [start] is spelled. *)
Theorem findRepoRoot_first_ancestor (start : string) (k fuel : nat) :
  S k < fuel ->
  (forall i, i < k -> passed (ancestor normalize join i start)) ->
  ancestor normalize join k start <> "" ->
  let d := ancestor normalize join k start in
  let below := probesBelow normalize join VERCEL_DIR VERCEL_DIR_REPO k start in
  let run := findRepoRoot normalize join home VERCEL_DIR VERCEL_DIR_REPO
               lstat fuel start in
  (d = home -> run = Some (below, Ok None)) /\
  (d <> home -> lstat (manifest d) = Stats ->
   run = Some (below ++ [manifest d], Ok (Some d))) /\
  (d <> home -> lstat (manifest d) = Enoent -> lstat (gitConfig d) = Stats ->
   run = Some (below ++ [manifest d; gitConfig d], Ok (Some d))) /\
  (d <> home -> lstat (manifest d) = Enoent -> lstat (gitConfig d) = Enoent ->
   parentOf join d = d ->
   run = Some (below ++ [manifest d; gitConfig d], Ok None)).
Proof.
  intros Hfuel Hall Hne d below run.
  assert (Hrun : run = loop (fuel - k) (Some d) below).
  { unfold run, findRepoRoot, traverseUpDirectories_init.
    replace fuel with (k + (fuel - k)) at 1 by lia.
    fold loop. rewrite (loop_climbs k (fuel - k) (normalize start) []).
    - reflexivity.
    - exact Hall. }
  destruct (fuel - k) as [|n] eqn:En; [lia|].
  rewrite Hrun. unfold loop.
  cbn [findRepoRoot_loop traverseUpDirectories_next].
  apply String.eqb_neq in Hne. fold d in Hne. rewrite Hne.
  fold (manifestOf join VERCEL_DIR VERCEL_DIR_REPO d).
  fold (gitConfigOf normalize join d). fold manifest gitConfig.
  repeat split.
  - intros ->. now rewrite String.eqb_refl.
  - intros Hh Hm. apply String.eqb_neq in Hh. now rewrite Hh, Hm.
  - intros Hh Hm Hg. apply String.eqb_neq in Hh. now rewrite Hh, Hm, Hg.
  - intros Hh Hm Hg Htop. apply String.eqb_neq in Hh. rewrite Hh, Hm, Hg.
    unfold parentOf in Htop. rewrite Htop, String.eqb_refl.
    destruct n; [lia|reflexivity].
Qed.

(** The path returned is never the string [home], whatever the file
    system holds.  The comparison is one of strings: another spelling of
    the home directory is not covered. *)
Lemma findRepoRoot_never_home (fuel : nat) (start : string)
  (probed : list string) (d : string) :
  findRepoRoot normalize join home VERCEL_DIR VERCEL_DIR_REPO lstat fuel start
  = Some (probed, Ok (Some d)) ->
  d <> home.
Proof.
  unfold findRepoRoot. generalize (traverseUpDirectories_init normalize start).
  generalize (@nil string). fold loop.
  induction fuel as [|fuel IH]; intros acc gen; [discriminate|].
  unfold loop. cbn [findRepoRoot_loop]. fold loop.
  destruct (traverseUpDirectories_next join gen) as [[current gen']|];
    [|discriminate].
  destruct (current =? home) eqn:Hh; [discriminate|].
  apply String.eqb_neq in Hh.
  destruct (lstat (join [current; _])); try discriminate.
  - intros E. injection E as _ <-. exact Hh.
  - destruct (lstat (join [current; _])); try discriminate.
    + intros E. injection E as _ <-. exact Hh.
    + apply IH.
Qed.

(** A turn of the loop at a path that is not its own parent does not
    answer "not found" by itself, unless the path is empty or the string
    [home]: such an answer comes from the walk above. *)
Lemma loop_not_found_above (fuel : nat) (c : string)
  (probed asked : list string) :
  parentOf join c <> c ->
  loop (S fuel) (Some c) probed = Some (asked, Ok None) ->
  c = "" \/ c = home \/
  exists probed',
    loop fuel (Some (parentOf join c)) probed' = Some (asked, Ok None).
Proof.
  intros Htop. unfold loop.
  cbn [findRepoRoot_loop traverseUpDirectories_next].
  destruct (c =? "") eqn:Hne; [apply String.eqb_eq in Hne; auto|].
  destruct (c =? home) eqn:Hh; [apply String.eqb_eq in Hh; auto|].
  apply String.eqb_neq in Htop. unfold parentOf in Htop. rewrite Htop.
  destruct (lstat (join [c; _])); try discriminate.
  destruct (lstat (join [c; _])); try discriminate.
  intros H. right. right. eexists. exact H.
Qed.

End FindRepoRoot.

Import Samples.

Lemma findRepoRoot_first_ancestor_witness :
  sampleFindRepoRoot sampleLstat 10 "/home/u/proj/sub/sub2" =
  Some (["/home/u/proj/sub/sub2/.vercel/repo.json";
         "/home/u/proj/sub/sub2/.git/config";
         "/home/u/proj/sub/.vercel/repo.json";
         "/home/u/proj/sub/.git/config";
         "/home/u/proj/.vercel/repo.json";
         "/home/u/proj/.git/config"],
        Ok (Some "/home/u/proj")).
Proof.
  destruct (findRepoRoot_first_ancestor Posix.normalize Posix.join sampleHome
              ".vercel" "repo.json" sampleLstat "/home/u/proj/sub/sub2" 2 10)
    as (_ & _ & H & _).
  - lia.
  - intros i Hi.
    destruct i as [|[|i]]; [| |lia];
      (repeat split; try reflexivity;
       intro E; vm_compute in E; discriminate E).
  - intro E; vm_compute in E; discriminate E.
  - apply H; [intro E; vm_compute in E; discriminate E| |]; reflexivity.
Defined.

(** Started at the string [home] or at a directory below it, a home
    directory that is a Git checkout is not returned, and its markers are
    not even looked at. *)
Example findRepoRoot_at_home :
  sampleFindRepoRoot dotfilesLstat 10 "/home/u" = Some ([], Ok None)
  /\ sampleFindRepoRoot dotfilesLstat 10 "/home/u/notes" =
     Some (["/home/u/notes/.vercel/repo.json"; "/home/u/notes/.git/config"],
           Ok None).
Proof. split; reflexivity. Qed.

(** *** The walk above a relative start

    [path.join(current, '..')] of a relative path climbs to [.], then to
    [..], [../..] and so on: every step is a new string. *)

Fixpoint ups (n : nat) : string :=
  match n with
  | O => ".."
  | S n' => ("../" ++ ups n')%string
  end.

Lemma ups_append (n : nat) : (ups n ++ "/..")%string = ups (S n).
Proof.
  induction n as [|n IH]; [reflexivity|].
  change (ups (S n)) with ("../" ++ ups n)%string at 1.
  cbn [append]. rewrite IH. reflexivity.
Qed.

Lemma split_ups (n : nat) : split "/" (ups n) = repeat ".." (S n).
Proof.
  induction n as [|n IH]; [reflexivity|].
  change (ups (S n)) with (String "." (String "." (String "/" (ups n)))).
  cbn [split]. rewrite IH. reflexivity.
Qed.

Lemma resolve_ups (k : nat) (acc : list string) :
  (acc = [] \/ exists r, acc = ".." :: r) ->
  Posix.resolveSegments true (repeat ".." k) acc = rev acc ++ repeat ".." k.
Proof.
  revert acc. induction k as [|k IH]; intros acc H; cbn [repeat].
  - cbn. now rewrite app_nil_r.
  - cbn [Posix.resolveSegments]. cbn [String.eqb Ascii.eqb Bool.eqb orb].
    destruct H as [->|(r & ->)].
    + rewrite IH by (right; eauto). reflexivity.
    + cbn [String.eqb Ascii.eqb Bool.eqb]. rewrite IH by (right; eauto).
      cbn [rev]. now rewrite <- app_assoc.
Qed.

Lemma joinWith_ups (n : nat) : Posix.joinWith "/" (repeat ".." (S n)) = ups n.
Proof.
  induction n as [|n IH]; [reflexivity|].
  change (repeat ".." (S (S n))) with (".." :: repeat ".." (S n)).
  cbn [Posix.joinWith]. cbn [repeat] in *. rewrite IH. reflexivity.
Qed.

Lemma lastChar_ups (n : nat) : lastChar (ups n) = Some "."%char.
Proof.
  induction n as [|n IH]; [reflexivity|].
  change (ups (S n)) with (String "." (String "." (String "/" (ups n)))).
  cbn [lastChar]. destruct (ups n) eqn:E; [discriminate IH|exact IH].
Qed.

Lemma ups_first (n : nat) : exists r, ups n = String "." r.
Proof. destruct n; eexists; reflexivity. Qed.

Lemma normalize_ups (n : nat) : Posix.normalize (ups n) = ups n.
Proof.
  unfold Posix.normalize, Posix.isAbsolute, startsWith. cbv zeta.
  assert (Hne : (ups n =? "") = false)
    by (destruct (ups_first n) as (r & ->); reflexivity).
  assert (Habs : String.prefix "/" (ups n) = false)
    by (destruct (ups_first n) as (r & ->); reflexivity).
  rewrite Hne, Habs, lastChar_ups, split_ups. cbn [negb].
  rewrite (resolve_ups (S n) []) by now left.
  cbn [rev app]. rewrite joinWith_ups, Hne.
  cbn [andb negb]. rewrite Hne. reflexivity.
Qed.

Lemma join_ups (n : nat) : Posix.join [ups n; ".."] = ups (S n).
Proof.
  unfold Posix.join. cbn [filter].
  destruct (ups_first n) as (r & E).
  replace (ups n =? "") with false by (rewrite E; reflexivity).
  cbn [negb String.eqb]. cbn [Posix.joinWith].
  rewrite ups_append. apply normalize_ups.
Qed.

Lemma ups_length (n : nat) : String.length (ups n) = 2 + 3 * n.
Proof. induction n as [|n IH]; [reflexivity|]. cbn in *. lia. Qed.

Lemma ups_grows (n : nat) : ups (S n) <> ups n.
Proof.
  intros E. apply (f_equal String.length) in E.
  rewrite !ups_length in E. lia.
Qed.

(** From [..] upwards the loop never answers "not found", whatever the
    file system holds and however long it runs. *)
Lemma relative_walk_goes_on (lstat : string -> lstat_outcome) (fuel n : nat)
  (probed probes : list string) :
  findRepoRoot_loop Posix.normalize Posix.join sampleHome ".vercel"
    "repo.json" lstat fuel (Some (ups n)) probed
  <> Some (probes, Ok None).
Proof.
  revert n probed. induction fuel as [|fuel IH]; intros n probed;
    [discriminate|].
  intros H. apply loop_not_found_above in H.
  - destruct (ups_first n) as (r & E).
    destruct H as [H|[H|(probed' & H)]].
    + rewrite E in H. discriminate H.
    + rewrite E in H. discriminate H.
    + unfold parentOf in H. rewrite join_ups in H. now apply IH in H.
  - unfold parentOf. rewrite join_ups. apply ups_grows.
Qed.

Lemma findRepoRoot_relative_start (lstat : string -> lstat_outcome)
  (fuel : nat) (probes : list string) :
  sampleFindRepoRoot lstat fuel "a/b" <> Some (probes, Ok None).
Proof.
  unfold sampleFindRepoRoot, findRepoRoot, traverseUpDirectories_init.
  change (Posix.normalize "a/b") with "a/b".
  intros H.
  destruct fuel as [|fuel]; [discriminate H|].
  apply loop_not_found_above in H; [|discriminate].
  destruct H as [H|[H|(p1 & H)]]; try discriminate H.
  change (parentOf Posix.join "a/b") with "a" in H.
  destruct fuel as [|fuel]; [discriminate H|].
  apply loop_not_found_above in H; [|discriminate].
  destruct H as [H|[H|(p2 & H)]]; try discriminate H.
  change (parentOf Posix.join "a") with "." in H.
  destruct fuel as [|fuel]; [discriminate H|].
  apply loop_not_found_above in H; [|discriminate].
  destruct H as [H|[H|(p3 & H)]]; try discriminate H.
  change (parentOf Posix.join ".") with (ups 0) in H.
  now apply relative_walk_goes_on in H.
Qed.

(** C8: the home directory is returned when the start names it with a
    trailing separator.  [normalize] keeps the separator, so the first
    path of the walk is [/home/u/], which is not the string [/home/u]: the
    markers of the home directory are looked up and, the home directory
    being a Git checkout, [/home/u/] is the answer, for any fuel.  Started
    at [/home/u] the same walk answers "not found" without a probe.  And a
    relative start never gets "not found": above [a/b] the walk goes
    through [a], [.], [..], [../..] and on, none of them its own parent,
    so whatever the file system holds the run finds a marker, throws, or
    does not end. *)
Theorem findRepoRoot_returns_home :
  Posix.normalize "/home/u/" = "/home/u/" /\
  (forall fuel,
     sampleFindRepoRoot dotfilesLstat (S fuel) "/home/u/"
     = Some (["/home/u/.vercel/repo.json"; "/home/u/.git/config"],
             Ok (Some "/home/u/"))) /\
  (forall fuel,
     sampleFindRepoRoot dotfilesLstat (S fuel) "/home/u"
     = Some ([], Ok None)) /\
  (forall lstat fuel probes,
     sampleFindRepoRoot lstat fuel "a/b" <> Some (probes, Ok None)).
Proof.
  split; [reflexivity|]. split; [intros fuel; reflexivity|].
  split; [intros fuel; reflexivity|].
  exact findRepoRoot_relative_start.
Qed.

Section EnsureRepoLink.

Variable normalize : string -> string.
Variable join : list string -> string.
Variable basename : string -> string.

(** The manifest entry made from a fetched project. *)
Definition configOf (project : Project) : RepoProjectConfig := {|
  id := p_id project;
  name := p_name project;
  directory := normalize (orEmpty (rootDirectory project))
|}.

(** The ways through the three writes: all succeed, or one of them fails
    and the later ones are not attempted. *)
Lemma persist_cases (env : LinkEnv) (root configPath : string)
  (config : RepoProjectsConfig) (written : list link_effect)
  (r : result (option RepoLink)) :
  persist env root configPath config = (written, r) ->
  (written = [OutputJSON configPath config; WriteReadme root;
              AddToGitIgnore root] /\
   r = Ok (Some {| rootPath := root; repoConfigPath := configPath;
                   repoConfig := Some config |})) \/
  exists e, r = Throw e /\
    ((written = [OutputJSON configPath config] /\
      outputJSON env configPath config = Throw e) \/
     (written = [OutputJSON configPath config; WriteReadme root] /\
      writeReadme env root = Throw e) \/
     (written = [OutputJSON configPath config; WriteReadme root;
                 AddToGitIgnore root] /\
      addToGitIgnore env root = Throw e)).
Proof.
  unfold persist, writing.
  destruct (outputJSON env configPath config) as [u|e] eqn:E1.
  2: { intros H. injection H as <- <-. right. exists e. auto. }
  destruct (writeReadme env root) as [u'|e] eqn:E2.
  2: { intros H. injection H as <- <-. right. exists e. auto. }
  destruct (addToGitIgnore env root) as [updated|e] eqn:E3.
  2: { intros H. injection H as <- <-. right. exists e. auto 6. }
  intros H. injection H as <- <-. left. auto.
Qed.

(** A run of the linking branch that goes beyond the prompts: the answers
    it got on the way, and what it does from the creation loop on.  Every
    other run ends before anything is created or written. *)
Lemma linkRepo_inv (env : LinkEnv) (opts : EnsureRepoLinkOptions)
  (root configPath : string) (eff : list link_effect)
  (r : result (option RepoLink)) :
  linkRepo normalize join basename env opts root configPath = (eff, r) ->
  (eff = [] /\ r <> Ok None -> exists e, r = Throw e) /\
  (eff <> [] \/ (exists link, r = Ok (Some link)) ->
   exists org remoteUrls remote chunks selected,
     getRemoteUrls env (join [root; ".git/config"]) = Ok (Some remoteUrls) /\
     chooseRemote env remoteUrls = Ok remote /\
     fetchPaginated env (lookupKey remote remoteUrls) = Ok chunks /\
     promptSelected env
       (map Existing (concat chunks)
        ++ map (fun entry =>
                  NewProject (fst entry) (basename (fst entry)) (snd entry))
               (unclaimed (concat chunks)
                  match detectProjects env root with
                  | Ok m => m
                  | Throw _ => []
                  end))
     = Ok selected /\
     (eff, r) =
     match createSelected env selected with
     | (created, Throw e) => (created, Throw e)
     | (created, Ok _) =>
         let '(written, res) :=
           persist env root configPath
             (newRepoConfig normalize org remote (concat chunks)) in
         (created ++ written, res)
     end).
Proof.
  unfold linkRepo, awaiting.
  assert (Hnone : forall e : exn,
            (([] : list link_effect) = [] /\
             (Throw e : result (option RepoLink)) <> Ok None ->
             exists e', (Throw e : result (option RepoLink)) = Throw e')).
  { intros e _. now exists e. }
  assert (Hstop : forall res : result (option RepoLink),
            (exists e, res = Throw e) \/ res = Ok None ->
            forall T : Prop,
              (([] : list link_effect) <> [] \/
               (exists link, res = Ok (Some link)) -> T)).
  { intros res Hres T [H|(link & H)]; [now elim H|].
    destruct Hres as [(e & ->)| ->]; discriminate H. }
  destruct (if yes opts then Ok true else confirm env root)
    as [shouldLink|e].
  2: { intros H. injection H as <- <-. split; [apply Hnone|].
       apply Hstop. left. now exists e. }
  destruct shouldLink; cbn [negb].
  2: { intros H. injection H as <- <-. split; [intros [_ H]; now elim H|].
       apply Hstop. now right. }
  destruct (selectOrg env (yes opts)) as [org|e].
  2: { intros H. injection H as <- <-. split; [apply Hnone|].
       apply Hstop. left. now exists e. }
  destruct (getRemoteUrls env _) as [[remoteUrls|]|e] eqn:Hurls.
  2: { intros H. injection H as <- <-. split; [apply Hnone|].
       apply Hstop. left. eexists. reflexivity. }
  2: { intros H. injection H as <- <-. split; [apply Hnone|].
       apply Hstop. left. now exists e. }
  destruct (chooseRemote env remoteUrls) as [remote|e] eqn:Hremote.
  2: { intros H. injection H as <- <-. split; [apply Hnone|].
       apply Hstop. left. now exists e. }
  destruct (fetchPaginated env _) as [chunks|e] eqn:Hfetch.
  2: { intros H. injection H as <- <-. split; [apply Hnone|].
       apply Hstop. left. now exists e. }
  destruct (promptSelected env _) as [selected|e] eqn:Hsel.
  2: { intros H. injection H as <- <-. split; [apply Hnone|].
       apply Hstop. left. now exists e. }
  destruct (length selected =? 0)%nat.
  { intros H. injection H as <- <-. split; [intros [_ H]; now elim H|].
    apply Hstop. now right. }
  intros H. split.
  - intros [-> Hr]. destruct (createSelected env selected) as [created [sel|e]].
    + destruct (persist env root configPath _) as [written res] eqn:Hp.
      injection H as H1 <-.
      destruct (persist_cases _ _ _ _ _ _ Hp) as [[-> ->]|(e & -> & _)].
      * apply app_eq_nil in H1. destruct H1 as [_ H1]. discriminate H1.
      * now exists e.
    + injection H as _ <-. now exists e.
  - intros _. exists org, remoteUrls, remote, chunks, selected.
    repeat split; auto.
Qed.

(** Whenever the linking branch returns a link, the manifest it wrote
    lists the projects the API returned for the chosen remote, whatever was
    selected or created. *)
Lemma linkRepo_writes_fetched (env : LinkEnv) (opts : EnsureRepoLinkOptions)
  (root configPath : string) (eff : list link_effect) (link : RepoLink) :
  linkRepo normalize join basename env opts root configPath
  = (eff, Ok (Some link)) ->
  exists remoteUrls remote chunks config,
    getRemoteUrls env (join [root; ".git/config"]) = Ok (Some remoteUrls) /\
    chooseRemote env remoteUrls = Ok remote /\
    fetchPaginated env (lookupKey remote remoteUrls) = Ok chunks /\
    repoConfig link = Some config /\
    In (OutputJSON configPath config) eff /\
    projects config = map configOf (concat chunks).
Proof.
  intros H. apply linkRepo_inv in H. destruct H as [_ H].
  destruct H as (org & remoteUrls & remote & chunks & selected
                 & Hurls & Hremote & Hfetch & _ & H).
  { right. now exists link. }
  exists remoteUrls, remote, chunks.
  destruct (createSelected env selected) as [created [sel|e]];
    [|discriminate H].
  destruct (persist env root configPath _) as [written res] eqn:Hp.
  injection H as -> <-.
  destruct (persist_cases _ _ _ _ _ _ Hp) as [[-> E]|(e & E & _)];
    [|discriminate E].
  injection E as ->. eexists. cbn [repoConfig].
  repeat split; auto.
  apply in_or_app. right. now left.
Qed.

End EnsureRepoLink.

(** C9: a first-time link in which the user keeps one of two existing
    projects and adds a detected one.  The new project is created, but the
    manifest written to [repo.json] lists the projects fetched from the API,
    the unchecked one included and the created one missing: [projects] is
    built from the fetched list, not from the selection. *)
Theorem ensureRepoLink_persists_fetched :
  promptSelected sampleEnv
    [Existing siteProject; Existing docsProject;
     NewProject "apps/web" "web" "nextjs"]
  = Ok [Existing siteProject; NewProject "apps/web" "web" "nextjs"]
  /\
  sampleEnsureRepoLink sampleEnv 10 "/home/u/proj/sub"
    {| yes := true; overwrite := false |}
  = Some ([CreateProject "web";
           OutputJSON "/home/u/proj/.vercel/repo.json" writtenConfig;
           WriteReadme "/home/u/proj";
           AddToGitIgnore "/home/u/proj"],
          Ok (Some {| rootPath := "/home/u/proj";
                      repoConfigPath := "/home/u/proj/.vercel/repo.json";
                      repoConfig := Some writtenConfig |})).
Proof. split; reflexivity. Qed.

Lemma findProjectsFromPath_total_witness :
  findProjectsFromPath Posix.normalizePath [webAdminProject] "apps/web/src"
  = Ok [].
Proof.
  apply (proj1 (proj2 (findProjectsFromPath_total Posix.normalizePath
                         [webAdminProject] "apps/web/src"))).
  intros q [<-|[]]. reflexivity.
Defined.

(** A deeper match wins over the root project, a directory that only
    shares a prefix of a segment does not match, and projects with the same
    directory are all returned. *)
Example findProjectsFromPath_deeper_wins :
  findProjectsFromPath Posix.normalizePath [rootProject; webProject]
    "apps/web/src" = Ok [webProject].
Proof. reflexivity. Qed.

Example findProjectsFromPath_whole_segments :
  findProjectsFromPath Posix.normalizePath [webProject; webAdminProject]
    "apps/web/src" = Ok [webProject].
Proof. reflexivity. Qed.

Example findProjectsFromPath_same_directory :
  findProjectsFromPath Posix.normalizePath
    [rootProject; webProject; webAdminProject; webProject] "apps/web"
  = Ok [webProject; webProject].
Proof. reflexivity. Qed.

(** C1: a root project ([directory] [.]) and a project in a one-segment
    directory both match a path below that directory, and both have one
    segment.  The function returns only the one that comes first in the
    input: the root project when it is listed first, although the other is
    the more specific match and ties at that depth are to be returned. *)
Theorem findProjectsFromPath_root_tie :
  matchesPath "apps/web" rootProject = true /\
  matchesPath "apps/web" appsProject = true /\
  depth rootProject = depth appsProject /\
  findProjectsFromPath Posix.normalizePath [rootProject; appsProject]
    "apps/web" = Ok [rootProject] /\
  findProjectsFromPath Posix.normalizePath [appsProject; rootProject]
    "apps/web" = Ok [appsProject].
Proof. repeat split. Qed.

End RepoLinkFacts.

(** ** Facts on the event consumer *)

Module PrintEventsFacts.

Import PrintEvents Samples.

Arguments count : simpl never.

Lemma count_app (p : effect -> bool) (a b : list effect) :
  count p (a ++ b) = count p a + count p b.
Proof. unfold count. now rewrite filter_app, length_app. Qed.

Lemma count_single (p : effect -> bool) (e : effect) :
  count p [e] = if p e then 1 else 0.
Proof. unfold count. cbn. now destruct (p e). Qed.

Lemma forwarded_app (a b : list effect) :
  forwarded (a ++ b) = forwarded a ++ forwarded b.
Proof.
  induction a as [|e a IH]; simpl; [reflexivity|].
  destruct e; simpl; now rewrite IH.
Qed.

Lemma erased_app (a b : list effect) :
  erased (a ++ b) = erased a ++ erased b.
Proof.
  induction a as [|e a IH]; simpl; [reflexivity|].
  destruct e; simpl; now rewrite IH.
Qed.

(** A state is taken apart into its fields and the operations computed. *)
Ltac fields st :=
  let oc := fresh "opened" in
  let fc := fresh "finished" in
  let pl := fresh "armed" in
  let pr := fresh "promise" in
  destruct st as [oc ? ? fc pl ? pr ?]; cbn in *.

Section Consumer.

Variable opts : Options.

(** *** [callOnOpenOnce] and the calls of [onOpen] *)

(** [onOpenCalled] tells whether [onOpen] has run, and it ran once. *)
Definition openedOnce (st : State) : Prop :=
  count isOnOpen (trace st) = if onOpenCalled st then 1 else 0.

Lemma callOnOpenOnce_onOpenCalled (st : State) :
  onOpenCalled (callOnOpenOnce st) = true.
Proof. unfold callOnOpenOnce. destruct (onOpenCalled st) eqn:E; auto. Qed.

Lemma callOnOpenOnce_openedOnce (st : State) :
  openedOnce st -> openedOnce (callOnOpenOnce st).
Proof.
  unfold openedOnce, callOnOpenOnce. fields st.
  destruct opened; cbn; [auto|].
  rewrite count_app. intros ->. reflexivity.
Qed.

Lemma callOnOpenOnce_forwarded (st : State) :
  forwarded (trace (callOnOpenOnce st)) = forwarded (trace st).
Proof.
  unfold callOnOpenOnce. fields st. destruct opened; cbn; [reflexivity|].
  rewrite forwarded_app. cbn. now rewrite app_nil_r.
Qed.

(** What [callOnOpenOnce] leaves alone. *)
Definition sameButOpen (st st' : State) : Prop :=
  counter st' = counter st /\ o st' = o st /\
  finishCalled st' = finishCalled st /\ poller st' = poller st /\
  polling st' = polling st /\ settled st' = settled st /\
  forwarded (trace st') = forwarded (trace st) /\
  erased (trace st') = erased (trace st) /\
  count isSettle (trace st') = count isSettle (trace st).

Lemma callOnOpenOnce_same (st : State) : sameButOpen st (callOnOpenOnce st).
Proof.
  unfold sameButOpen, callOnOpenOnce. fields st.
  destruct opened; cbn; repeat split;
    rewrite ?forwarded_app, ?erased_app, ?count_app; cbn;
    rewrite ?app_nil_r; auto.
Qed.

Lemma callbacks_same (n : nat) (st : State) :
  sameButOpen st (Nat.iter n callOnOpenOnce st).
Proof.
  induction n as [|n IH].
  - unfold sameButOpen. cbn. repeat split.
  - rewrite Nat.iter_succ.
    pose proof (callOnOpenOnce_same (Nat.iter n callOnOpenOnce st)) as H.
    unfold sameButOpen in *. intuition congruence.
Qed.

Lemma callbacks_openedOnce (n : nat) (st : State) :
  openedOnce st -> openedOnce (Nat.iter n callOnOpenOnce st).
Proof.
  intros H. induction n as [|n IH]; [exact H|].
  rewrite Nat.iter_succ. now apply callOnOpenOnce_openedOnce.
Qed.

(** *** [finish] *)

Ltac traces :=
  rewrite ?count_app, ?count_single, ?forwarded_app, ?erased_app; cbn;
  rewrite ?app_nil_r, ?Nat.add_0_r.

Ltac compute_finish :=
  unfold finish, callOnOpenOnce, clearTimeout, resolve, reject, settle,
    streamEnd; cbn.

Lemma finish_again (err : option error) (st : State) :
  finishCalled st = true -> finish opts err st = st.
Proof. unfold finish. now intros ->. Qed.

(** The first call: what it sets, what it emits, what it leaves. *)
Lemma finish_first (err : option error) (st : State) :
  finishCalled st = false -> settled st = None ->
  let st' := finish opts err st in
  finishCalled st' = true /\ poller st' = false /\
  onOpenCalled st' = true /\
  settled st' = Some (match err with
                      | None => Fulfilled
                      | Some e => RejectedWith e
                      end) /\
  count isSettle (trace st') = count isSettle (trace st) + 1 /\
  count isClearTimeout (trace st') = count isClearTimeout (trace st) + 1 /\
  forwarded (trace st') = forwarded (trace st) /\
  erased (trace st') = erased (trace st) /\
  counter st' = counter st /\ o st' = o st /\ polling st' = polling st.
Proof.
  intros Hf Hs. fields st. subst. compute_finish.
  destruct opened, (deployMode opts), err; cbn; repeat split; traces;
    try reflexivity; lia.
Qed.

Lemma finish_openedOnce (err : option error) (st : State) :
  openedOnce st -> openedOnce (finish opts err st).
Proof.
  unfold openedOnce. fields st. compute_finish.
  destruct finished; cbn; [auto|].
  destruct opened, (deployMode opts), err, promise; cbn; traces;
    intros ->; reflexivity.
Qed.

Lemma streamEnd_openedOnce (st : State) :
  openedOnce st -> openedOnce (streamEnd st).
Proof. unfold openedOnce. fields st. traces. auto. Qed.

(** *** [onData] *)

Lemma reachesLimit_spec (n m : nat) :
  findOpts_limit opts = Some n -> 0 < n ->
  reachesLimit opts m = (m =? n)%nat.
Proof.
  intros E Hn. unfold reachesLimit, limit. rewrite E.
  destruct n; [lia|reflexivity].
Qed.

(** A record that reaches the limit ends the attempt and is not handed to
    [printEvent]. *)
Lemma onData_at_limit (data : StreamEvent) (st : State) :
  reachesLimit opts (counter st + 1) = true ->
  finishCalled st = false -> settled st = None ->
  let st' := onData opts data st in
  settled st' = Some Fulfilled /\
  forwarded (trace st') = forwarded (trace st) /\
  counter st' = counter st + 1 /\ o st' = o st.
Proof.
  intros Hl Hf Hs. unfold onData. cbn [counter set_counter]. rewrite Hl.
  destruct (finish_first None (streamEnd (set_counter (counter st + 1) st)))
    as (_ & _ & _ & Hset & _ & _ & Hfw & _ & Hc & Ho & _); auto.
  cbv zeta in *. rewrite Hset, Hfw, Hc, Ho.
  fields st. traces. repeat split; auto.
Qed.

(** Any other record that is not the completion marker is handed to
    [printEvent], and what that returns is added to [o]. *)
Lemma onData_forwards (data : StreamEvent) (st : State) :
  reachesLimit opts (counter st + 1) = false -> normal data ->
  let st' := onData opts data st in
  forwarded (trace st') = forwarded (trace st) ++ [data] /\
  o st' = o st + units (printEvent opts data) /\
  counter st' = counter st + 1 /\
  settled st' = settled st /\ finishCalled st' = finishCalled st /\
  erased (trace st') = erased (trace st).
Proof.
  intros Hl Hn. unfold onData. cbn [counter set_counter]. rewrite Hl, Hn.
  set (st1 := emit (PrintEvent data) (set_counter (counter st + 1) st)).
  destruct (callbacks_same (opens (printEvent opts data)) st1)
    as (Hc & Ho & Hfc & _ & _ & Hs & Hfw & He & _).
  cbn. rewrite Hfw, Ho, Hc, Hs, Hfc, He. unfold st1.
  fields st. traces. repeat split; auto.
Qed.

Lemma onData_openedOnce (data : StreamEvent) (st : State) :
  openedOnce st -> openedOnce (onData opts data st).
Proof.
  intros H. unfold onData. cbn [counter set_counter].
  assert (H1 : openedOnce (set_counter (counter st + 1) st))
    by (unfold openedOnce in *; now fields st).
  destruct (reachesLimit opts (counter st + 1)).
  { now apply finish_openedOnce, streamEnd_openedOnce. }
  destruct (event data =? "build-complete").
  { destruct (deployMode opts); [|exact H1].
    now apply finish_openedOnce, streamEnd_openedOnce. }
  set (st1 := emit (PrintEvent data) (set_counter (counter st + 1) st)).
  assert (H2 : openedOnce st1).
  { unfold st1, openedOnce in *. fields st. traces. auto. }
  apply (callbacks_openedOnce (opens (printEvent opts data))) in H2.
  unfold openedOnce in *. cbn. exact H2.
Qed.

Lemma deliver_settled (sigs : list signal) (st : State) (s : settlement) :
  settled st = Some s -> deliver opts sigs st = st.
Proof. intros H. destruct sigs; cbn; [reflexivity|now rewrite H]. Qed.

(** With limit [n], a run of normal records is forwarded up to the
    [n-1]-th; the [n]-th ends the attempt. *)
Lemma deliver_limit_one_less (n : nat) (rs : list StreamEvent) (st : State) :
  findOpts_limit opts = Some n ->
  counter st < n -> finishCalled st = false -> settled st = None ->
  Forall normal rs -> n - counter st <= length rs ->
  let st' := deliver opts (map StreamData rs) st in
  settled st' = Some Fulfilled /\
  forwarded (trace st') =
    forwarded (trace st) ++ firstn (n - counter st - 1) rs /\
  counter st' = n.
Proof.
  intros E. revert st.
  induction rs as [|r rs IH]; intros st Hc Hf Hs Hn Hlen; cbn in Hlen.
  - lia.
  - cbn [map deliver]. rewrite Hs. cbn [step].
    inversion Hn as [|? ? Hr Hrs]; subst.
    destruct (Nat.eq_dec (counter st + 1) n) as [Heq|Hneq].
    + destruct (onData_at_limit r st) as (Hs' & Hfw & Hc' & _); auto.
      { rewrite (reachesLimit_spec n) by (auto; lia).
        now apply Nat.eqb_eq. }
      rewrite (deliver_settled _ _ Fulfilled) by exact Hs'.
      cbv zeta in *. rewrite Hs', Hfw, Hc'.
      replace (n - counter st - 1) with 0 by lia.
      cbn. rewrite app_nil_r. auto.
    + destruct (onData_forwards r st) as (Hfw & _ & Hc' & Hs' & Hf' & _); auto.
      { rewrite (reachesLimit_spec n) by (auto; lia).
        now apply Nat.eqb_neq. }
      cbv zeta in *.
      destruct (IH (onData opts r st)) as (Hs2 & Hfw2 & Hc2); auto;
        try congruence; try lia.
      rewrite Hs2, Hfw2, Hc2, Hfw, Hc'.
      replace (n - counter st - 1) with (S (n - (counter st + 1) - 1)) by lia.
      cbn. rewrite <- app_assoc. auto.
Qed.

(** *** The finish gate

    Within one promise executor the number of [resolve]/[reject] calls is
    the number at its start plus one if [finish] has run, and the promise
    is unsettled until then. *)

Definition gate (base : nat) (st : State) : Prop :=
  count isSettle (trace st) = base + (if finishCalled st then 1 else 0) /\
  (finishCalled st = false -> settled st = None).

(** A step that neither settles nor touches the gate. *)
Definition besideGate (st st' : State) : Prop :=
  count isSettle (trace st') = count isSettle (trace st) /\
  finishCalled st' = finishCalled st /\ settled st' = settled st.

Lemma gate_beside (base : nat) (st st' : State) :
  besideGate st st' -> gate base st -> gate base st'.
Proof.
  unfold besideGate, gate. intros (Hc & Hf & Hs) (Hg & Hn).
  rewrite Hc, Hf, Hs. auto.
Qed.

Lemma gate_finish (base : nat) (err : option error) (st : State) :
  gate base st -> gate base (finish opts err st).
Proof.
  intros (Hg & Hn). destruct (finishCalled st) eqn:Hf.
  - rewrite finish_again by exact Hf. unfold gate. now rewrite Hf.
  - destruct (finish_first err st Hf (Hn eq_refl))
      as (Hf' & _ & _ & _ & Hc & _).
    unfold gate. cbv zeta in *. rewrite Hf', Hc, Hg.
    split; [lia|discriminate].
Qed.

Ltac beside st :=
  unfold besideGate; fields st; traces; repeat split; auto.

Lemma gate_onData (base : nat) (data : StreamEvent) (st : State) :
  gate base st -> gate base (onData opts data st).
Proof.
  intros H. unfold onData. cbn [counter set_counter].
  assert (H1 : gate base (streamEnd (set_counter (counter st + 1) st))).
  { revert H. apply gate_beside. beside st. }
  destruct (reachesLimit opts (counter st + 1)).
  { now apply gate_finish. }
  destruct (event data =? "build-complete").
  { destruct (deployMode opts); [now apply gate_finish|].
    revert H. apply gate_beside. beside st. }
  set (st1 := emit (PrintEvent data) (set_counter (counter st + 1) st)).
  assert (H2 : gate base st1).
  { revert H. apply gate_beside. unfold st1. beside st. }
  revert H2. apply gate_beside.
  destruct (callbacks_same (opens (printEvent opts data)) st1)
    as (_ & _ & Hf & _ & _ & Hs & _ & _ & Hc).
  unfold besideGate. cbn. auto.
Qed.

Lemma gate_onError (base : nat) (text : string) (st : State) :
  gate base st -> gate base (onError text st).
Proof.
  unfold onError. destruct (finishCalled st) eqn:Hf; [auto|].
  apply gate_beside. unfold callOnOpenOnce.
  unfold besideGate. fields st. destruct opened; cbn; traces; auto.
Qed.

Lemma gate_onPolled (base : nat) (r : poll_outcome) (st : State) :
  gate base st -> gate base (onPolled opts r st).
Proof.
  intros H. unfold onPolled.
  assert (H1 : gate base (streamEnd st)).
  { revert H. apply gate_beside. beside st. }
  destruct (pollError r); [now apply gate_finish|].
  destruct (pollReady r); [now apply gate_finish|].
  revert H. apply gate_beside. unfold startPoller. beside st.
Qed.

Lemma gate_step (base : nat) (s : signal) (st : State) :
  gate base st -> gate base (step opts s st).
Proof.
  intros H. destruct s as [data| |text| |r]; cbn [step].
  - now apply gate_onData.
  - now apply gate_finish.
  - now apply gate_onError.
  - destruct (poller st); [|exact H].
    revert H. apply gate_beside. beside st.
  - destruct (polling st) as [|n] eqn:E; [exact H|].
    apply gate_onPolled. revert H. apply gate_beside. beside st.
Qed.

Lemma gate_runSignals (base : nat) (sigs : list signal) (st : State) :
  gate base st -> gate base (runSignals opts sigs st).
Proof.
  revert st. induction sigs as [|s sigs IH]; intros st H; cbn.
  - exact H.
  - apply IH. now apply gate_step.
Qed.

(** *** [onOpen] runs at most once *)

(** A step that does not touch [onOpen]. *)
Definition besideOpen (st st' : State) : Prop :=
  count isOnOpen (trace st') = count isOnOpen (trace st) /\
  onOpenCalled st' = onOpenCalled st.

Lemma openedOnce_beside (st st' : State) :
  besideOpen st st' -> openedOnce st -> openedOnce st'.
Proof.
  unfold besideOpen, openedOnce. intros (Hc & Ho). now rewrite Hc, Ho.
Qed.

Ltac besideO st :=
  apply openedOnce_beside; unfold besideOpen; fields st; traces; auto.

Lemma onError_openedOnce (text : string) (st : State) :
  openedOnce st -> openedOnce (onError text st).
Proof.
  intros H. unfold onError. destruct (finishCalled st); [exact H|].
  assert (H1 : openedOnce (callOnOpenOnce (set_o (o st + 1) st))).
  { apply callOnOpenOnce_openedOnce. revert H. besideO st. }
  revert H1. generalize (callOnOpenOnce (set_o (o st + 1) st)).
  intros st1. besideO st1.
Qed.

Lemma onPolled_openedOnce (r : poll_outcome) (st : State) :
  openedOnce st -> openedOnce (onPolled opts r st).
Proof.
  intros H. unfold onPolled.
  destruct (pollError r);
    [now apply finish_openedOnce, streamEnd_openedOnce|].
  destruct (pollReady r);
    [now apply finish_openedOnce, streamEnd_openedOnce|].
  revert H. unfold startPoller. besideO st.
Qed.

Lemma step_openedOnce (s : signal) (st : State) :
  openedOnce st -> openedOnce (step opts s st).
Proof.
  intros H. destruct s as [data| |text| |r]; cbn [step].
  - now apply onData_openedOnce.
  - now apply finish_openedOnce.
  - now apply onError_openedOnce.
  - destruct (poller st); [|exact H]. revert H. besideO st.
  - destruct (polling st) as [|n]; [exact H|].
    apply onPolled_openedOnce. revert H. besideO st.
Qed.

Lemma runSignals_openedOnce (sigs : list signal) (st : State) :
  openedOnce st -> openedOnce (runSignals opts sigs st).
Proof.
  revert st. induction sigs as [|s sigs IH]; intros st H; cbn.
  - exact H.
  - apply IH. now apply step_openedOnce.
Qed.

Lemma deliver_openedOnce (sigs : list signal) (st : State) :
  openedOnce st -> openedOnce (deliver opts sigs st).
Proof.
  revert st. induction sigs as [|s sigs IH]; intros st H; cbn.
  - exact H.
  - destruct (settled st); [exact H|]. apply IH. now apply step_openedOnce.
Qed.

Lemma attempt_openedOnce (k : nat) (a : Attempt) (st : State) :
  openedOnce st -> openedOnce (fst (attempt opts k a st)).
Proof.
  intros H. unfold attempt.
  set (st1 := emit FetchEvents _).
  assert (H1 : openedOnce st1).
  { unfold st1. destruct (1 <? k)%nat; revert H; besideO st. }
  clearbody st1.
  destruct (fetched a) as [text|status readableError]; [exact H1|].
  destruct (responseOk status).
  - destruct readableError; [exact H1|]. cbn [fst].
    apply deliver_openedOnce.
    assert (H2 : openedOnce (newExecutor st1))
      by (revert H1; unfold newExecutor; besideO st1).
    destruct (deployMode opts); [|exact H2].
    revert H2. generalize (newExecutor st1). intros st2.
    unfold startPoller. besideO st2.
  - apply callOnOpenOnce_openedOnce in H1.
    destruct (status <? 500)%nat; cbn [fst]; [|exact H1].
    revert H1. generalize (callOnOpenOnce st1). intros st2. besideO st2.
Qed.

Lemma onRetry_openedOnce (e : error) (st : State) :
  openedOnce st -> openedOnce (onRetry opts e st).
Proof.
  unfold onRetry.
  destruct (negb (quiet opts) && negb (o st =? 0)%nat); besideO st.
Qed.

Lemma retry_openedOnce (r k : nat) (script : list Attempt) (st : State) :
  openedOnce st -> openedOnce (fst (retry opts r k script st)).
Proof.
  revert r k st. induction script as [|a script IH]; intros r k st H.
  - cbn. exact H.
  - cbn [retry]. pose proof (attempt_openedOnce k a st H) as H1.
    destruct (attempt opts k a st) as [st1 [| e | e |]]; cbn [fst] in *;
      try exact H1.
    destruct r as [|r]; [exact H1|].
    apply IH. now apply onRetry_openedOnce.
Qed.

Lemma openedOnce_at_most (st : State) :
  openedOnce st -> count isOnOpen (trace st) <= 1.
Proof. unfold openedOnce. intros ->. destruct (onOpenCalled st); lia. Qed.

(** C6: the finish gate.  A call of [finish] after the first changes
    nothing.  The first call cancels the poll timer, marks the stream open
    and settles the promise, with one [resolve] or [reject].  Whatever
    signals an attempt then receives, and in whatever order (stream end,
    data reaching the limit, completion marker, poll result, poll error,
    stream error), its promise sees at most one [resolve]/[reject] call.
    And over a whole invocation, retries included, [onOpen] runs at most
    once. *)
Theorem finish_gate :
  (forall err st, finishCalled st = true -> finish opts err st = st) /\
  (forall err st,
     finishCalled st = false -> settled st = None ->
     let st' := finish opts err st in
     finishCalled st' = true /\ poller st' = false /\
     count isClearTimeout (trace st')
     = count isClearTimeout (trace st) + 1 /\
     onOpenCalled st' = true /\
     settled st' = Some (match err with
                         | None => Fulfilled
                         | Some e => RejectedWith e
                         end) /\
     count isSettle (trace st') = count isSettle (trace st) + 1) /\
  (forall sigs st,
     finishCalled st = false -> settled st = None ->
     count isSettle (trace (runSignals opts sigs st))
     <= count isSettle (trace st) + 1) /\
  (forall sigs st,
     openedOnce st ->
     count isOnOpen (trace (runSignals opts sigs st)) <= 1) /\
  (forall script,
     count isOnOpen (trace (fst (printEvents opts script))) <= 1).
Proof.
  repeat apply conj.
  - intros err st. apply finish_again.
  - intros err st Hf Hs.
    destruct (finish_first err st Hf Hs)
      as (H1 & H2 & H3 & H4 & H5 & H6 & _).
    cbv zeta. auto 10.
  - intros sigs st Hf Hs.
    destruct (gate_runSignals (count isSettle (trace st)) sigs st)
      as (Hc & _).
    + unfold gate. rewrite Hf. split; [lia|auto].
    + rewrite Hc. destruct (finishCalled (runSignals opts sigs st)); lia.
  - intros sigs st H. now apply openedOnce_at_most, runSignals_openedOnce.
  - intros script. apply openedOnce_at_most. unfold printEvents.
    apply retry_openedOnce. reflexivity.
Qed.

(** C3, as amended: a record that does not reach the limit is dispatched
    in three ways.  The completion marker in deploy mode, on an attempt
    that has not finished, ends the stream and fulfils the promise; the
    record is not forwarded and [onOpen] has run exactly once.  The
    completion marker in any other mode is dropped: only the counter moves.
    Every other record is forwarded to [printEvent] and the number returned
    is added to [o]. *)
Theorem onData_dispatch (data : StreamEvent) (st : State) :
  reachesLimit opts (counter st + 1) = false ->
  let st' := onData opts data st in
  (event data = "build-complete" -> deployMode opts = true ->
   finishCalled st = false -> settled st = None -> openedOnce st ->
   settled st' = Some Fulfilled /\
   count isStreamEnd (trace st') = count isStreamEnd (trace st) + 1 /\
   forwarded (trace st') = forwarded (trace st) /\
   o st' = o st /\
   count isOnOpen (trace st') = 1) /\
  (event data = "build-complete" -> deployMode opts = false ->
   st' = set_counter (counter st + 1) st) /\
  (event data <> "build-complete" ->
   forwarded (trace st') = forwarded (trace st) ++ [data] /\
   o st' = o st + units (printEvent opts data)).
Proof.
  intros Hl st'. split; [|split].
  - intros He Hd Hf Hs Hop.
    assert (Hop' : openedOnce st') by now apply onData_openedOnce.
    unfold st', onData in *. cbn [counter set_counter] in *.
    rewrite Hl in *. apply String.eqb_eq in He. rewrite He, Hd in *.
    set (st1 := streamEnd (set_counter (counter st + 1) st)) in *.
    destruct (finish_first None st1)
      as (_ & _ & Hoc & Hset & _ & _ & Hfw & _ & _ & Ho & _); auto.
    cbv zeta in *. unfold openedOnce in Hop'. rewrite Hoc in Hop'.
    rewrite Hset, Hfw, Ho, Hop'.
    repeat split.
    + unfold finish. replace (finishCalled st1) with false by auto.
      unfold st1. clear. fields st. compute_finish.
      destruct opened, (deployMode opts), promise; cbn; traces; lia.
    + unfold st1. fields st. traces. reflexivity.
  - intros He Hd. unfold st', onData. cbn [counter set_counter].
    apply String.eqb_eq in He. now rewrite Hl, He, Hd.
  - intros He. apply String.eqb_neq in He.
    destruct (onData_forwards data st) as (Hfw & Ho & _); auto.
Qed.

(** *** The retry wrapper around the attempts *)

Lemma attempt_not_ok (k status : nat) (re : option string)
  (sigs : list signal) (st : State) :
  responseOk status = false ->
  attempt opts k {| fetched := Response status re; signals := sigs |} st =
  let st1 := callOnOpenOnce (requested k st) in
  let err := EventsStatus status in
  if (status <? 500)%nat then (emit (Bail err) st1, Bailed err)
  else (st1, Threw err).
Proof. intros H. unfold attempt, requested. cbn. now rewrite H. Qed.

Lemma attempt_ok (k status : nat) (sigs : list signal) (st : State) :
  responseOk status = true ->
  attempt opts k {| fetched := Response status None; signals := sigs |} st =
  let st' := deliver opts sigs (listening opts k st) in
  (st', match settled st' with
        | None => Hanging
        | Some Fulfilled => Returned
        | Some (RejectedWith e) => Threw e
        end).
Proof. intros H. unfold attempt, listening, requested. cbn. now rewrite H. Qed.

Lemma retry_threw (r k : nat) (a : Attempt) (rest : list Attempt)
  (st st' : State) (e : error) :
  attempt opts k a st = (st', Threw e) ->
  retry opts (S r) k (a :: rest) st
  = retry opts r (S k) rest (onRetry opts e st')
  /\ retry opts 0 k (a :: rest) st = (st', Failed e).
Proof. intros H. cbn [retry]. now rewrite H. Qed.

Lemma serverError_fetched (a : Attempt) :
  serverError a = true ->
  exists re, fetched a = Response (statusOf a) re
             /\ 500 <= statusOf a /\ responseOk (statusOf a) = false.
Proof.
  unfold serverError, statusOf. destruct (fetched a) as [|status re];
    [discriminate|].
  intros H. apply Nat.leb_le in H. exists re. repeat split; auto.
  unfold responseOk. apply andb_false_iff. right. apply Nat.ltb_ge. lia.
Qed.

Lemma attempt_serverError (k : nat) (a : Attempt) (st : State) :
  serverError a = true ->
  attempt opts k a st
  = (callOnOpenOnce (requested k st), Threw (EventsStatus (statusOf a))).
Proof.
  intros H. destruct (serverError_fetched a H) as (re & Hf & Hs & Hok).
  destruct a as [f sigs]. cbn in Hf. rewrite Hf.
  rewrite attempt_not_ok by exact Hok. cbv zeta.
  replace (statusOf _ <? 500)%nat with false; [reflexivity|].
  symmetry. apply Nat.ltb_ge. exact Hs.
Qed.

(** With every attempt answered by a server error and as many attempts as
    the budget allows, the call fails with the error of the last one. *)
Lemma retry_exhausted (r k : nat) (script : list Attempt) (st : State)
  (d : Attempt) :
  length script = S r ->
  forallb serverError script = true ->
  snd (retry opts r k script st)
  = Failed (EventsStatus (statusOf (last script d))).
Proof.
  revert r k st.
  induction script as [|a script IH]; intros r k st Hlen Hall;
    [discriminate|].
  cbn [forallb] in Hall. apply andb_true_iff in Hall.
  destruct Hall as [Ha Hall].
  cbn [retry]. rewrite (attempt_serverError k a st Ha).
  destruct r as [|r].
  - destruct script; [reflexivity|discriminate].
  - rewrite IH; auto.
    destruct script; [discriminate|reflexivity].
Qed.

(** C4: how the status of the events response decides the retry.  A
    response that is not ok with a status below 500 ends the call at once:
    it fails with that status, after this one request, whatever the script
    holds next and however many retries are left.  A status of 500 or more
    is retried while retries are left: [onRetry] runs and the next attempt
    starts.  When the five attempts of the budget all meet a server error,
    the call fails with the error of the last. *)
Theorem events_status_handling :
  (forall r k status re sigs rest st,
     responseOk status = false -> status < 500 ->
     let a := {| fetched := Response status re; signals := sigs |} in
     let run := retry opts r k (a :: rest) st in
     snd run = Failed (EventsStatus status) /\
     count isFetchEvents (trace (fst run))
     = count isFetchEvents (trace st) + 1 /\
     erased (trace (fst run)) = erased (trace st)) /\
  (forall r k status re sigs rest st,
     responseOk status = false -> 500 <= status ->
     let a := {| fetched := Response status re; signals := sigs |} in
     retry opts (S r) k (a :: rest) st
     = retry opts r (S k) rest
         (onRetry opts (EventsStatus status)
            (callOnOpenOnce (requested k st)))) /\
  (forall script d,
     length script = S retries ->
     forallb serverError script = true ->
     snd (printEvents opts script)
     = Failed (EventsStatus (statusOf (last script d)))).
Proof.
  repeat apply conj.
  - intros r k status re sigs rest st Hok Hs a run.
    unfold run, a. cbn [retry]. rewrite attempt_not_ok by exact Hok.
    cbv zeta. apply Nat.ltb_lt in Hs. rewrite Hs. cbn [fst snd].
    split; [reflexivity|].
    destruct (callOnOpenOnce_same (requested k st))
      as (_ & _ & _ & _ & _ & _ & _ & He & _).
    assert (Hf : count isFetchEvents (trace (callOnOpenOnce
                                               (requested k st)))
                 = count isFetchEvents (trace st) + 1).
    { unfold callOnOpenOnce, requested.
      destruct (1 <? k)%nat; fields st; destruct opened; cbn; traces; lia. }
    split.
    + cbn. traces. exact Hf.
    + cbn. traces. rewrite He. unfold requested.
      destruct (1 <? k)%nat; fields st; traces; reflexivity.
  - intros r k status re sigs rest st Hok Hs a. unfold a.
    cbn [retry]. rewrite attempt_not_ok by exact Hok. cbv zeta.
    apply Nat.ltb_ge in Hs. now rewrite Hs.
  - intros script d Hlen Hall. unfold printEvents.
    now apply retry_exhausted.
Qed.

(** C7, as amended: [onRetry] erases [o + 1] lines and resets [o] when
    the run is not quiet and [o] is not zero; in a quiet run, or when [o]
    is zero, it erases nothing and leaves [o] as it is.  The wrapper runs
    it between a failed attempt and the next one. *)
Theorem onRetry_erases (e : error) (st : State) :
  (quiet opts = false -> 0 < o st ->
   erased (trace (onRetry opts e st)) = erased (trace st) ++ [o st + 1] /\
   o (onRetry opts e st) = 0) /\
  (quiet opts = true \/ o st = 0 ->
   erased (trace (onRetry opts e st)) = erased (trace st) /\
   o (onRetry opts e st) = o st) /\
  (forall r k a rest st0,
     attempt opts k a st0 = (st, Threw e) ->
     retry opts (S r) k (a :: rest) st0
     = retry opts r (S k) rest (onRetry opts e st)).
Proof.
  repeat apply conj.
  - intros Hq Ho. unfold onRetry. rewrite Hq.
    replace (o st =? 0)%nat with false by (symmetry; apply Nat.eqb_neq; lia).
    fields st. traces. auto.
  - intros H. unfold onRetry.
    replace (negb (quiet opts) && negb (o st =? 0)%nat) with false.
    + fields st. traces. auto.
    + symmetry. apply andb_false_iff.
      destruct H as [->| ->]; [left|right]; reflexivity.
  - intros r k a rest st0 H. now apply retry_threw.
Qed.


End Consumer.

Lemma events_status_handling_witness :
  snd (printEvents deployOptions
         [statusAttempt 404; okAttempt [StreamEnded]])
  = Failed (EventsStatus 404)
  /\
  retry deployOptions 4 1 [statusAttempt 503; okAttempt [StreamEnded]] initial
  = retry deployOptions 3 2 [okAttempt [StreamEnded]]
      (onRetry deployOptions (EventsStatus 503)
         (callOnOpenOnce (requested 1 initial)))
  /\
  snd (printEvents deployOptions
         [statusAttempt 503; statusAttempt 500; statusAttempt 500;
          statusAttempt 502; statusAttempt 504])
  = Failed (EventsStatus 504).
Proof.
  destruct (events_status_handling deployOptions) as (H1 & H2 & H3).
  split; [|split].
  - destruct (H1 retries 1 404 None [] [okAttempt [StreamEnded]] initial)
      as [H _]; [reflexivity|lia|exact H].
  - apply (H2 3 1 503 None [] [okAttempt [StreamEnded]] initial);
      [reflexivity|lia].
  - exact (H3 [statusAttempt 503; statusAttempt 500; statusAttempt 500;
               statusAttempt 502; statusAttempt 504]
              (statusAttempt 0) eq_refl eq_refl).
Defined.

Lemma onRetry_erases_witness :
  erased (trace (onRetry (logsOptions None) (EventsStatus 503)
                   (set_o 2 initial))) = [3]
  /\ o (onRetry (logsOptions None) (EventsStatus 503) (set_o 2 initial)) = 0.
Proof.
  apply (proj1 (onRetry_erases (logsOptions None) (EventsStatus 503)
                  (set_o 2 initial))); [reflexivity|cbn; lia].
Defined.

(** C7, as stated, fails: in a quiet run [onRetry] erases nothing and
    keeps [o], whatever has been printed. *)
Lemma onRetry_quiet_keeps_output :
  ~ (forall (opts : Options) (e : error) (st : State),
       0 < o st ->
       erased (trace (onRetry opts e st)) = erased (trace st) ++ [o st + 1]
       /\ o (onRetry opts e st) = 0).
Proof.
  intros H.
  destruct (H quietOptions (EventsStatus 503) (set_o 2 initial)) as [H1 _].
  - cbn. lia.
  - discriminate H1.
Qed.



(** Three server errors, then a feed that ends normally: the call resolves
    on the fourth request. *)
Example printEvents_recovers :
  let run := printEvents (logsOptions None)
               [statusAttempt 503; statusAttempt 503; statusAttempt 503;
                okAttempt [StreamData (line "1"); StreamEnded]] in
  snd run = Resolved /\
  count isFetchEvents (trace (fst run)) = 4 /\
  forwarded (trace (fst run)) = [line "1"].
Proof. repeat split. Qed.

(** The races of one deploy attempt, all delivered: the completion marker,
    the end of the stream, a late poll answer and a stream error. *)
Lemma finish_gate_witness :
  count isSettle
    (trace (runSignals deployOptions
              [TimerFired; StreamData buildComplete; StreamEnded;
               Polled (PollResponse 200 (Json "READY"));
               StreamFailed "write after end"]
              (startPoller initial)))
  <= count isSettle (trace (startPoller initial)) + 1.
Proof.
  apply (proj1 (proj2 (proj2 (finish_gate deployOptions)))); reflexivity.
Defined.

Lemma onData_dispatch_witness :
  let st' := onData deployOptions buildComplete initial in
  settled st' = Some Fulfilled /\
  count isStreamEnd (trace st') = count isStreamEnd (trace initial) + 1 /\
  forwarded (trace st') = forwarded (trace initial) /\
  o st' = o initial /\
  count isOnOpen (trace st') = 1.
Proof.
  apply (proj1 (onData_dispatch deployOptions buildComplete initial
                  eq_refl)); reflexivity.
Defined.

(** C3, as stated, fails: outside deploy mode a completion marker that
    does not reach the limit is not forwarded to [printEvent]. *)
Lemma onData_build_complete_not_forwarded :
  ~ (forall (opts : Options) (data : StreamEvent) (st : State),
       reachesLimit opts (counter st + 1) = false ->
       ((event data =? "build-complete") && deployMode opts) = false ->
       forwarded (trace (onData opts data st))
       = forwarded (trace st) ++ [data]).
Proof.
  intros H.
  specialize (H (logsOptions None) buildComplete initial eq_refl eq_refl).
  discriminate H.
Qed.

(** C2: with [limit = 3] and a feed of five normal records the call
    resolves, but only the first two records reach [printEvent]: the record
    that makes the counter equal to the limit ends the stream before it is
    forwarded.  With [limit = 1] nothing is forwarded at all.  Should the
    transport still deliver the records behind the third, they are
    forwarded, the third never is. *)
Theorem printEvents_limit_forwards_one_less :
  (let run := printEvents (logsOptions (Some 3))
                [okAttempt (map StreamData fiveLines ++ [StreamEnded])] in
   snd run = Resolved /\
   forwarded (trace (fst run)) = [line "1"; line "2"] /\
   counter (fst run) = 3) /\
  (let run := printEvents (logsOptions (Some 1))
                [okAttempt [StreamData (line "1"); StreamEnded]] in
   snd run = Resolved /\ forwarded (trace (fst run)) = []) /\
  forwarded (trace (runSignals (logsOptions (Some 3))
                      (map StreamData fiveLines)
                      (listening (logsOptions (Some 3)) 1 initial)))
  = [line "1"; line "2"; line "4"; line "5"].
Proof. repeat split. Qed.

End PrintEventsFacts.

(** ** Further properties of the repo link resolver *)

Module ResolverProperties.

Import RepoLink JsFacts RepoLinkFacts Samples.

Section FindProjects.

Variable normalizePath : string -> string.

Lemma result_cases (projects : list RepoProjectConfig) (path : string)
  (r : list RepoProjectConfig) :
  findProjectsFromPath normalizePath projects path = Ok r ->
  (matchesOf normalizePath projects path = [] /\ r = []) \/
  exists first rest,
    matchesOf normalizePath projects path = first :: rest /\
    r = filter (fun m => matchesPath (normalizePath path) m
                         && (directory m =? directory first)) projects.
Proof.
  rewrite findProjects_result.
  destruct (matchesOf normalizePath projects path) as [|first rest] eqn:E;
    intros H; injection H as <-.
  - now left.
  - right. now exists first, rest.
Qed.

(** X1: whatever [findProjectsFromPath] returns is sound.  Every returned
    project comes from the input, matches the path, has at least as many
    directory segments as any matching project of the input, and all
    returned projects have the same directory. *)
Theorem findProjectsFromPath_sound (projects : list RepoProjectConfig)
  (path : string) (r : list RepoProjectConfig) :
  findProjectsFromPath normalizePath projects path = Ok r ->
  forall q, In q r ->
    In q projects /\
    matchesPath (normalizePath path) q = true /\
    (forall q', In q' projects ->
                matchesPath (normalizePath path) q' = true ->
                depth q' <= depth q) /\
    (forall q', In q' r -> directory q' = directory q).
Proof.
  intros H q Hq.
  destruct (result_cases projects path r H)
    as [[_ ->]|(first & rest & E & ->)]; [destruct Hq|].
  apply filter_In in Hq. destruct Hq as [Hin Hq].
  apply andb_true_iff in Hq. destruct Hq as [Hm Hd].
  apply String.eqb_eq in Hd.
  repeat split; auto.
  - intros q' Hin' Hm'.
    rewrite (depth_directory q first Hd).
    now apply (matchesOf_head_deepest normalizePath projects path first rest).
  - intros q' Hq'. apply filter_In in Hq'. destruct Hq' as [_ Hq'].
    apply andb_true_iff in Hq'. destruct Hq' as [_ Hd'].
    apply String.eqb_eq in Hd'. congruence.
Qed.

(** X2: and it is complete for the directory it picks.  If some project of
    the input matches the path the result is not empty, and every project
    of the input that has the directory of a returned project is returned
    too, as often as it occurs and in input order. *)
Theorem findProjectsFromPath_complete (projects : list RepoProjectConfig)
  (path : string) (r : list RepoProjectConfig) :
  findProjectsFromPath normalizePath projects path = Ok r ->
  (forall q, In q projects -> matchesPath (normalizePath path) q = true ->
             r <> []) /\
  (forall q, In q r ->
     r = filter (fun m => directory m =? directory q) projects).
Proof.
  intros H.
  destruct (result_cases projects path r H)
    as [[E ->]|(first & rest & E & ->)].
  - split; [|intros q []].
    intros q Hq Hm.
    assert (Hin : In q (matchesOf normalizePath projects path))
      by now apply matchesOf_In.
    rewrite E in Hin. destruct Hin.
  - assert (Hf : In first (matchesOf normalizePath projects path))
      by (rewrite E; now left).
    apply matchesOf_In in Hf. destruct Hf as [Hf Hmf].
    split.
    + intros _ _ _ Hnil.
      assert (Hin : In first
                (filter (fun m => matchesPath (normalizePath path) m
                                  && (directory m =? directory first))
                        projects)).
      { apply filter_In. split; [exact Hf|].
        now rewrite Hmf, String.eqb_refl. }
      rewrite Hnil in Hin. destruct Hin.
    + intros q Hq. apply filter_In in Hq. destruct Hq as [_ Hq].
      apply andb_true_iff in Hq. destruct Hq as [Hm Hd].
      apply String.eqb_eq in Hd.
      apply filter_ext. intros m. rewrite Hd.
      destruct (directory m =? directory first) eqn:Em;
        [|now rewrite andb_false_r].
      apply String.eqb_eq in Em.
      rewrite (matchesPath_directory (normalizePath path) m first Em).
      now rewrite Hmf.
Qed.

(** X3: resolving is idempotent.  Given its own result as the project
    list, with the same path, [findProjectsFromPath] returns that list
    unchanged. *)
Theorem findProjectsFromPath_idempotent (projects : list RepoProjectConfig)
  (path : string) (r : list RepoProjectConfig) :
  findProjectsFromPath normalizePath projects path = Ok r ->
  findProjectsFromPath normalizePath r path = Ok r.
Proof.
  intros H.
  assert (Hall : forall q q', In q r -> In q' r ->
            matchesPath (normalizePath path) q = true /\
            directory q' = directory q).
  { intros q q' Hq Hq'.
    destruct (result_cases projects path r H)
      as [[_ ->]|(first & rest & E & ->)]; [destruct Hq|].
    apply filter_In in Hq, Hq'. destruct Hq as [_ Hq], Hq' as [_ Hq'].
    apply andb_true_iff in Hq, Hq'.
    destruct Hq as [Hm Hd], Hq' as [_ Hd'].
    apply String.eqb_eq in Hd, Hd'. split; [exact Hm|congruence]. }
  rewrite findProjects_result. f_equal.
  destruct (matchesOf normalizePath r path) as [|first rest] eqn:E.
  - destruct r as [|q r']; [reflexivity|].
    assert (Hin : In q (matchesOf normalizePath (q :: r') path)).
    { apply matchesOf_In. split; [now left|].
      apply (Hall q q); now left. }
    rewrite E in Hin. destruct Hin.
  - assert (Hf : In first (matchesOf normalizePath r path))
      by (rewrite E; now left).
    apply matchesOf_In in Hf. destruct Hf as [Hf _].
    rewrite <- (filter_ext_in (fun _ => true)).
    + clear. induction r as [|x r IH]; cbn; [reflexivity|now rewrite IH].
    + intros q Hq. destruct (Hall first q Hf Hq) as [_ Hd].
      destruct (Hall q q Hq Hq) as [Hm _].
      rewrite Hm, Hd. now rewrite String.eqb_refl.
Qed.

(** X4: when no project of the list is a root project (directory [.]),
    the result is exactly the matching projects with the greatest number
    of directory segments, all of them, in input order. *)
Theorem findProjectsFromPath_deepest_without_root
  (projects : list RepoProjectConfig) (path : string) :
  (forall q, In q projects -> directory q <> ".") ->
  findProjectsFromPath normalizePath projects path =
  Ok (filter (fun q =>
                matchesPath (normalizePath path) q
                && (depth q =? deepestMatch projects (normalizePath path))%nat)
             projects).
Proof.
  intros Hroot. apply findProjects_deepest_ties.
  intros q q' Hq _ _ _ Hd _. now destruct (Hroot q Hq).
Qed.

End FindProjects.

Section Walk.

Variable normalize : string -> string.
Variable join : list string -> string.
Variable basename : string -> string.
Variable home : string.
Variable VERCEL_DIR : string.
Variable VERCEL_DIR_REPO : string.
Variable lstat : string -> lstat_outcome.
Variable readJSON : string -> read_outcome.

Let loop := findRepoRoot_loop normalize join home VERCEL_DIR VERCEL_DIR_REPO
              lstat.
Let run := findRepoRoot normalize join home VERCEL_DIR VERCEL_DIR_REPO lstat.
Let manifest := manifestOf join VERCEL_DIR VERCEL_DIR_REPO.
Let gitConfig := gitConfigOf normalize join.
Let passed := passedOver normalize join home VERCEL_DIR VERCEL_DIR_REPO lstat.
Let above := ancestor normalize join.
Let below := probesBelow normalize join VERCEL_DIR VERCEL_DIR_REPO.

(** A directory that holds one of the two markers, the manifest being
    looked up first. *)
Definition marked (d : string) : Prop :=
  lstat (manifest d) = Stats \/
  (lstat (manifest d) = Enoent /\ lstat (gitConfig d) = Stats).

(** The walk up to the [k]-th directory above [start]. *)
Lemma run_climbs (start : string) (k n : nat) :
  (forall i, i < k -> passed (above i start)) ->
  run (k + n) start = loop n (Some (above k start)) (below k start).
Proof.
  intros Hall. unfold run, findRepoRoot, traverseUpDirectories_init.
  fold loop.
  exact (loop_climbs normalize join home VERCEL_DIR VERCEL_DIR_REPO lstat
           k n (normalize start) [] Hall).
Qed.

Lemma run_finds (start : string) (k fuel : nat) :
  k < fuel ->
  (forall i, i < k -> passed (above i start)) ->
  above k start <> "" -> above k start <> home -> marked (above k start) ->
  exists probes, run fuel start = Some (probes, Ok (Some (above k start))).
Proof.
  intros Hfuel Hall Hne Hh Hm.
  replace fuel with (k + S (fuel - k - 1)) by lia.
  rewrite run_climbs by exact Hall.
  unfold loop. cbn [findRepoRoot_loop traverseUpDirectories_next].
  apply String.eqb_neq in Hne, Hh. rewrite Hne, Hh.
  fold (manifestOf join VERCEL_DIR VERCEL_DIR_REPO (above k start)).
  fold (gitConfigOf normalize join (above k start)). fold manifest gitConfig.
  destruct Hm as [Hm|[Hm Hg]].
  - rewrite Hm. eexists. reflexivity.
  - rewrite Hm, Hg. eexists. reflexivity.
Qed.

Lemma loop_sound (fuel : nat) (gen : option string) (acc probes : list string)
  (d : string) :
  loop fuel gen acc = Some (probes, Ok (Some d)) ->
  exists c k,
    gen = Some c /\ d = ancestorFrom join k c /\
    (forall i, i < k -> passed (ancestorFrom join i c)) /\
    d <> "" /\ d <> home /\ marked d.
Proof.
  revert gen acc. induction fuel as [|fuel IH]; intros gen acc;
    [discriminate|].
  unfold loop. cbn [findRepoRoot_loop]. fold loop.
  destruct gen as [c|]; cbn [traverseUpDirectories_next]; [|discriminate].
  destruct (c =? "") eqn:Hne; [discriminate|].
  destruct (c =? home) eqn:Hh; [discriminate|].
  apply String.eqb_neq in Hne, Hh.
  fold (manifestOf join VERCEL_DIR VERCEL_DIR_REPO c).
  fold (gitConfigOf normalize join c). fold manifest gitConfig.
  destruct (lstat (manifest c)) eqn:Hm; try discriminate.
  - intros E. injection E as _ <-. exists c, 0.
    split; [reflexivity|]. split; [reflexivity|].
    split; [intros j Hj; lia|]. split; [exact Hne|].
    split; [exact Hh|now left].
  - destruct (lstat (gitConfig c)) eqn:Hg; try discriminate.
    + intros E. injection E as _ <-. exists c, 0.
      split; [reflexivity|]. split; [reflexivity|].
      split; [intros j Hj; lia|]. split; [exact Hne|].
      split; [exact Hh|now right].
    + destruct (join [c; ".."] =? c) eqn:Htop.
      * intros E. destruct fuel; discriminate E.
      * intros E. apply IH in E.
        destruct E as (c' & k & Hgen & Hd & Hall & Hd1 & Hd2 & Hd3).
        injection Hgen as <-.
        apply String.eqb_neq in Htop.
        exists c, (S k). split; [reflexivity|]. split; [exact Hd|].
        split; [|auto].
        intros [|j] Hj; cbn [ancestorFrom].
        -- unfold passed, passedOver. repeat split; auto.
        -- apply Hall. lia.
Qed.

(** X5: what [findRepoRoot] returns is a path of the walk above the start
    (or the start itself) that holds a marker, and the closest such: every
    path walked before it holds neither marker.  The path returned, like
    every path walked before it, differs from the string [home]; that is a
    comparison of strings and does not exclude another spelling of the home
    directory. *)
Theorem findRepoRoot_sound (fuel : nat) (start : string)
  (probes : list string) (d : string) :
  run fuel start = Some (probes, Ok (Some d)) ->
  exists k,
    d = above k start /\
    (forall i, i < k -> passed (above i start)) /\
    d <> home /\ marked d.
Proof.
  intros H. unfold run, findRepoRoot in H. fold loop in H.
  apply loop_sound in H.
  destruct H as (c & k & Hgen & Hd & Hall & _ & Hh & Hm).
  injection Hgen as <-. exists k.
  split; [exact Hd|]. split; [exact Hall|]. split; [exact Hh|exact Hm].
Qed.


Let ensure := ensureRepoLink normalize join basename home VERCEL_DIR
                VERCEL_DIR_REPO lstat readJSON.


(** X8: on a repository that is linked already, [ensureRepoLink] without
    [overwrite] only reads.  It returns the root and the configuration
    found on disk and does nothing else: no project is created and no file
    is written, whatever the prompts and the API would answer. *)
Theorem ensureRepoLink_linked_reads_only (env : LinkEnv) (cwd : string)
  (k fuel : nat) (config : RepoProjectsConfig) (y : bool) :
  k < fuel ->
  (forall i, i < k -> passed (above i cwd)) ->
  above k cwd <> "" -> above k cwd <> home -> marked (above k cwd) ->
  let root := above k cwd in
  let path := join [root; VERCEL_DIR; VERCEL_DIR_REPO] in
  readJSON path = Parsed config ->
  ensure env fuel cwd {| yes := y; overwrite := false |}
  = Some ([], Ok (Some {| rootPath := root; repoConfigPath := path;
                          repoConfig := Some config |})).
Proof.
  intros Hfuel Hall Hne Hh Hm root path Hread.
  destruct (run_finds cwd k fuel Hfuel Hall Hne Hh Hm) as (probes & Hrun).
  unfold ensure, ensureRepoLink, getRepoLink. fold run. rewrite Hrun.
  fold root path. rewrite Hread. reflexivity.
Qed.

(** X9: without a repository root there is no link.  When the walk ends at
    the home directory, or at the top without having met a marker,
    [ensureRepoLink] throws its own error, before any prompt, request or
    write, whatever the options. *)
Theorem ensureRepoLink_needs_root (env : LinkEnv) (cwd : string)
  (k fuel : nat) (opts : EnsureRepoLinkOptions) :
  S k < fuel ->
  (forall i, i < k -> passed (above i cwd)) ->
  above k cwd <> "" ->
  let d := above k cwd in
  d = home \/
  (lstat (manifest d) = Enoent /\ lstat (gitConfig d) = Enoent /\
   parentOf join d = d) ->
  ensure env fuel cwd opts
  = Some ([], Throw (Error
                       "Could not determine Git repository root directory")).
Proof.
  intros Hfuel Hall Hne d Hend.
  assert (Hrun : exists probes, run fuel cwd = Some (probes, Ok None)).
  { replace fuel with (k + S (S (fuel - k - 2))) by lia.
    rewrite run_climbs by exact Hall.
    unfold loop. cbn [findRepoRoot_loop traverseUpDirectories_next].
    apply String.eqb_neq in Hne. fold d in Hne. fold d. rewrite Hne.
    destruct (d =? home) eqn:Hh; [eexists; reflexivity|].
    destruct Hend as [->|(Hm & Hg & Htop)];
      [now rewrite String.eqb_refl in Hh|].
    fold (manifestOf join VERCEL_DIR VERCEL_DIR_REPO d).
    fold (gitConfigOf normalize join d). fold manifest gitConfig.
    rewrite Hm, Hg. unfold parentOf in Htop.
    rewrite Htop, String.eqb_refl. eexists. reflexivity. }
  destruct Hrun as (probes & Hrun).
  unfold ensure, ensureRepoLink, getRepoLink. fold run. now rewrite Hrun.
Qed.

End Walk.

Ltac differs :=
  let E := fresh "E" in intro E; vm_compute in E; discriminate E.

Ltac passed_by_computation :=
  unfold passedOver; repeat apply conj; try reflexivity; differs.

Lemma findRepoRoot_sound_witness :
  exists k,
    "/home/u/proj" = ancestor Posix.normalize Posix.join k
                       "/home/u/proj/sub/sub2" /\
    (forall i, i < k ->
       passedOver Posix.normalize Posix.join sampleHome ".vercel" "repo.json"
         sampleLstat
         (ancestor Posix.normalize Posix.join i "/home/u/proj/sub/sub2")) /\
    "/home/u/proj" <> sampleHome /\
    marked Posix.normalize Posix.join ".vercel" "repo.json" sampleLstat
      "/home/u/proj".
Proof.
  exact (findRepoRoot_sound Posix.normalize Posix.join sampleHome
           ".vercel" "repo.json" sampleLstat 10 "/home/u/proj/sub/sub2"
           ["/home/u/proj/sub/sub2/.vercel/repo.json";
            "/home/u/proj/sub/sub2/.git/config";
            "/home/u/proj/sub/.vercel/repo.json";
            "/home/u/proj/sub/.git/config";
            "/home/u/proj/.vercel/repo.json";
            "/home/u/proj/.git/config"]
           "/home/u/proj" eq_refl).
Defined.



Lemma ensureRepoLink_linked_reads_only_witness :
  ensureRepoLink Posix.normalize Posix.join Posix.basename sampleHome
    ".vercel" "repo.json" linkedLstat linkedReadJSON sampleEnv 10
    "/home/u/proj/sub" {| yes := false; overwrite := false |}
  = Some ([], Ok (Some {| rootPath := "/home/u/proj";
                          repoConfigPath := "/home/u/proj/.vercel/repo.json";
                          repoConfig := Some writtenConfig |})).
Proof.
  apply (ensureRepoLink_linked_reads_only Posix.normalize Posix.join
           Posix.basename sampleHome ".vercel" "repo.json" linkedLstat
           linkedReadJSON sampleEnv "/home/u/proj/sub" 1 10 writtenConfig
           false).
  - lia.
  - intros i Hi. destruct i as [|i]; [|lia]. passed_by_computation.
  - differs.
  - differs.
  - left. reflexivity.
  - reflexivity.
Defined.

Lemma ensureRepoLink_needs_root_witness :
  ensureRepoLink Posix.normalize Posix.join Posix.basename sampleHome
    ".vercel" "repo.json" dotfilesLstat (fun _ => ReadEnoent) sampleEnv 10
    "/home/u/notes" {| yes := true; overwrite := true |}
  = Some ([], Throw (Error
                       "Could not determine Git repository root directory")).
Proof.
  apply (ensureRepoLink_needs_root Posix.normalize Posix.join Posix.basename
           sampleHome ".vercel" "repo.json" dotfilesLstat
           (fun _ => ReadEnoent) sampleEnv "/home/u/notes" 1 10).
  - lia.
  - intros i Hi. destruct i as [|i]; [|lia]. passed_by_computation.
  - differs.
  - left. reflexivity.
Defined.

Lemma findProjectsFromPath_sound_witness :
  In webProject [rootProject; webProject; webAdminProject; webProject] /\
  matchesPath (Posix.normalizePath "apps/web/src") webProject = true.
Proof.
  destruct (findProjectsFromPath_sound Posix.normalizePath
              [rootProject; webProject; webAdminProject; webProject]
              "apps/web/src" [webProject; webProject] eq_refl
              webProject (or_introl eq_refl)) as (H1 & H2 & _).
  split; [exact H1|exact H2].
Defined.

Lemma findProjectsFromPath_complete_witness :
  [webProject; webProject]
  = filter (fun m => directory m =? directory webProject)
           [rootProject; webProject; webAdminProject; webProject].
Proof.
  apply (proj2 (findProjectsFromPath_complete Posix.normalizePath
                  [rootProject; webProject; webAdminProject; webProject]
                  "apps/web/src" [webProject; webProject] eq_refl)).
  now left.
Defined.

Lemma findProjectsFromPath_idempotent_witness :
  findProjectsFromPath Posix.normalizePath [webProject; webProject]
    "apps/web/src" = Ok [webProject; webProject].
Proof.
  apply (findProjectsFromPath_idempotent Posix.normalizePath
           [rootProject; webProject; webAdminProject; webProject]).
  reflexivity.
Defined.

Lemma findProjectsFromPath_deepest_without_root_witness :
  findProjectsFromPath Posix.normalizePath
    [appsProject; webProject; webAdminProject] "apps/web/src"
  = Ok [webProject].
Proof.
  rewrite (findProjectsFromPath_deepest_without_root Posix.normalizePath).
  - reflexivity.
  - intros q [<-|[<-|[<-|[]]]]; discriminate.
Defined.

Section Linking.

Variable normalize : string -> string.
Variable join : list string -> string.
Variable basename : string -> string.

Definition isCreate (e : link_effect) : bool :=
  match e with CreateProject _ => true | _ => false end.

(** The names of the selected entries flagged as new, in order. *)
Fixpoint newNames (selected : list Selection) : list string :=
  match selected with
  | [] => []
  | Existing _ :: r => newNames r
  | NewProject _ newName _ :: r => newName :: newNames r
  end.

(** What the creation loop makes of one selected entry. *)
Definition becomes (env : LinkEnv) (s s' : Selection) : Prop :=
  match s with
  | Existing p => s' = Existing p
  | NewProject _ newName _ =>
      exists p, createProject env newName = Ok p /\ s' = Existing p
  end.

Lemma newNames_app (a b : list Selection) :
  newNames (a ++ b) = newNames a ++ newNames b.
Proof.
  induction a as [|[p|rd n fw] a IH]; cbn; [reflexivity|exact IH|].
  now rewrite IH.
Qed.

(** X10: the loop over the selection.  When it completes, one project was
    created for every selected entry flagged as new, in selection order,
    each such entry was replaced by the project created for it and the
    existing projects were left as they were.  When a creation fails the
    loop stops there: the entries behind the failing one are never
    created, and the error is the one of that creation. *)
Theorem createSelected_loop (env : LinkEnv) (selected : list Selection)
  (eff : list link_effect) :
  (forall selected',
     createSelected env selected = (eff, Ok selected') ->
     eff = map CreateProject (newNames selected) /\
     Forall2 (becomes env) selected selected') /\
  (forall e,
     createSelected env selected = (eff, Throw e) ->
     exists before rd newName fw after,
       selected = before ++ NewProject rd newName fw :: after /\
       createProject env newName = Throw e /\
       eff = map CreateProject (newNames before ++ [newName])).
Proof.
  revert eff. induction selected as [|s selected IH]; intros eff.
  - split.
    + intros selected' H. injection H as <- <-. split; constructor.
    + intros e H. discriminate H.
  - cbn [createSelected]. destruct s as [p|rd n fw].
    + destruct (createSelected env selected) as [eff0 res] eqn:E.
      destruct (IH eff0) as [IHok IHerr].
      split.
      * intros selected' H. injection H as <- H.
        destruct res as [rest|e]; [|discriminate H]. injection H as <-.
        destruct (IHok rest eq_refl) as [He Hf]. split; [exact He|].
        constructor; [reflexivity|exact Hf].
      * intros e H. injection H as <- H.
        destruct res as [rest|e']; [discriminate H|]. injection H as <-.
        destruct (IHerr e' eq_refl)
          as (before & rd & n & fw & after & -> & Hc & ->).
        exists (Existing p :: before), rd, n, fw, after.
        repeat split; auto.
    + destruct (createProject env n) as [created|e'] eqn:Hc.
      * destruct (createSelected env selected) as [eff0 res] eqn:E.
        destruct (IH eff0) as [IHok IHerr].
        split.
        -- intros selected' H. injection H as <- H.
           destruct res as [rest|e]; [|discriminate H]. injection H as <-.
           destruct (IHok rest eq_refl) as [He Hf]. split.
           ++ cbn. now rewrite He.
           ++ constructor; [|exact Hf]. cbn. now exists created.
        -- intros e H. injection H as <- H.
           destruct res as [rest|e'']; [discriminate H|]. injection H as <-.
           destruct (IHerr e'' eq_refl)
             as (before & rd' & n' & fw' & after & -> & Hc' & ->).
           exists (NewProject rd n fw :: before), rd', n', fw', after.
           repeat split; auto.
      * split.
        -- intros selected' H. discriminate H.
        -- intros e H. injection H as <- <-.
           exists [], rd, n, fw, selected. repeat split; auto.
Qed.

Lemma createSelected_creates (env : LinkEnv) (selected : list Selection) :
  Forall (fun e => isCreate e = true) (fst (createSelected env selected)) /\
  forall n, In (CreateProject n) (fst (createSelected env selected)) ->
            exists rd fw, In (NewProject rd n fw) selected.
Proof.
  induction selected as [|[p|rd n fw] selected [IH1 IH2]];
    cbn [createSelected].
  - split; [constructor|intros n []].
  - destruct (createSelected env selected) as [eff res]. cbn [fst] in *.
    split; [exact IH1|].
    intros n Hn. destruct (IH2 n Hn) as (rd & fw & H).
    exists rd, fw. now right.
  - destruct (createProject env n) as [created|e].
    + destruct (createSelected env selected) as [eff res]. cbn [fst] in *.
      split; [now constructor|].
      intros n' [E|Hn].
      * injection E as <-. exists rd, fw. now left.
      * destruct (IH2 n' Hn) as (rd' & fw' & H).
        exists rd', fw'. now right.
    + cbn [fst]. split; [repeat constructor|].
      intros n' [E|[]]. injection E as <-. exists rd, fw. now left.
Qed.

(** X11: the writes of the linking branch come in one order, and a run
    makes a prefix of them.  The selected new projects are created first,
    then [repo.json] is written, then the note file, then the ignore file.
    A link that ends as "not linked" (the user declines, or selects
    nothing) has created no project and written no file.  A link that
    succeeds has made every call: its creations, then the manifest, once,
    then the note file and the ignore file, and it returns the manifest it
    wrote with the root and path it was given.  A link that throws has
    stopped somewhere on that way: before any write, or at the write that
    failed, so a note file or ignore file that cannot be written makes the
    link throw with [repo.json] already written. *)
Theorem linkRepo_writes_in_order (env : LinkEnv)
  (opts : EnsureRepoLinkOptions) (root configPath : string)
  (eff : list link_effect) (r : result (option RepoLink)) :
  linkRepo normalize join basename env opts root configPath = (eff, r) ->
  match r with
  | Ok None => eff = []
  | Ok (Some link) =>
      exists creates config,
        Forall (fun e => isCreate e = true) creates /\
        eff = creates ++ [OutputJSON configPath config; WriteReadme root;
                          AddToGitIgnore root] /\
        link = {| rootPath := root; repoConfigPath := configPath;
                  repoConfig := Some config |}
  | Throw e =>
      exists creates config written,
        Forall (fun e => isCreate e = true) creates /\
        eff = creates ++ written /\
        (written = [] \/
         (written = [OutputJSON configPath config] /\
          outputJSON env configPath config = Throw e) \/
         (written = [OutputJSON configPath config; WriteReadme root] /\
          writeReadme env root = Throw e) \/
         (written = [OutputJSON configPath config; WriteReadme root;
                     AddToGitIgnore root] /\
          addToGitIgnore env root = Throw e))
  end.
Proof.
  intros H.
  destruct (linkRepo_inv normalize join basename env opts root configPath
              eff r H) as [Hquiet Hbusy].
  destruct eff as [|call eff].
  - destruct r as [[link|]|e].
    + destruct Hquiet as (e & E); [split; [reflexivity|discriminate]|].
      discriminate E.
    + reflexivity.
    + exists [], (newRepoConfig normalize
                    {| org_id := ""; org_slug := ""; org_type := "" |} "" []),
        []. auto.
  - destruct Hbusy as (org & remoteUrls & remote & chunks & selected
                       & _ & _ & _ & _ & E); [left; discriminate|].
    pose proof (proj1 (createSelected_creates env selected)) as Hc.
    destruct (createSelected env selected) as [created [sel|e]];
      cbn [fst] in Hc.
    + destruct (persist env root configPath _) as [written res] eqn:Hp.
      injection E as E ->. rewrite E.
      destruct (persist_cases _ _ _ _ _ _ Hp) as [[-> ->]|(e & -> & Hw)].
      * eexists created, _. repeat split. exact Hc.
      * eexists created, _, written. split; [exact Hc|].
        split; [reflexivity|]. right. exact Hw.
    + injection E as E ->. rewrite E.
      exists created,
        (newRepoConfig normalize org remote (concat chunks)), [].
      split; [exact Hc|]. split; [now rewrite app_nil_r|]. now left.
Qed.

Lemma deleted_keys (fetched : list Project) (m : list (string * string))
  (kv : string * string) :
  In kv (fold_left (fun m project =>
                      deleteKey (orEmpty (rootDirectory project)) m)
                   fetched m) <->
  In kv m /\
  forall p, In p fetched -> orEmpty (rootDirectory p) <> fst kv.
Proof.
  revert m. induction fetched as [|p fetched IH]; intros m; cbn [fold_left].
  - split; [intros H; split; [exact H|intros p []]|tauto].
  - rewrite IH. unfold deleteKey. rewrite filter_In.
    rewrite negb_true_iff, String.eqb_neq.
    split.
    + intros [[Hin Hp] Hrest]. split; [exact Hin|].
      intros p' [<-|Hp']; [congruence|now apply Hrest].
    + intros [Hin Hall]. split; [split; [exact Hin|]|].
      * intros E. apply (Hall p); [now left|congruence].
      * intros p' Hp'. apply Hall. now right.
Qed.

(** X12: projects are created only for detected directories that no
    existing project occupies.  Provided the checkbox answers with entries
    it was offered, every project [ensureRepoLink] creates is named after a
    directory that local detection reported and that is not the root
    directory of any project fetched for the URL of the remote that was
    chosen; when detection fails nothing is created. *)
Theorem linkRepo_creates_for_free_directories (env : LinkEnv)
  (opts : EnsureRepoLinkOptions) (root configPath : string)
  (eff : list link_effect) (r : result (option RepoLink)) :
  (forall choices selected,
     promptSelected env choices = Ok selected -> incl selected choices) ->
  linkRepo normalize join basename env opts root configPath = (eff, r) ->
  forall newName, In (CreateProject newName) eff ->
  exists detected rd fw remoteUrls remote chunks,
    detectProjects env root = Ok detected /\
    In (rd, fw) detected /\ newName = basename rd /\
    getRemoteUrls env (join [root; ".git/config"]) = Ok (Some remoteUrls) /\
    chooseRemote env remoteUrls = Ok remote /\
    fetchPaginated env (lookupKey remote remoteUrls) = Ok chunks /\
    forall p, In p (concat chunks) -> orEmpty (rootDirectory p) <> rd.
Proof.
  intros Hsub H newName Hnew.
  destruct (linkRepo_inv normalize join basename env opts root configPath
              eff r H) as [_ Hbusy].
  destruct Hbusy as (org & remoteUrls & remote & chunks & selected
                     & Hurls & Hremote & Hfetch & Hsel & E).
  { left. intros ->. destruct Hnew. }
  assert (Hcreated : In (CreateProject newName)
                       (fst (createSelected env selected))).
  { destruct (createSelected env selected) as [created [sel|e]]; cbn [fst].
    - destruct (persist env root configPath _) as [written res] eqn:Hp.
      injection E as -> _. apply in_app_or in Hnew.
      destruct Hnew as [Hnew|Hnew]; [exact Hnew|].
      destruct (persist_cases _ _ _ _ _ _ Hp)
        as [[-> _]|(e & _ & [[-> _]|[[-> _]|[-> _]]])];
        cbn [In] in Hnew; intuition discriminate.
    - now injection E as -> _. }
  destruct (proj2 (createSelected_creates env selected) newName Hcreated)
    as (rd & fw & Hin).
  apply (Hsub _ _ Hsel) in Hin. apply in_app_or in Hin.
  destruct Hin as [Hin|Hin].
  - apply in_map_iff in Hin. destruct Hin as (p & Ep & _). discriminate Ep.
  - apply in_map_iff in Hin. destruct Hin as ([rd' fw'] & Ep & Hin).
    cbn [fst snd] in Ep. injection Ep as -> <- ->.
    unfold unclaimed in Hin. apply deleted_keys in Hin.
    destruct Hin as [Hin Hfree]. cbn [fst] in Hfree.
    destruct (detectProjects env root) as [detected|e]; [|destruct Hin].
    exists detected, rd, fw, remoteUrls, remote, chunks.
    repeat split; auto.
Qed.

End Linking.

Lemma createSelected_loop_witness :
  fst (createSelected sampleEnv
         [Existing siteProject; NewProject "apps/web" "web" "nextjs"])
  = map CreateProject
      (newNames [Existing siteProject; NewProject "apps/web" "web" "nextjs"]).
Proof.
  apply (proj1 (createSelected_loop sampleEnv
                  [Existing siteProject; NewProject "apps/web" "web" "nextjs"]
                  _)
           [Existing siteProject; Existing (createdProject "web")]).
  reflexivity.
Defined.

(** On a checkout where the note file cannot be written the link throws
    after the project was created and [repo.json] written. *)
Example linkRepo_throws_after_manifest :
  linkRepo Posix.normalize Posix.join Posix.basename readOnlyNoteEnv
    {| yes := true; overwrite := false |}
    "/home/u/proj" "/home/u/proj/.vercel/repo.json"
  = ([CreateProject "web";
      OutputJSON "/home/u/proj/.vercel/repo.json" writtenConfig;
      WriteReadme "/home/u/proj"],
     Throw (SystemError "EACCES")).
Proof. reflexivity. Qed.

Lemma linkRepo_writes_in_order_witness :
  exists creates config written,
    Forall (fun e => isCreate e = true) creates /\
    [CreateProject "web";
     OutputJSON "/home/u/proj/.vercel/repo.json" writtenConfig;
     WriteReadme "/home/u/proj"]
    = creates ++ written /\
    (written = [] \/
     (written = [OutputJSON "/home/u/proj/.vercel/repo.json" config] /\
      outputJSON readOnlyNoteEnv "/home/u/proj/.vercel/repo.json" config
      = Throw (SystemError "EACCES")) \/
     (written = [OutputJSON "/home/u/proj/.vercel/repo.json" config;
                 WriteReadme "/home/u/proj"] /\
      writeReadme readOnlyNoteEnv "/home/u/proj"
      = Throw (SystemError "EACCES")) \/
     (written = [OutputJSON "/home/u/proj/.vercel/repo.json" config;
                 WriteReadme "/home/u/proj"; AddToGitIgnore "/home/u/proj"] /\
      addToGitIgnore readOnlyNoteEnv "/home/u/proj"
      = Throw (SystemError "EACCES"))).
Proof.
  exact (linkRepo_writes_in_order Posix.normalize Posix.join
           Posix.basename readOnlyNoteEnv
           {| yes := true; overwrite := false |}
           "/home/u/proj" "/home/u/proj/.vercel/repo.json" _
           (Throw (SystemError "EACCES")) eq_refl).
Defined.

Lemma linkRepo_creates_for_free_directories_witness :
  exists detected rd fw remoteUrls remote chunks,
    detectProjects sampleEnv "/home/u/proj" = Ok detected /\
    In (rd, fw) detected /\ "web" = Posix.basename rd /\
    getRemoteUrls sampleEnv (Posix.join ["/home/u/proj"; ".git/config"])
    = Ok (Some remoteUrls) /\
    chooseRemote sampleEnv remoteUrls = Ok remote /\
    fetchPaginated sampleEnv (lookupKey remote remoteUrls) = Ok chunks /\
    forall p, In p (concat chunks) -> orEmpty (rootDirectory p) <> rd.
Proof.
  apply (linkRepo_creates_for_free_directories Posix.normalize Posix.join
           Posix.basename sampleEnv {| yes := true; overwrite := false |}
           "/home/u/proj" "/home/u/proj/.vercel/repo.json"
           [CreateProject "web";
            OutputJSON "/home/u/proj/.vercel/repo.json" writtenConfig;
            WriteReadme "/home/u/proj"; AddToGitIgnore "/home/u/proj"]
           (Ok (Some {| rootPath := "/home/u/proj";
                        repoConfigPath := "/home/u/proj/.vercel/repo.json";
                        repoConfig := Some writtenConfig |}))).
  - intros choices selected E s Hs. injection E as <-.
    apply filter_In in Hs. tauto.
  - reflexivity.
  - now left.
Defined.

End ResolverProperties.

(** ** Facts on the file hashes *)

Module HashesFacts.

Import Hashes.

Lemma get_set_same (k : string) (v : DeploymentFile) (m : FileMap) :
  get k (set k v m) = Some v.
Proof.
  induction m as [|[k' v'] m IH]; cbn.
  - now rewrite String.eqb_refl.
  - destruct (k' =? k) eqn:E; cbn; rewrite E; auto.
Qed.

Lemma get_set_other (k k' : string) (v : DeploymentFile) (m : FileMap) :
  k' <> k -> get k' (set k v m) = get k' m.
Proof.
  intros Hne. induction m as [|[k0 v0] m IH]; cbn.
  - replace (k =? k') with false; [reflexivity|].
    symmetry. apply String.eqb_neq. congruence.
  - destruct (k0 =? k) eqn:E; cbn.
    + apply String.eqb_eq in E. subst k0.
      replace (k =? k') with false; [reflexivity|].
      symmetry. apply String.eqb_neq. congruence.
    + destruct (k0 =? k'); auto.
Qed.

Lemma set_get_same (k : string) (v : DeploymentFile) (m : FileMap) :
  get k m = Some v -> set k v m = m.
Proof.
  induction m as [|[k' v'] m IH]; cbn; [discriminate|].
  destruct (k' =? k) eqn:E.
  - intros H. injection H as <-. reflexivity.
  - intros H. now rewrite IH.
Qed.

Lemma existsb_name (n : string) (l : list string) :
  existsb (String.eqb n) l = true <-> In n l.
Proof.
  rewrite existsb_exists. split.
  - intros (x & Hx & E). apply String.eqb_eq in E. now subst.
  - intros H. exists n. split; [exact H|apply String.eqb_refl].
Qed.

Lemma addName_In (n x : string) (l : list string) :
  In x (addName n l) <-> x = n \/ In x l.
Proof.
  unfold addName. destruct (existsb (String.eqb n) l) eqn:E.
  - apply existsb_name in E. split; [tauto|]. intros [->|H]; auto.
  - rewrite in_app_iff. cbn. intuition congruence.
Qed.

Lemma addName_NoDup (n : string) (l : list string) :
  NoDup l -> NoDup (addName n l).
Proof.
  intros H. unfold addName. destruct (existsb (String.eqb n) l) eqn:E;
    [exact H|].
  assert (Hn : ~ In n l).
  { intros Hin. apply existsb_name in Hin. congruence. }
  clear E. induction H as [|x l Hx Hl IH]; cbn.
  - constructor; [intros []|constructor].
  - constructor.
    + rewrite in_app_iff. cbn. intros [H|[->|[]]]; [tauto|].
      apply Hn. now left.
    + apply IH. intros H. apply Hn. now right.
Qed.

Lemma addName_present (n : string) (l : list string) :
  In n l -> addName n l = l.
Proof.
  intros H. unfold addName. apply existsb_name in H. now rewrite H.
Qed.

Lemma adding_all (l acc : list string) :
  NoDup acc ->
  let r := fold_left (fun elements name => addName name elements) l acc in
  NoDup r /\ (forall x, In x r <-> In x acc \/ In x l) /\
  (NoDup (acc ++ l) -> r = acc ++ l).
Proof.
  revert acc. induction l as [|n l IH]; intros acc Hacc; cbn.
  - split; [exact Hacc|]. split.
    + intros x. cbn. tauto.
    + intros _. now rewrite app_nil_r.
  - destruct (IH (addName n acc) (addName_NoDup n acc Hacc))
      as (H1 & H2 & H3).
    split; [exact H1|]. split.
    + intros x. rewrite H2, addName_In. cbn [In]. intuition congruence.
    + intros Hnd.
      assert (Hn : ~ In n acc).
      { intros Hin. apply NoDup_remove_2 in Hnd. apply Hnd.
        apply in_or_app. now left. }
      assert (E : addName n acc = acc ++ [n]).
      { unfold addName. destruct (existsb (String.eqb n) acc) eqn:Ex;
          [|reflexivity].
        apply existsb_name in Ex. tauto. }
      rewrite E in H3 |- *. rewrite H3; rewrite <- app_assoc;
        [reflexivity|exact Hnd].
Qed.

Lemma setOf_NoDup (l : list string) : NoDup (setOf l).
Proof. apply (adding_all l []). constructor. Qed.

Lemma setOf_In (l : list string) (x : string) : In x (setOf l) <-> In x l.
Proof.
  destruct (adding_all l [] (NoDup_nil _)) as (_ & H & _).
  rewrite (H x). cbn. tauto.
Qed.

Lemma setOf_NoDup_id (l : list string) : NoDup l -> setOf l = l.
Proof.
  intros H. destruct (adding_all l [] (NoDup_nil _)) as (_ & _ & H3).
  now apply H3.
Qed.

Section Hashes.

Variable hash : string -> string.
Variable readFile : string -> result string.
Variable stat : string -> result nat.

Variable schedule : list string -> list string.

(** The order lists the callback of every file given, once for each time
    the file is given, and no other. *)
Hypothesis schedule_permutes :
  forall files, Permutation (schedule files) files.

Local Notation "'hashFile'" := (Hashes.hashFile hash readFile stat).
Local Notation "'settleAll'" := (Hashes.settleAll hash readFile stat).
Local Notation "'hashes'" := (Hashes.hashes hash readFile stat schedule).

(** A file that is in the map: under the hash of its content there is an
    entry that lists it, without repetitions. *)
Definition listed (m : FileMap) (name : string) : Prop :=
  exists content fileMode entry,
    readFile name = Ok content /\ stat name = Ok fileMode /\
    get (hash content) m = Some entry /\
    In name (names entry) /\ NoDup (names entry).

Lemma hashFile_inv (m m' : FileMap) (name : string) :
  hashFile m name = Ok m' ->
  exists content fileMode,
    readFile name = Ok content /\ stat name = Ok fileMode /\
    m' = match get (hash content) m with
         | Some entry =>
             set (hash content)
               {| names := addName name (setOf (names entry));
                  data := data entry; mode := mode entry |} m
         | None =>
             set (hash content)
               {| names := [name]; data := content; mode := fileMode |} m
         end.
Proof.
  unfold Hashes.hashFile.
  destruct (readFile name) as [content|e]; cbn; [|discriminate].
  destruct (stat name) as [fileMode|e]; cbn; [|discriminate].
  intros H. exists content, fileMode. repeat split.
  destruct (get (hash content) m); now injection H as <-.
Qed.

Lemma hashFile_lists (m m' : FileMap) (name : string) :
  hashFile m name = Ok m' -> listed m' name.
Proof.
  intros H. destruct (hashFile_inv m m' name H)
    as (content & fileMode & Hr & Hs & ->).
  exists content, fileMode.
  destruct (get (hash content) m) as [entry|]; eexists;
    (split; [exact Hr|]; split; [exact Hs|];
     split; [apply get_set_same|]); cbn.
  - split; [apply addName_In; now left|].
    apply addName_NoDup, setOf_NoDup.
  - split; [now left|]. constructor; [intros []|constructor].
Qed.

Lemma hashFile_keeps_listed (m m' : FileMap) (name other : string) :
  hashFile m name = Ok m' -> listed m other -> listed m' other.
Proof.
  intros H (c & fm & entry & Hr & Hs & Hg & Hin & Hnd).
  destruct (hashFile_inv m m' name H)
    as (content & fileMode & _ & _ & ->).
  exists c, fm.
  destruct (string_dec (hash c) (hash content)) as [E|E].
  - rewrite <- E, Hg. eexists.
    split; [exact Hr|]. split; [exact Hs|].
    split; [apply get_set_same|]. cbn. split.
    + apply addName_In. right. now apply setOf_In.
    + apply addName_NoDup, setOf_NoDup.
  - exists entry. split; [exact Hr|]. split; [exact Hs|].
    split; [|now split].
    destruct (get (hash content) m); now rewrite get_set_other.
Qed.

Lemma settleAll_lists (files : list string) (m m' : FileMap) :
  settleAll files m = Ok m' ->
  (forall f, listed m f -> listed m' f) /\
  (forall f, In f files -> listed m' f).
Proof.
  revert m. induction files as [|name files IH]; intros m; cbn.
  - intros H. injection H as <-. split; [auto|intros f []].
  - destruct (hashFile m name) as [m1|e] eqn:E; cbn; [|discriminate].
    intros H. destruct (IH m1 H) as [IH1 IH2]. split.
    + intros f Hf. apply IH1. now apply (hashFile_keeps_listed m m1 name).
    + intros f [<-|Hf]; [|now apply IH2].
      apply IH1. now apply (hashFile_lists m).
Qed.

(** X13: files are grouped by content.  After [hashes] has succeeded,
    every file given is listed, once, in the entry found under the hash of
    the file's content, in whatever order the callbacks settled. *)
Theorem hashes_groups_by_content (files : list string) (m m' : FileMap)
  (f : string) :
  hashes files m = Ok m' -> In f files ->
  exists content entry,
    readFile f = Ok content /\
    get (hash content) m' = Some entry /\
    In f (names entry) /\ NoDup (names entry).
Proof.
  intros H Hf.
  apply (Permutation_in f (Permutation_sym (schedule_permutes files))) in Hf.
  destruct (proj2 (settleAll_lists (schedule files) m m' H) f Hf)
    as (c & fm & entry & Hr & _ & Hg & Hin & Hnd).
  now exists c, entry.
Qed.

Lemma hashFile_keeps_entries (m m' : FileMap) (name k : string)
  (e : DeploymentFile) :
  hashFile m name = Ok m' -> get k m = Some e ->
  exists e', get k m' = Some e' /\ data e' = data e /\ mode e' = mode e /\
             incl (names e) (names e').
Proof.
  intros H Hg.
  destruct (hashFile_inv m m' name H) as (content & fileMode & _ & _ & ->).
  destruct (string_dec k (hash content)) as [->|E].
  - rewrite Hg. eexists. split; [apply get_set_same|]. cbn.
    repeat split. intros x Hx. apply addName_In. right. now apply setOf_In.
  - exists e. split; [|repeat split; apply incl_refl].
    destruct (get (hash content) m); now rewrite get_set_other.
Qed.

(** X14: entries are never lost or overwritten.  An entry that is in the
    map given to [hashes] is still there afterwards, under the same key and
    with the same content and mode; its list of names can only have
    grown.  This holds for every order of the callbacks. *)
Theorem hashes_keeps_entries (files : list string) (m m' : FileMap)
  (k : string) (e : DeploymentFile) :
  hashes files m = Ok m' -> get k m = Some e ->
  exists e', get k m' = Some e' /\ data e' = data e /\ mode e' = mode e /\
             incl (names e) (names e').
Proof.
  unfold Hashes.hashes. generalize (schedule files). clear files.
  intros files.
  revert m e. induction files as [|name files IH]; intros m e; cbn.
  - intros H Hg. injection H as <-. exists e. repeat split; auto.
    apply incl_refl.
  - destruct (hashFile m name) as [m1|err] eqn:E; cbn; [|discriminate].
    intros H Hg.
    destruct (hashFile_keeps_entries m m1 name k e E Hg)
      as (e1 & Hg1 & Hd1 & Hm1 & Hi1).
    destruct (IH m1 e1 H Hg1) as (e' & Hg' & Hd' & Hm' & Hi').
    exists e'. repeat split; try congruence.
    now apply incl_tran with (names e1).
Qed.

(** The entries of a map built from files only: keyed by the hash of their
    content, which is the content of one of their files, and listing only
    files given, of that hash. *)
Definition fromFiles (files : list string) (m : FileMap) : Prop :=
  forall k e, get k m = Some e ->
    hash (data e) = k /\
    (exists n, In n (names e) /\ readFile n = Ok (data e)) /\
    forall n, In n (names e) ->
      In n files /\ exists content, readFile n = Ok content /\
                                     hash content = k.

Lemma hashFile_fromFiles (files : list string) (m m' : FileMap)
  (name : string) :
  In name files -> hashFile m name = Ok m' ->
  fromFiles files m -> fromFiles files m'.
Proof.
  intros Hname H Hm k e Hg.
  destruct (hashFile_inv m m' name H) as (content & fileMode & Hr & _ & ->).
  destruct (string_dec k (hash content)) as [->|E].
  - destruct (get (hash content) m) as [entry|] eqn:Hentry;
      rewrite get_set_same in Hg; injection Hg as <-; cbn.
    + destruct (Hm _ _ Hentry) as (H1 & (n & Hn & Hrn) & H3).
      split; [exact H1|]. split.
      * exists n. split; [|exact Hrn].
        apply addName_In. right. now apply setOf_In.
      * intros x Hx. apply addName_In in Hx. destruct Hx as [->|Hx].
        -- split; [exact Hname|]. now exists content.
        -- apply H3. now apply setOf_In.
    + split; [reflexivity|]. split.
      * exists name. split; [now left|exact Hr].
      * intros x [<-|[]]. split; [exact Hname|]. now exists content.
  - apply (Hm k e).
    destruct (get (hash content) m); now rewrite get_set_other in Hg.
Qed.

(** X15: starting from an empty map, the result holds nothing but the
    files given.  Every entry is keyed by the hash of its content, that
    content is the content of one of the files it lists, and every name it
    lists is a file that was given and whose content has that hash. *)
Theorem hashes_from_empty (files : list string) (m' : FileMap)
  (k : string) (e : DeploymentFile) :
  hashes files [] = Ok m' -> get k m' = Some e ->
  hash (data e) = k /\
  (exists n, In n (names e) /\ readFile n = Ok (data e)) /\
  forall n, In n (names e) ->
    In n files /\ exists content, readFile n = Ok content /\
                                   hash content = k.
Proof.
  intros H.
  assert (G : forall fs m, incl fs files -> fromFiles files m ->
                settleAll fs m = Ok m' -> fromFiles files m').
  { induction fs as [|name fs IH]; intros m Hincl Hm; cbn.
    - intros E. now injection E as <-.
    - destruct (hashFile m name) as [m1|err] eqn:E; cbn; [|discriminate].
      apply IH.
      + intros x Hx. apply Hincl. now right.
      + apply (hashFile_fromFiles files m m1 name); auto.
        apply Hincl. now left. }
  apply (G (schedule files) []); [| |exact H].
  - intros x Hx. exact (Permutation_in x (schedule_permutes files) Hx).
  - intros k' e' Hg. discriminate Hg.
Qed.

Lemma hashFile_listed_id (m : FileMap) (name : string) :
  listed m name -> hashFile m name = Ok m.
Proof.
  intros (c & fm & entry & Hr & Hs & Hg & Hin & Hnd).
  unfold Hashes.hashFile. rewrite Hr, Hs. cbn. rewrite Hg.
  rewrite setOf_NoDup_id by exact Hnd.
  rewrite addName_present by exact Hin.
  rewrite set_get_same; [reflexivity|].
  rewrite Hg. now destruct entry.
Qed.

(** X16: hashing is idempotent.  Running [hashes] again on the same files
    and on the map it returned gives that map back, unchanged, also when
    the callbacks of the second run settle in another order. *)
Theorem hashes_idempotent (again : list string -> list string)
  (files : list string) (m m' : FileMap) :
  (forall l, Permutation (again l) l) ->
  hashes files m = Ok m' ->
  Hashes.hashes hash readFile stat again files m' = Ok m'.
Proof.
  intros Hagain H.
  pose proof (proj2 (settleAll_lists (schedule files) m m' H)) as Hall.
  assert (Hall' : forall f, In f (again files) -> listed m' f).
  { intros f Hf. apply Hall.
    apply (Permutation_in f (Permutation_sym (schedule_permutes files))).
    exact (Permutation_in f (Hagain files) Hf). }
  unfold Hashes.hashes. clear H Hall. revert Hall'.
  generalize (again files). intros l.
  induction l as [|name l IH]; intros Hall; cbn; [reflexivity|].
  rewrite hashFile_listed_id by (apply Hall; now left). cbn.
  apply IH. intros f Hf. apply Hall. now right.
Qed.

(** A file both of whose reads succeed, and a file one of whose reads
    fails with [e]. *)
Definition readable (name : string) : Prop :=
  exists content fileMode,
    readFile name = Ok content /\ stat name = Ok fileMode.

Definition failsWith (name : string) (e : exn) : Prop :=
  readFile name = Throw e \/
  (exists content, readFile name = Ok content /\ stat name = Throw e).

Lemma hashFile_readable (m : FileMap) (name : string) :
  readable name <-> exists m', hashFile m name = Ok m'.
Proof.
  unfold readable, Hashes.hashFile. split.
  - intros (content & fileMode & -> & ->). cbn.
    destruct (get (hash content) m); eexists; reflexivity.
  - destruct (readFile name) as [content|e]; cbn; [|intros (m' & H)];
      [|discriminate H].
    destruct (stat name) as [fileMode|e]; cbn; [|intros (m' & H)];
      [|discriminate H].
    intros _. now exists content, fileMode.
Qed.

Lemma hashFile_failsWith (m : FileMap) (name : string) (e : exn) :
  failsWith name e <-> hashFile m name = Throw e.
Proof.
  unfold failsWith, Hashes.hashFile. split.
  - intros [->|(content & -> & ->)]; reflexivity.
  - destruct (readFile name) as [content|e']; cbn.
    + destruct (stat name) as [fileMode|e'']; cbn.
      * destruct (get (hash content) m); discriminate.
      * intros H. injection H as ->. right. now exists content.
    + intros H. injection H as ->. now left.
Qed.

Lemma settleAll_throws (settling : list string) (m : FileMap) (e : exn) :
  settleAll settling m = Throw e <->
  exists before f after,
    settling = before ++ f :: after /\
    Forall readable before /\ failsWith f e.
Proof.
  revert m. induction settling as [|name settling IH]; intros m; cbn.
  - split; [discriminate|].
    intros (before & f & after & E & _). now destruct before.
  - destruct (hashFile m name) as [m1|e1] eqn:E1; cbn.
    + rewrite IH. split.
      * intros (before & f & after & -> & Hb & Hf).
        exists (name :: before), f, after. repeat split; auto.
        constructor; [|exact Hb]. apply (hashFile_readable m). now exists m1.
      * intros (before & f & after & E & Hb & Hf).
        destruct before as [|b before]; cbn in E; injection E as <- ->.
        -- apply (hashFile_failsWith m) in Hf. congruence.
        -- exists before, f, after. inversion Hb. auto.
    + split.
      * intros H. injection H as <-. exists [], name, settling.
        repeat split; [constructor|]. now apply (hashFile_failsWith m).
      * intros (before & f & after & E & Hb & Hf).
        destruct before as [|b before]; cbn in E; injection E as <- ->.
        -- apply (hashFile_failsWith m) in Hf. congruence.
        -- inversion Hb as [|? ? Hr _]. apply (hashFile_readable m) in Hr.
           destruct Hr as (m' & Hr). congruence.
Qed.

Lemma settleAll_succeeds (settling : list string) (m : FileMap) :
  Forall readable settling -> exists m', settleAll settling m = Ok m'.
Proof.
  revert m. induction settling as [|name settling IH]; intros m H; cbn.
  - now exists m.
  - inversion H as [|? ? Hr Hrest]; subst.
    apply (hashFile_readable m) in Hr. destruct Hr as (m1 & ->). cbn.
    now apply IH.
Qed.

(** X17: the callback that fails first decides.  [hashes] throws [e]
    exactly when, in the order in which the callbacks settle, a file whose
    read or mode fails with [e] comes behind files that could all be read:
    the position in the list given plays no part.  The failing file is one
    of the files given, and when every file given can be read [hashes]
    returns a map. *)
Theorem hashes_first_failure (files : list string) (m : FileMap) :
  (forall e,
     hashes files m = Throw e <->
     exists before f after,
       schedule files = before ++ f :: after /\
       Forall readable before /\ failsWith f e) /\
  (forall e,
     hashes files m = Throw e -> exists f, In f files /\ failsWith f e) /\
  ((forall f, In f files -> readable f) ->
   exists m', hashes files m = Ok m').
Proof.
  split; [|split].
  - intros e. apply settleAll_throws.
  - intros e H. apply settleAll_throws in H.
    destruct H as (before & f & after & E & _ & Hf).
    exists f. split; [|exact Hf].
    apply (Permutation_in f (schedule_permutes files)).
    rewrite E. apply in_or_app. right. now left.
  - intros H. apply settleAll_succeeds. apply Forall_forall.
    intros f Hf. apply H.
    exact (Permutation_in f (schedule_permutes files) Hf).
Qed.

End Hashes.

Import Samples.

Lemma hashes_groups_by_content_witness :
  exists content entry,
    sampleRead "b.txt" = Ok content /\
    get (sampleDigest content)
      [("sha1:hello", helloEntry ["a.txt"; "b.txt"]); ("sha1:bye", byeEntry)]
    = Some entry /\
    In "b.txt" (names entry) /\ NoDup (names entry).
Proof.
  apply (hashes_groups_by_content sampleDigest sampleRead sampleStat
           inOrder (fun l => Permutation_refl l)
           ["a.txt"; "b.txt"; "c.txt"] []).
  - reflexivity.
  - right. now left.
Defined.

Lemma hashes_keeps_entries_witness :
  exists e',
    get "sha1:hello" [("sha1:hello", helloEntry ["old.txt"; "a.txt"])]
    = Some e' /\
    data e' = data (helloEntry ["old.txt"; "old.txt"]) /\
    mode e' = mode (helloEntry ["old.txt"; "old.txt"]) /\
    incl (names (helloEntry ["old.txt"; "old.txt"])) (names e').
Proof.
  apply (hashes_keeps_entries sampleDigest sampleRead sampleStat inOrder
           ["a.txt"] [("sha1:hello", helloEntry ["old.txt"; "old.txt"])]);
    reflexivity.
Defined.

Lemma hashes_from_empty_witness :
  sampleDigest (data byeEntry) = "sha1:bye" /\
  (exists n, In n (names byeEntry) /\ sampleRead n = Ok (data byeEntry)) /\
  forall n, In n (names byeEntry) ->
    In n ["a.txt"; "b.txt"; "c.txt"] /\
    exists content, sampleRead n = Ok content /\
                    sampleDigest content = "sha1:bye".
Proof.
  apply (hashes_from_empty sampleDigest sampleRead sampleStat
           inOrder (fun l => Permutation_refl l)
           ["a.txt"; "b.txt"; "c.txt"]
           [("sha1:hello", helloEntry ["a.txt"; "b.txt"]);
            ("sha1:bye", byeEntry)]);
    reflexivity.
Defined.

Lemma hashes_idempotent_witness :
  Hashes.hashes sampleDigest sampleRead sampleStat lastFirst
    ["a.txt"; "b.txt"; "c.txt"]
    [("sha1:hello", helloEntry ["a.txt"; "b.txt"]); ("sha1:bye", byeEntry)]
  = Ok [("sha1:hello", helloEntry ["a.txt"; "b.txt"]); ("sha1:bye", byeEntry)].
Proof.
  apply (hashes_idempotent sampleDigest sampleRead sampleStat
           inOrder (fun l => Permutation_refl l) lastFirst
           ["a.txt"; "b.txt"; "c.txt"] []).
  - intros l. apply Permutation_sym, Permutation_rev.
  - reflexivity.
Defined.

(** A directory in second place and a missing file in third: the error is
    the directory's when the callbacks settle in list order, and the missing
    file's when the last callback settles first. *)
Example hashes_error_follows_settling :
  Hashes.hashes sampleDigest mixedRead sampleStat inOrder
    ["a.txt"; "d.dir"; "missing.txt"] []
  = Throw (SystemError "EISDIR") /\
  Hashes.hashes sampleDigest mixedRead sampleStat lastFirst
    ["a.txt"; "d.dir"; "missing.txt"] []
  = Throw (SystemError "ENOENT").
Proof. split; reflexivity. Qed.

Lemma hashes_first_failure_witness :
  Hashes.hashes sampleDigest mixedRead sampleStat lastFirst
    ["a.txt"; "d.dir"; "missing.txt"] []
  = Throw (SystemError "ENOENT").
Proof.
  apply (proj1 (hashes_first_failure sampleDigest mixedRead sampleStat
                  lastFirst
                  (fun l => Permutation_sym (Permutation_rev l))
                  ["a.txt"; "d.dir"; "missing.txt"] [])).
  exists [], "missing.txt", ["d.dir"; "a.txt"].
  split; [reflexivity|]. split; [constructor|]. left. reflexivity.
Defined.

End HashesFacts.

(** ** Facts on loading the user's function *)

Module ServerlessFacts.

Import Serverless Samples.

Lemma unwrapDefault_nesting (fn : exported) :
  nesting (unwrapDefault fn) = nesting fn - 1.
Proof. destruct fn as [label|label inner]; cbn; lia. Qed.

Lemma unwrapDefault_innermost (fn : exported) :
  innermost (unwrapDefault fn) = innermost fn.
Proof. destruct fn as [label|label inner]; reflexivity. Qed.

Lemma unwrapping (n : nat) (fn : exported) :
  nesting (Nat.iter n unwrapDefault fn) = nesting fn - n /\
  innermost (Nat.iter n unwrapDefault fn) = innermost fn.
Proof.
  induction n as [|n [IH1 IH2]].
  - cbn. split; [lia|reflexivity].
  - rewrite Nat.iter_succ, unwrapDefault_nesting, unwrapDefault_innermost.
    split; [lia|exact IH2].
Qed.

Lemma innermost_flat (fn : exported) : nesting fn = 0 -> innermost fn = fn.
Proof. destruct fn as [label|label inner]; [reflexivity|discriminate]. Qed.

Section Compile.

Variable isAbsolute : string -> bool.
Variable pathToFileURL : string -> string.
Variable import : string -> result exported.

(** X18: [compileUserCode] removes at most five levels of [default].  When
    the import succeeds the value returned has five levels less than the
    imported one: an export nested at most five deep is returned itself,
    with no [default] left; one nested deeper is returned still wrapped.
    An entry point that is an absolute path is imported by its file URL,
    any other as it is written, and a failing import is thrown. *)
Theorem compileUserCode_unwraps_five (entrypointPath : string) :
  let id := if isAbsolute entrypointPath
            then pathToFileURL entrypointPath
            else entrypointPath in
  (forall fn, import id = Ok fn ->
     exists out,
       compileUserCode isAbsolute pathToFileURL import entrypointPath
       = Ok out /\
       nesting out = nesting fn - 5 /\
       innermost out = innermost fn /\
       (nesting fn <= 5 -> out = innermost fn /\ defaultOf out = None)) /\
  (forall e, import id = Throw e ->
     compileUserCode isAbsolute pathToFileURL import entrypointPath
     = Throw e).
Proof.
  intros id. split.
  - intros fn H. unfold compileUserCode. fold id. rewrite H. cbn [bind].
    eexists. split; [reflexivity|].
    destruct (unwrapping 5 fn) as [H1 H2].
    split; [exact H1|]. split; [exact H2|].
    intros Hle.
    assert (H0 : nesting (Nat.iter 5 unwrapDefault fn) = 0) by lia.
    rewrite <- H2. rewrite (innermost_flat _ H0). split; [reflexivity|].
    destruct (Nat.iter 5 unwrapDefault fn) as [label|label inner];
      [reflexivity|discriminate H0].
  - intros e H. unfold compileUserCode. fold id. now rewrite H.
Qed.

End Compile.

Lemma compileUserCode_unwraps_five_witness :
  exists out,
    compileUserCode (fun p => String.prefix "/" p)
      (fun p => ("file://" ++ p)%string)
      (fun id => if id =? "file:///var/task/api/hello.js"
                 then Ok (wrapped (wrapped handler))
                 else Throw (Error "Cannot find module"))
      "/var/task/api/hello.js" = Ok out /\
    nesting out = nesting (wrapped (wrapped handler)) - 5 /\
    innermost out = innermost (wrapped (wrapped handler)) /\
    (nesting (wrapped (wrapped handler)) <= 5 ->
     out = innermost (wrapped (wrapped handler)) /\ defaultOf out = None).
Proof.
  apply (proj1 (compileUserCode_unwraps_five (fun p => String.prefix "/" p)
                  (fun p => ("file://" ++ p)%string)
                  (fun id => if id =? "file:///var/task/api/hello.js"
                             then Ok (wrapped (wrapped handler))
                             else Throw (Error "Cannot find module"))
                  "/var/task/api/hello.js")).
  reflexivity.
Defined.

End ServerlessFacts.

(** ** Further properties of the event consumer *)

Module ConsumerProperties.

Import PrintEvents PrintEventsFacts Samples.

(** The effects of the stream handlers and of [finish]. *)
Definition handlerEffect (e : effect) : bool :=
  match e with
  | OnOpen | PrintEvent _ | Log _ | ClearTimeout | StreamEnd
  | Resolve | Reject _ => true
  | _ => false
  end.

(** The effects of the poll loop. *)
Definition pollEffect (e : effect) : bool :=
  match e with
  | FetchPoll | SetTimeout _ => true
  | _ => false
  end.

(** The records among the signals, in order. *)
Fixpoint dataOf (sigs : list signal) : list StreamEvent :=
  match sigs with
  | [] => []
  | StreamData data :: r => data :: dataOf r
  | _ :: r => dataOf r
  end.

Definition isNormal (data : StreamEvent) : bool :=
  negb (event data =? "build-complete").

(** [l] is [l'] with some elements left out. *)
Inductive Subseq {A : Type} : list A -> list A -> Prop :=
| Subseq_nil : Subseq [] []
| Subseq_take x l l' : Subseq l l' -> Subseq (x :: l) (x :: l')
| Subseq_skip x l l' : Subseq l l' -> Subseq l (x :: l').

Lemma Subseq_refl {A : Type} (l : list A) : Subseq l l.
Proof. induction l; constructor; auto. Qed.

Lemma Subseq_nil_l {A : Type} (l : list A) : Subseq [] l.
Proof. induction l; constructor; auto. Qed.

Lemma Subseq_app {A : Type} (a b c d : list A) :
  Subseq a b -> Subseq c d -> Subseq (a ++ c) (b ++ d).
Proof. induction 1; cbn; auto; constructor; auto. Qed.

Lemma Subseq_filter_prefix {A : Type} (p : A -> bool) (l a b : list A) :
  Subseq l (filter p a) -> Subseq l (filter p (a ++ b)).
Proof.
  intros H. rewrite filter_app, <- (app_nil_r l).
  apply Subseq_app; [exact H|apply Subseq_nil_l].
Qed.

Lemma dataOf_app (a b : list signal) : dataOf (a ++ b) = dataOf a ++ dataOf b.
Proof.
  induction a as [|s a IH]; cbn; [reflexivity|].
  destruct s; cbn; now rewrite IH.
Qed.

Ltac counts :=
  rewrite ?count_app, ?count_single, ?forwarded_app; cbn;
  rewrite ?app_nil_r, ?Nat.add_0_r.

Ltac open_finish :=
  unfold finish, callOnOpenOnce, clearTimeout, resolve, reject, settle,
    streamEnd, startPoller; cbn.

Section Consumer.

Variable opts : Options.

(** *** What each handler can emit *)

Section Counting.

Variable q : effect -> bool.
Hypothesis q_handlers : forall e, handlerEffect e = true -> q e = false.

Lemma callOnOpenOnce_counts (st : State) :
  count q (trace (callOnOpenOnce st)) = count q (trace st).
Proof.
  unfold callOnOpenOnce. fields st. destruct opened; cbn; counts; auto.
  now rewrite (q_handlers OnOpen eq_refl).
Qed.

Lemma callbacks_counts (n : nat) (st : State) :
  count q (trace (Nat.iter n callOnOpenOnce st)) = count q (trace st).
Proof.
  induction n as [|n IH]; [reflexivity|].
  now rewrite Nat.iter_succ, callOnOpenOnce_counts.
Qed.

Lemma finish_counts (err : option error) (st : State) :
  count q (trace (finish opts err st)) = count q (trace st).
Proof.
  fields st. open_finish. destruct finished; cbn; [reflexivity|].
  destruct opened, (deployMode opts), err as [e|], promise; cbn; counts;
    rewrite ?(q_handlers OnOpen eq_refl),
            ?(q_handlers (Log BuildComplete) eq_refl),
            ?(q_handlers ClearTimeout eq_refl),
            ?(q_handlers Resolve eq_refl);
    try rewrite (q_handlers (Reject e) eq_refl); lia.
Qed.

Lemma streamEnd_counts (st : State) :
  count q (trace (streamEnd st)) = count q (trace st).
Proof.
  unfold streamEnd. fields st. counts.
  now rewrite (q_handlers StreamEnd eq_refl).
Qed.

Lemma onData_counts (data : StreamEvent) (st : State) :
  count q (trace (onData opts data st)) = count q (trace st).
Proof.
  unfold onData. cbn [counter set_counter].
  assert (H1 : count q (trace (set_counter (counter st + 1) st))
               = count q (trace st)) by now fields st.
  destruct (reachesLimit opts (counter st + 1)).
  { now rewrite finish_counts, streamEnd_counts. }
  destruct (event data =? "build-complete").
  { destruct (deployMode opts); [|exact H1].
    now rewrite finish_counts, streamEnd_counts. }
  cbn [trace set_o]. rewrite callbacks_counts. fields st. counts.
  now rewrite (q_handlers (PrintEvent data) eq_refl).
Qed.

Lemma onError_counts (text : string) (st : State) :
  count q (trace (onError text st)) = count q (trace st).
Proof.
  unfold onError. destruct (finishCalled st); [reflexivity|].
  cbn [trace emit]. counts.
  rewrite (q_handlers (Log (StreamErrorMessage text)) eq_refl).
  rewrite callOnOpenOnce_counts. now fields st.
Qed.

Hypothesis q_poll : forall e, pollEffect e = true -> q e = false.

Lemma onPolled_counts (r : poll_outcome) (st : State) :
  count q (trace (onPolled opts r st)) = count q (trace st).
Proof.
  unfold onPolled.
  destruct (pollError r); [now rewrite finish_counts, streamEnd_counts|].
  destruct (pollReady r); [now rewrite finish_counts, streamEnd_counts|].
  unfold startPoller. fields st. counts.
  now rewrite (q_poll (SetTimeout POLL_INTERVAL) eq_refl).
Qed.

Lemma step_counts (s : signal) (st : State) :
  count q (trace (step opts s st)) = count q (trace st).
Proof.
  destruct s as [data| |text| |r]; cbn [step].
  - apply onData_counts.
  - apply finish_counts.
  - apply onError_counts.
  - destruct (poller st); [|reflexivity]. fields st. counts.
    now rewrite (q_poll FetchPoll eq_refl).
  - destruct (polling st) as [|n]; [reflexivity|].
    rewrite onPolled_counts. now fields st.
Qed.

Lemma deliver_counts (sigs : list signal) (st : State) :
  count q (trace (deliver opts sigs st)) = count q (trace st).
Proof.
  revert st. induction sigs as [|s sigs IH]; intros st; cbn; [reflexivity|].
  destruct (settled st); [reflexivity|]. now rewrite IH, step_counts.
Qed.

End Counting.

(** *** The number of requests *)

Lemma isFetchEvents_handlers (e : effect) :
  handlerEffect e = true -> isFetchEvents e = false.
Proof. now destruct e. Qed.

Lemma isFetchEvents_poll (e : effect) :
  pollEffect e = true -> isFetchEvents e = false.
Proof. now destruct e. Qed.

Lemma attempt_requests_once (k : nat) (a : Attempt) (st : State) :
  count isFetchEvents (trace (fst (attempt opts k a st)))
  = count isFetchEvents (trace st) + 1.
Proof.
  unfold attempt.
  set (st1 := emit FetchEvents _).
  assert (H1 : count isFetchEvents (trace st1)
               = count isFetchEvents (trace st) + 1).
  { unfold st1. destruct (1 <? k)%nat; fields st; counts; lia. }
  clearbody st1.
  destruct (fetched a) as [text|status readableError]; [exact H1|].
  destruct (responseOk status).
  - destruct readableError; [exact H1|]. cbn [fst].
    rewrite (deliver_counts isFetchEvents isFetchEvents_handlers
               isFetchEvents_poll).
    rewrite <- H1. unfold newExecutor, startPoller.
    destruct (deployMode opts); fields st1; counts; lia.
  - rewrite <- H1.
    rewrite <- (callOnOpenOnce_counts isFetchEvents isFetchEvents_handlers st1).
    destruct (status <? 500)%nat; cbn [fst]; [|reflexivity].
    generalize (callOnOpenOnce st1). intros st2. fields st2. counts. lia.
Qed.

Lemma onRetry_requests_nothing (e : error) (st : State) :
  count isFetchEvents (trace (onRetry opts e st))
  = count isFetchEvents (trace st).
Proof.
  unfold onRetry.
  destruct (negb (quiet opts) && negb (o st =? 0)%nat); fields st; counts;
    lia.
Qed.

Lemma retry_request_bound (r k : nat) (script : list Attempt) (st : State) :
  count isFetchEvents (trace (fst (retry opts r k script st)))
  <= count isFetchEvents (trace st) + Nat.min (S r) (length script).
Proof.
  revert r k st. induction script as [|a script IH]; intros r k st.
  - cbn. lia.
  - cbn [retry length].
    pose proof (attempt_requests_once k a st) as H1.
    destruct (attempt opts k a st) as [st1 [| e | e |]]; cbn [fst] in *;
      try lia.
    destruct r as [|r]; cbn [fst]; [lia|].
    specialize (IH r (S k) (onRetry opts e st1)).
    rewrite onRetry_requests_nothing in IH. lia.
Qed.

(** X19: a call makes at most five requests for the events, one per
    attempt, and never more than the feed answers: the first attempt and
    the four retries of the budget. *)
Theorem printEvents_request_bound (script : list Attempt) :
  count isFetchEvents (trace (fst (printEvents opts script))) <= 5 /\
  count isFetchEvents (trace (fst (printEvents opts script)))
  <= length script.
Proof.
  pose proof (retry_request_bound retries 1 script initial) as H.
  change (count isFetchEvents (trace initial)) with 0 in H.
  unfold printEvents. unfold retries in *. lia.
Qed.

(** *** The poll loop stays off outside deploy mode *)

Definition idle (st : State) : Prop := poller st = false /\ polling st = 0.

Lemma pollEffect_handlers (e : effect) :
  handlerEffect e = true -> pollEffect e = false.
Proof. now destruct e. Qed.

Lemma finish_idle (err : option error) (st : State) :
  idle st -> idle (finish opts err st).
Proof.
  unfold idle. fields st. open_finish. intros [-> ->].
  destruct finished; cbn; [auto|].
  destruct opened, (deployMode opts), err, promise; cbn; auto.
Qed.

Lemma onData_idle (data : StreamEvent) (st : State) :
  idle st -> idle (onData opts data st).
Proof.
  intros H. unfold onData. cbn [counter set_counter].
  assert (H1 : idle (streamEnd (set_counter (counter st + 1) st)))
    by (unfold idle in *; now fields st).
  assert (H2 : idle (set_counter (counter st + 1) st))
    by (unfold idle in *; now fields st).
  destruct (reachesLimit opts (counter st + 1)); [now apply finish_idle|].
  destruct (event data =? "build-complete").
  { destruct (deployMode opts); [now apply finish_idle|exact H2]. }
  set (st1 := emit (PrintEvent data) (set_counter (counter st + 1) st)).
  destruct (callbacks_same (opens (printEvent opts data)) st1)
    as (_ & _ & _ & Hp & Hpl & _).
  unfold idle. cbn. rewrite Hp, Hpl. unfold st1, idle in *. now fields st.
Qed.

Lemma onError_idle (text : string) (st : State) :
  idle st -> idle (onError text st).
Proof.
  intros H. unfold onError. destruct (finishCalled st); [exact H|].
  destruct (callOnOpenOnce_same (set_o (o st + 1) st))
    as (_ & _ & _ & Hp & Hpl & _).
  unfold idle in *. cbn. rewrite Hp, Hpl. now fields st.
Qed.

Lemma step_idle (s : signal) (st : State) :
  idle st ->
  idle (step opts s st) /\
  count pollEffect (trace (step opts s st)) = count pollEffect (trace st).
Proof.
  intros H. destruct s as [data| |text| |r]; cbn [step].
  - split; [now apply onData_idle|].
    apply (onData_counts pollEffect pollEffect_handlers).
  - split; [now apply finish_idle|].
    apply (finish_counts pollEffect pollEffect_handlers).
  - split; [now apply onError_idle|].
    apply (onError_counts pollEffect pollEffect_handlers).
  - destruct H as [Hp Hpl]. rewrite Hp. now split.
  - destruct H as [Hp Hpl]. rewrite Hpl. now split.
Qed.

Lemma deliver_idle (sigs : list signal) (st : State) :
  idle st ->
  idle (deliver opts sigs st) /\
  count pollEffect (trace (deliver opts sigs st))
  = count pollEffect (trace st).
Proof.
  revert st. induction sigs as [|s sigs IH]; intros st H; cbn; [now split|].
  destruct (settled st); [now split|].
  destruct (step_idle s st H) as [H1 H2].
  destruct (IH _ H1) as [H3 H4]. split; [exact H3|congruence].
Qed.

Lemma attempt_polls_nothing (k : nat) (a : Attempt) (st : State) :
  deployMode opts = false ->
  count pollEffect (trace (fst (attempt opts k a st)))
  = count pollEffect (trace st).
Proof.
  intros Hd. unfold attempt. rewrite Hd.
  set (st1 := emit FetchEvents _).
  assert (H1 : count pollEffect (trace st1) = count pollEffect (trace st)).
  { unfold st1. destruct (1 <? k)%nat; fields st; counts; lia. }
  clearbody st1.
  destruct (fetched a) as [text|status readableError]; [exact H1|].
  destruct (responseOk status).
  - destruct readableError; [exact H1|]. cbn [fst].
    destruct (deliver_idle (signals a) (newExecutor st1)) as [_ H].
    { unfold idle, newExecutor. now fields st1. }
    rewrite H, <- H1. unfold newExecutor. now fields st1.
  - rewrite <- H1.
    rewrite <- (callOnOpenOnce_counts pollEffect pollEffect_handlers st1).
    destruct (status <? 500)%nat; cbn [fst]; [|reflexivity].
    generalize (callOnOpenOnce st1). intros st2. fields st2. counts. lia.
Qed.

Lemma onRetry_polls_nothing (e : error) (st : State) :
  count pollEffect (trace (onRetry opts e st)) = count pollEffect (trace st).
Proof.
  unfold onRetry.
  destruct (negb (quiet opts) && negb (o st =? 0)%nat); fields st; counts;
    lia.
Qed.

(** X20: outside deploy mode the deployment's status is never polled.
    Whatever the feed does and however often the call retries, no timer is
    set and no poll request is made; timer and poll signals are ignored. *)
Theorem printEvents_polls_in_deploy_only (script : list Attempt) :
  deployMode opts = false ->
  count pollEffect (trace (fst (printEvents opts script))) = 0.
Proof.
  intros Hd. unfold printEvents.
  assert (G : forall r k st,
            count pollEffect (trace (fst (retry opts r k script st)))
            = count pollEffect (trace st)).
  { induction script as [|a rest IH]; intros r k st; [reflexivity|].
    cbn [retry]. pose proof (attempt_polls_nothing k a st Hd) as H1.
    destruct (attempt opts k a st) as [st1 [| e | e |]]; cbn [fst] in *;
      try exact H1.
    destruct r as [|r]; cbn [fst]; [exact H1|].
    now rewrite IH, onRetry_polls_nothing. }
  now rewrite G.
Qed.

(** *** Only the end of the stream settles a plain attempt *)

Definition waiting (st : State) : Prop :=
  idle st /\ finishCalled st = false /\ settled st = None.

Lemma step_waiting (s : signal) (st : State) :
  deployMode opts = false -> limit opts = None ->
  s <> StreamEnded -> waiting st -> waiting (step opts s st).
Proof.
  intros Hd Hl Hs (Hi & Hf & Hset).
  destruct (step_idle s st Hi) as [Hi' _].
  split; [exact Hi'|]. clear Hi'.
  destruct s as [data| |text| |r]; cbn [step].
  - unfold onData. cbn [counter set_counter].
    unfold reachesLimit. rewrite Hl, Hd.
    destruct (event data =? "build-complete"); [now fields st|].
    set (st1 := emit (PrintEvent data) (set_counter (counter st + 1) st)).
    destruct (callbacks_same (opens (printEvent opts data)) st1)
      as (_ & _ & Hfc & _ & _ & Hsc & _).
    cbn. rewrite Hfc, Hsc. unfold st1. now fields st.
  - congruence.
  - unfold onError. rewrite Hf.
    destruct (callOnOpenOnce_same (set_o (o st + 1) st))
      as (_ & _ & Hfc & _ & _ & Hsc & _).
    cbn. rewrite Hfc, Hsc. now fields st.
  - destruct Hi as [Hp _]. rewrite Hp. now split.
  - destruct Hi as [_ Hpl]. rewrite Hpl. now split.
Qed.

Lemma deliver_waiting (sigs : list signal) (st : State) :
  deployMode opts = false -> limit opts = None ->
  (forall s, In s sigs -> s <> StreamEnded) ->
  waiting st -> waiting (deliver opts sigs st).
Proof.
  intros Hd Hl. revert st.
  induction sigs as [|s sigs IH]; intros st Hall H; cbn; [exact H|].
  destruct (settled st); [exact H|].
  apply IH.
  - intros s' Hs'. apply Hall. now right.
  - apply step_waiting; auto. apply Hall. now left.
Qed.

(** X21: without deploy mode and without a limit, only the end of the
    stream settles an attempt.  An attempt whose feed answers ok and whose
    stream delivers records and errors but never ends stays pending: a
    stream error alone neither fails the call nor leads to a retry. *)
Theorem stream_end_alone_settles (status : nat) (sigs : list signal)
  (rest : list Attempt) :
  deployMode opts = false -> limit opts = None ->
  responseOk status = true ->
  (forall s, In s sigs -> s <> StreamEnded) ->
  forall r k st,
    snd (retry opts r k
           ({| fetched := Response status None; signals := sigs |} :: rest)
           st) = Pending.
Proof.
  intros Hd Hl Hok Hall r k st. cbn [retry].
  rewrite attempt_ok by exact Hok. cbv zeta.
  assert (H : waiting (deliver opts sigs (listening opts k st))).
  { apply deliver_waiting; auto.
    unfold waiting, idle, listening, newExecutor, requested. rewrite Hd.
    destruct (1 <? k)%nat; now fields st. }
  destruct H as (_ & _ & Hs). now rewrite Hs.
Qed.

(** *** Records are forwarded in arrival order *)

Lemma finish_forwarded (err : option error) (st : State) :
  forwarded (trace (finish opts err st)) = forwarded (trace st).
Proof.
  fields st. open_finish. destruct finished; cbn; [reflexivity|].
  destruct opened, (deployMode opts), err, promise; cbn; counts; reflexivity.
Qed.

Lemma onData_forwarded (data : StreamEvent) (st : State) :
  exists l,
    forwarded (trace (onData opts data st)) = forwarded (trace st) ++ l /\
    Subseq l (filter isNormal [data]).
Proof.
  unfold onData. cbn [counter set_counter].
  assert (H1 : forwarded (trace (streamEnd (set_counter (counter st + 1) st)))
               = forwarded (trace st))
    by (fields st; counts; reflexivity).
  destruct (reachesLimit opts (counter st + 1)).
  { exists []. rewrite finish_forwarded, H1, app_nil_r.
    split; [reflexivity|apply Subseq_nil_l]. }
  unfold isNormal. cbn [filter].
  destruct (event data =? "build-complete").
  { exists []. rewrite app_nil_r. split; [|constructor].
    destruct (deployMode opts); [now rewrite finish_forwarded|].
    now fields st. }
  exists [data]. split; [|apply Subseq_refl].
  set (st1 := emit (PrintEvent data) (set_counter (counter st + 1) st)).
  destruct (callbacks_same (opens (printEvent opts data)) st1)
    as (_ & _ & _ & _ & _ & _ & Hfw & _).
  cbn. rewrite Hfw. unfold st1. fields st. counts. reflexivity.
Qed.

Lemma step_forwarded (s : signal) (st : State) :
  exists l,
    forwarded (trace (step opts s st)) = forwarded (trace st) ++ l /\
    Subseq l (filter isNormal (dataOf [s])).
Proof.
  assert (Hnone : forall st', forwarded (trace st') = forwarded (trace st) ->
            exists l, forwarded (trace st') = forwarded (trace st) ++ l /\
                      Subseq l []).
  { intros st' E. exists []. rewrite app_nil_r. split; [exact E|constructor]. }
  destruct s as [data| |text| |r]; cbn [step dataOf filter].
  - apply onData_forwarded.
  - apply Hnone, finish_forwarded.
  - apply Hnone. unfold onError. destruct (finishCalled st); [reflexivity|].
    destruct (callOnOpenOnce_same (set_o (o st + 1) st))
      as (_ & _ & _ & _ & _ & _ & Hfw & _).
    cbn. counts. rewrite Hfw. now fields st.
  - apply Hnone. destruct (poller st); [|reflexivity]. fields st. counts.
    reflexivity.
  - apply Hnone. destruct (polling st) as [|n]; [reflexivity|].
    unfold onPolled.
    assert (H1 : forwarded (trace (streamEnd (set_polling n st)))
                 = forwarded (trace st))
      by (fields st; counts; reflexivity).
    destruct (pollError r); [now rewrite finish_forwarded|].
    destruct (pollReady r); [now rewrite finish_forwarded|].
    unfold startPoller. fields st. counts. reflexivity.
Qed.

Lemma deliver_forwarded (sigs : list signal) (st : State) :
  exists l,
    forwarded (trace (deliver opts sigs st)) = forwarded (trace st) ++ l /\
    Subseq l (filter isNormal (dataOf sigs)).
Proof.
  revert st. induction sigs as [|s sigs IH]; intros st.
  - exists []. cbn. rewrite app_nil_r. split; [reflexivity|constructor].
  - cbn [deliver]. destruct (settled st).
    + exists []. rewrite app_nil_r. split; [reflexivity|apply Subseq_nil_l].
    + destruct (step_forwarded s st) as (l1 & E1 & S1).
      destruct (IH (step opts s st)) as (l2 & E2 & S2).
      exists (l1 ++ l2). rewrite E2, E1, app_assoc. split; [reflexivity|].
      change (s :: sigs) with ([s] ++ sigs).
      rewrite dataOf_app, filter_app. now apply Subseq_app.
Qed.

Lemma attempt_forwarded (k : nat) (a : Attempt) (st : State) :
  exists l,
    forwarded (trace (fst (attempt opts k a st)))
    = forwarded (trace st) ++ l /\
    Subseq l (filter isNormal (dataOf (signals a))).
Proof.
  assert (Hnone : forall st', forwarded (trace st') = forwarded (trace st) ->
            exists l, forwarded (trace st') = forwarded (trace st) ++ l /\
                      Subseq l (filter isNormal (dataOf (signals a)))).
  { intros st' E. exists []. rewrite app_nil_r.
    split; [exact E|apply Subseq_nil_l]. }
  unfold attempt.
  set (st1 := emit FetchEvents _).
  assert (H1 : forwarded (trace st1) = forwarded (trace st)).
  { unfold st1. destruct (1 <? k)%nat; fields st; counts; reflexivity. }
  clearbody st1.
  destruct (fetched a) as [text|status readableError]; [now apply Hnone|].
  destruct (responseOk status).
  - destruct readableError; [now apply Hnone|]. cbn [fst].
    set (st2 := if deployMode opts then _ else _).
    assert (H2 : forwarded (trace st2) = forwarded (trace st)).
    { rewrite <- H1. unfold st2, newExecutor, startPoller.
      destruct (deployMode opts); fields st1; counts; reflexivity. }
    destruct (deliver_forwarded (signals a) st2) as (l & E & S).
    exists l. now rewrite E, H2.
  - apply Hnone.
    destruct (callOnOpenOnce_same st1) as (_ & _ & _ & _ & _ & _ & Hfw & _).
    rewrite <- H1, <- Hfw.
    destruct (status <? 500)%nat; cbn [fst]; [|reflexivity].
    generalize (callOnOpenOnce st1). intros st2. fields st2. counts.
    reflexivity.
Qed.

Lemma onRetry_forwarded (e : error) (st : State) :
  forwarded (trace (onRetry opts e st)) = forwarded (trace st).
Proof.
  unfold onRetry.
  destruct (negb (quiet opts) && negb (o st =? 0)%nat); fields st; counts;
    reflexivity.
Qed.

(** X22: records reach [printEvent] in the order of their arrival.  Over a
    whole call, retries included, the records handed to [printEvent] are
    records the feed delivered, in the order of delivery and none more
    often than it was delivered, and a completion marker is never among
    them. *)
Theorem printEvents_forwards_in_order (script : list Attempt) :
  Subseq (forwarded (trace (fst (printEvents opts script))))
         (filter isNormal (dataOf (flat_map signals script))).
Proof.
  unfold printEvents.
  assert (G : forall r k st, exists l,
            forwarded (trace (fst (retry opts r k script st)))
            = forwarded (trace st) ++ l /\
            Subseq l (filter isNormal (dataOf (flat_map signals script)))).
  { induction script as [|a rest IH]; intros r k st.
    - exists []. cbn. rewrite app_nil_r. split; [reflexivity|constructor].
    - cbn [retry flat_map]. rewrite dataOf_app.
      destruct (attempt_forwarded k a st) as (l1 & E1 & S1).
      assert (Hstop : exists l,
                forwarded (trace (fst (attempt opts k a st)))
                = forwarded (trace st) ++ l /\
                Subseq l (filter isNormal
                            (dataOf (signals a)
                             ++ dataOf (flat_map signals rest)))).
      { exists l1. split; [exact E1|now apply Subseq_filter_prefix]. }
      destruct (attempt opts k a st) as [st1 [| e | e |]]; cbn [fst] in *;
        try exact Hstop.
      destruct r as [|r]; cbn [fst]; [exact Hstop|].
      destruct (IH r (S k) (onRetry opts e st1)) as (l2 & E2 & S2).
      exists (l1 ++ l2).
      rewrite E2, onRetry_forwarded, E1, app_assoc.
      split; [reflexivity|]. rewrite filter_app. now apply Subseq_app. }
  destruct (G retries 1 initial) as (l & E & S).
  rewrite E. exact S.
Qed.

End Consumer.

Lemma printEvents_polls_in_deploy_only_witness :
  count pollEffect
    (trace (fst (printEvents (logsOptions None)
                   [okAttempt [TimerFired; StreamData (line "1");
                               Polled (PollResponse 200 (Json "READY"));
                               StreamEnded]]))) = 0.
Proof.
  apply printEvents_polls_in_deploy_only. reflexivity.
Defined.

Lemma stream_end_alone_settles_witness :
  snd (retry (logsOptions None) 4 1
         [okAttempt [StreamData (line "1"); StreamFailed "ECONNRESET"];
          okAttempt [StreamEnded]] initial) = Pending.
Proof.
  apply (stream_end_alone_settles (logsOptions None) 200
           [StreamData (line "1"); StreamFailed "ECONNRESET"]
           [okAttempt [StreamEnded]]); try reflexivity.
  intros s [<-|[<-|[]]]; discriminate.
Defined.

End ConsumerProperties.

(** ** Facts on the [integration add] command *)

Module IntegrationAddFacts.

Import IntegrationAdd Samples.

(** X23: the product chosen is one of the integration's products.
    [selectProduct] returns nothing exactly when the integration has no
    product; with a single product it returns that one without asking;
    otherwise it asks once, and, the prompt answering with one of its
    choices, returns one of the integration's products. *)
Theorem selectProduct_picks_a_product (client : Client)
  (integration : Integration) :
  let '(eff, r) := selectProduct client integration in
  (r = None <->
   products integration = None \/ products integration = Some []) /\
  (forall only, products integration = Some [only] ->
                r = Some only /\ eff = []) /\
  ((forall choices, choices <> [] -> In (inputSelect client choices) choices) ->
   forall p, r = Some p ->
     exists l, products integration = Some l /\ In p l).
Proof.
  unfold selectProduct.
  destruct (products integration) as [[|p1 [|p2 l]]|].
  - split; [|split].
    + split; auto.
    + intros only H. discriminate H.
    + intros _ p H. discriminate H.
  - split; [|split].
    + split; [discriminate|intros [H|H]; discriminate H].
    + intros only H. injection H as <-. split; reflexivity.
    + intros _ p H. injection H as <-. exists [p1]. split; [reflexivity|].
      now left.
  - split; [|split].
    + split; [discriminate|intros [H|H]; discriminate H].
    + intros only H. discriminate H.
    + intros Hsel p H. injection H as <-. eexists. split; [reflexivity|].
      apply Hsel. discriminate.
  - split; [|split].
    + split; auto.
    + intros only H. discriminate H.
    + intros _ p H. discriminate H.
Qed.

Lemma selectProduct_picks_a_product_witness :
  exists l, products acme = Some l /\ In postgres l.
Proof.
  pose proof (selectProduct_picks_a_product sampleClient acme) as H.
  cbn in H. destruct H as (_ & _ & H).
  apply H; [|reflexivity].
  intros choices Hne. destruct choices; [congruence|now left].
Defined.

(** X24: the browser is opened last, once, and only by a run that returns
    no exit code.  When [add] returns without a value its last two effects
    are the notice and the opening of the web UI, nothing was opened
    before, the URL carries the current team first and [cmd=add] last, and
    it carries a project only if a linked project was found and the user
    confirmed the link.  When [add] returns an exit code or throws, nothing
    was opened. *)
Theorem add_opens_browser_last (client : Client) (args : list string)
  (eff : list effect) (r : result (option nat)) :
  add client args = (eff, r) ->
  match r with
  | Ok None =>
      exists before teamId params,
        eff = before ++ [Print; Open (("teamId", teamId) :: params)] /\
        filter isOpen before = [] /\
        currentTeam client = Some teamId /\
        last params ("", "") = ("cmd", "add") /\
        forall id, In ("projectId", id) params ->
          getLinkedProject client = Ok (Linked id) /\
          inputConfirm client = true
  | _ => filter isOpen eff = []
  end.
Proof.
  unfold add, fetchIntegration, selectProduct, getOptionalLinkedProject,
    privisionResourceViaWebUI.
  destruct (1 <? length args)%nat.
  { intros H. injection H as <- <-. reflexivity. }
  destruct (currentTeam client) as [teamId|].
  2: { intros H. injection H as <- <-. reflexivity. }
  destruct (teamId =? "").
  { intros H. injection H as <- <-. reflexivity. }
  destruct (getTeamById client teamId) as [teamSlug|e].
  2: { intros H. injection H as <- <-. reflexivity. }
  destruct (fetchIntegrationApi client (nth_error args 0) teamSlug)
    as [integration|e].
  2: { intros H. injection H as <- <-. reflexivity. }
  assert (Hsel : forall choices : list IntegrationProduct,
            filter isOpen
              (match choices with
               | [] | [_] => []
               | _ => [Select choices]
               end) = []).
  { intros [|p1 [|p2 l]]; reflexivity. }
  destruct (products integration) as [[|p1 [|p2 l]]|];
    try (intros H; injection H as <- <-; reflexivity).
  all: destruct (getLinkedProject client) as [[|code|id]|e] eqn:Hl;
    try (intros H; injection H as <- <-; reflexivity).
  all: try (destruct (inputConfirm client) eqn:Hc; cbn [negb];
            try (intros H; injection H as <- <-; reflexivity)).
  all: intros H; injection H as <- <-;
    match goal with
    | |- exists before _ _, ?L = _ /\ _ =>
        exists (firstn (length L - 2) L)
    end;
    exists teamId; eexists; cbn [length firstn Nat.sub app];
    (split; [reflexivity|]); (split; [reflexivity|]);
    (split; [reflexivity|]).
  all: try (split; [reflexivity|];
            intros id' [E|[E|[E|[]]]]; discriminate E).
  all: destruct (id =? ""); (split; [reflexivity|]).
  all: intros id' Hin; cbn in Hin;
    repeat (destruct Hin as [E|Hin]; [try discriminate E|]);
    try contradiction; injection E as <-; auto.
Qed.

Lemma add_opens_browser_last_witness :
  exists before teamId params,
    [GetTeam "team_1"; FetchIntegration (Some "acme") "acme-team";
     Select [postgres; redis]; GetLinkedProject; Confirm; Print;
     Open [("teamId", "team_1"); ("integrationId", "icfg_acme");
           ("productId", "iap_pg"); ("projectId", "prj_a"); ("cmd", "add")]]
    = before ++ [Print; Open (("teamId", teamId) :: params)] /\
    filter isOpen before = [] /\
    currentTeam sampleClient = Some teamId /\
    last params ("", "") = ("cmd", "add") /\
    forall id, In ("projectId", id) params ->
      getLinkedProject sampleClient = Ok (Linked id) /\
      inputConfirm sampleClient = true.
Proof.
  exact (add_opens_browser_last sampleClient ["acme"] _ (Ok None) eq_refl).
Defined.

End IntegrationAddFacts.
